(** * The [sort] transformation of the query engine (package [functions])

    A shallow embedding of the sort operator: its operation and procedure
    specifications, the transformation node with its per-block processing,
    and the collaborators it calls (partition keys, block builders, the
    block-builder cache, the dataset endpoint).

    Go slices of strings live in an explicit heap of backing arrays so that
    sharing between specifications is visible; index writes are bounds
    checked and a failed check ([None], [Panicked]) stands for Go's
    run-time panic. *)

From stdpp Require Import base option list strings gmap.
From Stdlib Require Import ZArith Lia Sorted OrderedTypeEx.

Local Open Scope Z_scope.
Local Open Scope nat_scope.

(** ** Go slices of strings *)

Module GoSlice.

(** A backing array is named by its allocation index in the heap. *)
Abbreviation Heap := (list (list string)).

(** A slice header: backing array, offset into it, length, capacity. *)
Record Slice := MkSlice { base : nat; off : nat; len : nat; cap : nat }.

(** The nil slice: no elements, no capacity. *)
Definition nil : Slice := MkSlice 0 0 0 0.

Definition backing (h : Heap) (s : Slice) : list string :=
  default [] (h !! base s).

(** The elements [s[0], ..., s[len-1]] as the heap has them. *)
Definition elems (h : Heap) (s : Slice) : list string :=
  take (len s) (drop (off s) (backing h s)).

(** [s[i]]; [None] is the index-out-of-range panic. *)
Definition get (h : Heap) (s : Slice) (i : nat) : option string :=
  if decide (i < len s) then backing h s !! (off s + i) else None.

(** [s[i] = v]; [None] is the index-out-of-range panic. *)
Definition set (h : Heap) (s : Slice) (i : nat) (v : string) : option Heap :=
  if decide (i < len s)
  then Some (alter (λ a, <[off s + i := v]> a) (base s) h)
  else None.

(** [make([]string, n)]: a fresh array of [n] empty strings. *)
Definition make (n : nat) (h : Heap) : Slice * Heap :=
  (MkSlice (length h) 0 n n, h ++ [replicate n ""%string]).

(** [[]string{x1, ..., xn}]: a fresh array holding the literal. *)
Definition lit (xs : list string) (h : Heap) : Slice * Heap :=
  (MkSlice (length h) 0 (length xs) (length xs), h ++ [xs]).

(** [copy(dst, src)]: copies [min(len(dst), len(src))] elements and
    returns that number. *)
Definition copy (dst src : Slice) (h : Heap) : nat * Heap :=
  let n := len dst `min` len src in
  let vals := take n (elems h src) in
  (n, alter (λ a, take (off dst) a ++ vals ++ drop (off dst + n) a)
            (base dst) h).

(** A slice is valid in a heap when its window lies inside an allocated
    array (a slice without capacity needs no array). *)
Definition valid (h : Heap) (s : Slice) : Prop :=
  len s ≤ cap s ∧
  (cap s = 0 ∨ ∃ a, h !! base s = Some a ∧ off s + cap s ≤ length a).

End GoSlice.

Abbreviation Heap := GoSlice.Heap.
Abbreviation Slice := GoSlice.Slice.

(** Bounds-checked array write [arr[j] = x]. *)
Definition write {A} (arr : list A) (j : nat) (x : A) : option (list A) :=
  if decide (j < length arr) then Some (<[j := x]> arr) else None.

(** ** Columns, values and partition keys *)

Inductive DataType :=
  TInvalid | TBool | TInt | TUInt | TFloat | TString | TTime.

Record ColMeta := MkColMeta { Label : string; Type_ : DataType }.

(** Run-time values. [VNil] is the nil interface value that a freshly made
    [[]values.Value] holds. Floating-point values are not represented. *)
Inductive Value :=
  | VNil
  | VBool (b : bool)
  | VInt (i : Z)
  | VUInt (u : N)
  | VString (s : string)
  | VTime (t : Z).

Definition zeroColMeta : ColMeta := MkColMeta "" TInvalid.

Global Instance DataType_eq_dec : EqDecision DataType.
Proof. solve_decision. Defined.
Global Instance ColMeta_eq_dec : EqDecision ColMeta.
Proof. solve_decision. Defined.
Global Instance Value_eq_dec : EqDecision Value.
Proof. solve_decision. Defined.

(** Modelled from the spec: the partition key, whose implementation is in
    the [query]/[execute] packages. "An ordered set of (column-metadata,
    value) pairs that identifies a group"; two keys are the same group when
    they are structurally equal. *)
Abbreviation PartitionKey := (list (ColMeta * Value)).

(** [key.Cols()] *)
Definition Cols (key : PartitionKey) : list ColMeta := key.*1.

(** [key.Value(idx)]; [None] is the index-out-of-range panic. *)
Definition KeyValue (key : PartitionKey) (idx : nat) : option Value :=
  snd <$> key !! idx.

(** Modelled from the spec: [execute.NewPartitionKey(cols, vs)] pairs each
    column with the value at the same position. *)
Definition NewPartitionKey (cols : list ColMeta) (vs : list Value)
  : PartitionKey := zip cols vs.

(** Modelled from the spec: [execute.ColIdx], "find-column-index(label,
    columns)": the position of the first column with that label, or -1. *)
Fixpoint ColIdx_from (j : Z) (label : string) (cols : list ColMeta) : Z :=
  match cols with
  | [] => (-1)%Z
  | c :: cs =>
      if decide (Label c = label) then j
      else ColIdx_from (j + 1)%Z label cs
  end.

Definition ColIdx (label : string) (cols : list ColMeta) : Z :=
  ColIdx_from 0%Z label cols.

(** Modelled from the spec: [execute.ContainsStr], "contains-label(list,
    label)". *)
Fixpoint ContainsStr (strs : list string) (str : string) : bool :=
  match strs with
  | [] => false
  | s :: rest => if decide (s = str) then true else ContainsStr rest str
  end.

(** Modelled from the spec: [key.HasCol(label)], whether the key has a
    column with that label. *)
Definition HasCol (key : PartitionKey) (label : string) : bool :=
  bool_decide (0 ≤ ColIdx label (Cols key))%Z.

(** ** sortedKey (lines 173-193) *)

(** The two arrays under construction and the write index [j]. *)
Record keyBuf := MkKeyBuf {
  kb_cols : list ColMeta;
  kb_vs : list Value;
  kb_j : nat
}.

(** [cols[j] = c; vs[j] = v; j++] *)
Definition put (buf : keyBuf) (c : ColMeta) (v : Value) : option keyBuf :=
  cols' ← write (kb_cols buf) (kb_j buf) c;
  vs' ← write (kb_vs buf) (kb_j buf) v;
  Some (MkKeyBuf cols' vs' (S (kb_j buf))).

(** First loop: [for _, label := range t.cols]. *)
Fixpoint sortedKey_labels (labels : list string) (key : PartitionKey)
    (buf : keyBuf) : option keyBuf :=
  match labels with
  | [] => Some buf
  | label :: rest =>
      let idx := ColIdx label (Cols key) in
      if decide (0 ≤ idx)%Z then
        c ← Cols key !! Z.to_nat idx;
        v ← KeyValue key (Z.to_nat idx);
        buf' ← put buf c v;
        sortedKey_labels rest key buf'
      else sortedKey_labels rest key buf
  end.

(** Second loop: [for idx, c := range key.Cols()]. *)
Fixpoint sortedKey_rest (tcols : list string) (kcols : list ColMeta)
    (idx : nat) (key : PartitionKey) (buf : keyBuf) : option keyBuf :=
  match kcols with
  | [] => Some buf
  | c :: cs =>
      if ContainsStr tcols (Label c)
      then sortedKey_rest tcols cs (S idx) key buf
      else
        v ← KeyValue key idx;
        buf' ← put buf c v;
        sortedKey_rest tcols cs (S idx) key buf'
  end.

(** The body of [sortedKey] up to the final constructor call: the filled
    arrays and the final value of [j]. *)
Definition sortedKey_run (tcols : list string) (key : PartitionKey)
  : option keyBuf :=
  let n := length (Cols key) in
  buf1 ← sortedKey_labels tcols key
           (MkKeyBuf (replicate n zeroColMeta) (replicate n VNil) 0);
  sortedKey_rest tcols (Cols key) 0 key buf1.

Definition sortedKey (tcols : list string) (key : PartitionKey)
  : option PartitionKey :=
  buf ← sortedKey_run tcols key;
  Some (NewPartitionKey (kb_cols buf) (kb_vs buf)).

(** ** Errors *)

(** The errors this file creates with [fmt.Errorf], and those handed up by
    collaborators. *)
Inductive error :=
  | ErrDuplicateBlock (key : PartitionKey)
      (* "sort found duplicate block with key: %v" *)
  | ErrInvalidSpecType (typ : string)
      (* "invalid spec type %T" *)
  | ErrOther (msg : string).

(** A Go result pair [(value, error)]. *)
Inductive res (A : Type) :=
  | Ok (a : A)
  | Err (e : error).
Arguments Ok {A} a.
Arguments Err {A} e.

(** ** Blocks, builders and the builder cache *)

(** A column-oriented block: one data list per column. *)
Record Block := MkBlock {
  Key : PartitionKey;
  BlockCols : list ColMeta;
  BlockData : list (list Value)
}.

Record BlockBuilder := MkBuilder {
  bKey : PartitionKey;
  bCols : list ColMeta;
  bData : list (list Value)
}.

Definition NCols (builder : BlockBuilder) : nat := length (bCols builder).

Definition NRows (data : list (list Value)) : nat :=
  match data with
  | [] => 0
  | c :: _ => length c
  end.

(** Row view of column data, and back. *)
Definition rowsOf (data : list (list Value)) : list (list Value) :=
  (λ i, (λ col, default VNil (col !! i)) <$> data) <$> seq 0 (NRows data).

Definition colsOf (ncols : nat) (rows : list (list Value))
  : list (list Value) :=
  (λ j, (λ r, default VNil (r !! j)) <$> rows) <$> seq 0 ncols.

Definition builderRows (builder : BlockBuilder) : list (list Value) :=
  rowsOf (bData builder).

(** [builder.AddCol(c)]: a new, empty column at the end. *)
Definition AddCol (builder : BlockBuilder) (c : ColMeta) : BlockBuilder :=
  MkBuilder (bKey builder) (bCols builder ++ [c]) (bData builder ++ [[]]).

(** Modelled from the spec: [execute.AddBlockCols], "all columns of the
    incoming block are added to the new builder, preserving column order and
    type". *)
Definition AddBlockCols (b : Block) (builder : BlockBuilder) : BlockBuilder :=
  foldl AddCol builder (BlockCols b).

(** Modelled from the spec: [execute.AppendBlock], "every row of the
    incoming block is appended into the builder according to the column
    mapping": builder column [j] receives the data of block column
    [colMap[j]]. A block without columns appends nothing. [None] is an
    index-out-of-range panic. *)
Definition AppendBlock (b : Block) (builder : BlockBuilder)
    (colMap : list nat) : option BlockBuilder :=
  if decide (BlockCols b = []) then Some builder
  else
    data' ← mapM (λ j, src ← colMap !! j;
                       col ← BlockData b !! src;
                       dst ← bData builder !! j;
                       Some (dst ++ col))
                 (seq 0 (NCols builder));
    Some (MkBuilder (bKey builder) (bCols builder) data').

(** Modelled from the spec: the natural ordering of values of one type
    ("numeric ascending/descending, lexicographic for strings, chronological
    for time"). Values of different types do not meet in one column. *)
Definition compareValues (v1 v2 : Value) : comparison :=
  match v1, v2 with
  | VBool a, VBool b => Bool.compare a b
  | VInt a, VInt b => (a ?= b)%Z
  | VUInt a, VUInt b => (a ?= b)%N
  | VString a, VString b => String.compare a b
  | VTime a, VTime b => (a ?= b)%Z
  | _, _ => Eq
  end.

(** Rows are compared on the sort columns in the order given; the first
    column on which they differ decides. *)
Fixpoint compareRows (idxs : list nat) (r1 r2 : list Value) : comparison :=
  match idxs with
  | [] => Eq
  | j :: rest =>
      match compareValues (default VNil (r1 !! j)) (default VNil (r2 !! j)) with
      | Eq => compareRows rest r1 r2
      | c => c
      end
  end.

(** The one direction flag applies to the whole comparison. *)
Definition rowLess (idxs : list nat) (desc : bool) (r1 r2 : list Value)
  : bool :=
  match (if desc then CompOpp else id) (compareRows idxs r1 r2) with
  | Lt => true
  | _ => false
  end.

(** Stable insertion: [r] passes only rows that are strictly before it. *)
Fixpoint insertRow (idxs : list nat) (desc : bool) (r : list Value)
    (rows : list (list Value)) : list (list Value) :=
  match rows with
  | [] => [r]
  | r' :: rest =>
      if rowLess idxs desc r' r then r' :: insertRow idxs desc r rest
      else r :: r' :: rest
  end.

Definition sortRows (idxs : list nat) (desc : bool)
    (rows : list (list Value)) : list (list Value) :=
  foldr (insertRow idxs desc) [] rows.

(** The positions of the sort columns among the builder's columns; a label
    that is not a column takes no part in the comparison. *)
Definition sortIdxs (cols : list string) (metas : list ColMeta) : list nat :=
  omap (λ label, let i := ColIdx label metas in
                 if decide (0 ≤ i)%Z then Some (Z.to_nat i) else None) cols.

(** Modelled from the spec: [builder.Sort(cols, desc)], "the builder is
    sorted in place by the configured column list and direction", multi-key,
    one direction for all columns, stable on ties. *)
Definition Sort (cols : list string) (desc : bool) (builder : BlockBuilder)
  : BlockBuilder :=
  MkBuilder (bKey builder) (bCols builder)
    (colsOf (length (bData builder))
       (sortRows (sortIdxs cols (bCols builder)) desc (builderRows builder))).

(** Modelled from the spec: the block-builder cache, "keyed by partition key
    ... at most one in-progress builder per key". Builders are kept in
    creation order. *)
Abbreviation BlockBuilderCache := (list (PartitionKey * BlockBuilder)).

Definition NewBlockBuilderCache : BlockBuilderCache := [].

Fixpoint lookupBuilder (key : PartitionKey) (c : BlockBuilderCache)
  : option BlockBuilder :=
  match c with
  | [] => None
  | (k, b) :: rest =>
      if decide (k = key) then Some b else lookupBuilder key rest
  end.

(** The builder of the cache is a shared object; [storeBuilder] is the
    effect on the cache of mutating the builder of [key] in place. *)
Fixpoint storeBuilder (key : PartitionKey) (b : BlockBuilder)
    (c : BlockBuilderCache) : BlockBuilderCache :=
  match c with
  | [] => []
  | (k, b') :: rest =>
      if decide (k = key) then (k, b) :: rest
      else (k, b') :: storeBuilder key b rest
  end.

(** Modelled from the spec: [cache.BlockBuilder(key)], "BuilderFor(key) →
    (builder, created)"; [created = false] signals an existing builder for
    that key. *)
Definition CacheBlockBuilder (c : BlockBuilderCache) (key : PartitionKey)
  : BlockBuilder * bool * BlockBuilderCache :=
  match lookupBuilder key c with
  | Some b => (b, false, c)
  | None =>
      let b := MkBuilder key [] [] in
      (b, true, c ++ [(key, b)])
  end.

(** ** Operation and procedure specifications (lines 14-96) *)

Definition SortKind : string := "sort".

Module SortOpSpec.
Record t := Mk { Cols : Slice; Desc : bool }.
Definition Kind (s : t) : string := SortKind.
End SortOpSpec.

Module SortProcedureSpec.
Record t := Mk { Cols : Slice; Desc : bool }.
Definition Kind (s : t) : string := SortKind.
End SortProcedureSpec.

(** The [query.OperationSpec] interface value handed to the planner: a
    pointer to a sort specification, the nil pointer of that pointer type
    (a typed nil), a specification of another concrete type (named as [%T]
    prints it), or the nil interface. *)
Inductive OperationSpec :=
  | OpSort (s : SortOpSpec.t)
  | OpSortNil
  | OpOther (typ : string) (kind : string)
  | OpNil.

(** The [plan.ProcedureSpec] interface value, likewise. *)
Inductive ProcedureSpec :=
  | ProcSort (s : SortProcedureSpec.t)
  | ProcSortNil
  | ProcOther (typ : string) (kind : string)
  | ProcNil.

Definition opTypeName (qs : OperationSpec) : string :=
  match qs with
  | OpSort _ | OpSortNil => "*functions.SortOpSpec"
  | OpOther typ _ => typ
  | OpNil => "<nil>"
  end.

Definition procTypeName (spec : ProcedureSpec) : string :=
  match spec with
  | ProcSort _ | ProcSortNil => "*functions.SortProcedureSpec"
  | ProcOther typ _ => typ
  | ProcNil => "<nil>"
  end.

(** The type assertion of [qs] to [*SortOpSpec]: [None] when it fails
    ([ok] is false), otherwise the pointer, which may be nil ([Some None]). *)
Definition asSortOpSpec (qs : OperationSpec) : option (option SortOpSpec.t) :=
  match qs with
  | OpSort s => Some (Some s)
  | OpSortNil => Some None
  | OpOther _ _ | OpNil => None
  end.

(** The type assertion of [spec] to [*SortProcedureSpec], likewise. *)
Definition asSortProcedureSpec (spec : ProcedureSpec)
  : option (option SortProcedureSpec.t) :=
  match spec with
  | ProcSort s => Some (Some s)
  | ProcSortNil => Some None
  | ProcOther _ _ | ProcNil => None
  end.

(** [newSortOp] *)
Definition newSortOp : OperationSpec :=
  OpSort (SortOpSpec.Mk GoSlice.nil false).

(** [newSortProcedure]: the planning administration [pa] is not used. The
    result is [None] when the call panics: the assertion succeeds on a nil
    [*SortOpSpec] and [spec.Cols] then reads through the nil pointer. *)
Definition newSortProcedure {PA : Type} (qs : OperationSpec) (pa : PA)
  : option (res ProcedureSpec) :=
  match asSortOpSpec qs with
  | None => Some (Err (ErrInvalidSpecType (opTypeName qs)))
  | Some ptr =>
      spec ← ptr;
      Some (Ok (ProcSort (SortProcedureSpec.Mk (SortOpSpec.Cols spec)
                                               (SortOpSpec.Desc spec))))
  end.

(** [(s *SortProcedureSpec) Copy()] *)
Definition Copy (s : SortProcedureSpec.t) (h : Heap) : ProcedureSpec * Heap :=
  let '(nsCols, h1) :=
    GoSlice.make (GoSlice.len (SortProcedureSpec.Cols s)) h in
  let '(_, h2) := GoSlice.copy nsCols (SortProcedureSpec.Cols s) h1 in
  (ProcSort (SortProcedureSpec.Mk nsCols (SortProcedureSpec.Desc s)), h2).

(** ** Arguments of the [sort] call (createSortOpSpec, lines 32-58) *)

Inductive Kind := KString | KInt | KUInt | KFloat | KBool | KTime | KArray.

Global Instance Kind_eq_dec : EqDecision Kind.
Proof. solve_decision. Defined.

(** Argument values of the interpreter; an array carries its element kind. *)
#[warnings="-register-all"] Inductive ArgValue :=
  | AString (s : string)
  | AInt (i : Z)
  | ABool (b : bool)
  | AArray (elem : Kind) (vs : list ArgValue).

(** The named arguments of a call. *)
Abbreviation Arguments_ := (gmap string ArgValue).

(** The triple [(value, ok, err)] of an optional-argument getter. *)
Inductive Got (A : Type) :=
  | Absent
  | Present (a : A)
  | GetErr (e : error).
Arguments Absent {A}.
Arguments Present {A} a.
Arguments GetErr {A} e.

(** Modelled from the spec: [args.GetArray(name, kind)], "reads an optional
    array-of-strings argument"; a value of another type or element kind is a
    construction error. *)
Definition GetArray (name : string) (kind : Kind) (args : Arguments_)
  : Got (Kind * list ArgValue) :=
  match args !! name with
  | None => Absent
  | Some (AArray k vs) =>
      if decide (k = kind) then Present (k, vs)
      else GetErr (ErrOther "array element type mismatch")
  | Some _ => GetErr (ErrOther "argument is not an array")
  end.

(** Modelled from the spec: [args.GetBool(name)], "reads an optional boolean
    argument"; a value of another type is a construction error. *)
Definition GetBool (name : string) (args : Arguments_) : Got bool :=
  match args !! name with
  | None => Absent
  | Some (ABool b) => Present b
  | Some _ => GetErr (ErrOther "argument is not a boolean")
  end.

Definition argString (v : ArgValue) : option string :=
  match v with
  | AString s => Some s
  | _ => None
  end.

(** Modelled from the spec: [interpreter.ToStringArray], the strings of an
    array of strings as a new slice; another array is a construction
    error. *)
Definition ToStringArray (array : Kind * list ArgValue) (h : Heap)
  : res Slice * Heap :=
  match array.1, mapM argString array.2 with
  | KString, Some strs =>
      let '(s, h') := GoSlice.lit strs h in (Ok s, h')
  | _, _ => (Err (ErrOther "cannot convert array to an array of strings"), h)
  end.

Section CreateSortOpSpec.

(** The administration that resolves parents, and the engine's canonical
    default value-column label, come from the [query] and [execute]
    packages. *)
Context {Administration : Type}.
Variable AddParentFromArgs :
  Arguments_ → Administration → option error * Administration.
Variable DefaultValueColLabel : string.

Definition createSortOpSpec (args : Arguments_) (a : Administration)
    (h : Heap) : res OperationSpec * Administration * Heap :=
  match AddParentFromArgs args a with
  | (Some err, a') => (Err err, a', h)
  | (None, a') =>
      (* spec := new(SortOpSpec) *)
      let cols0 := GoSlice.nil in
      let desc0 := false in
      let colsStep : res Slice * Heap :=
        match GetArray "cols" KString args with
        | GetErr err => (Err err, h)
        | Present array => ToStringArray array h
        | Absent => let '(s, h') := GoSlice.lit [DefaultValueColLabel] h in
                    (Ok s, h')
        end in
      match colsStep with
      | (Err err, h') => (Err err, a', h')
      | (Ok cols, h') =>
          match GetBool "desc" args with
          | GetErr err => (Err err, a', h')
          | Present desc => (Ok (OpSort (SortOpSpec.Mk cols desc)), a', h')
          | Absent => (Ok (OpSort (SortOpSpec.Mk cols desc0)), a', h')
          end
      end
  end.

End CreateSortOpSpec.

(** ** The transformation node (lines 98-193) *)

(** [execute.DatasetID] is an opaque identifier; [execute.Time] is a 64-bit
    count of nanoseconds. *)
Abbreviation DatasetID := N.
Abbreviation Time := Z.

Inductive AccumulationMode :=
  DiscardingMode | AccumulatingMode | AccumulatingRetractingMode.

(** The [execute.Dataset] interface. A dataset is built over the node's
    builder cache and shares it, so its methods act on the dataset's own
    state together with the cache. *)
Class Dataset (DS : Type) := {
  NewDataset : DatasetID → AccumulationMode → DS;
  dsRetractBlock :
    PartitionKey → DS * BlockBuilderCache →
    option error * (DS * BlockBuilderCache);
  dsUpdateWatermark :
    Time → DS * BlockBuilderCache → option error * (DS * BlockBuilderCache);
  dsUpdateProcessingTime :
    Time → DS * BlockBuilderCache → option error * (DS * BlockBuilderCache);
  dsFinish :
    option error → DS * BlockBuilderCache → DS * BlockBuilderCache
}.

(** The scratch buffer [colMap []int]: the node owns its backing array and
    never hands out a second slice of it, so the array is kept in the slice
    itself; the capacity is the length of the array. *)
Record IntSlice := MkIntSlice { ibacking : list nat; ilen : nat }.

Definition inil : IntSlice := MkIntSlice [] 0.
Definition icap (s : IntSlice) : nat := length (ibacking s).
Definition ielems (s : IntSlice) : list nat := take (ilen s) (ibacking s).

(** [make([]int, n)] *)
Definition imake (n : nat) : IntSlice := MkIntSlice (replicate n 0) n.

(** [s[:n]]; [None] is the slice-bounds-out-of-range panic. *)
Definition reslice (s : IntSlice) (n : nat) : option IntSlice :=
  if decide (n ≤ icap s) then Some (MkIntSlice (ibacking s) n) else None.

(** [for j := range s { s[j] = j }], over the indices [js]. *)
Fixpoint fillIdentity (js : list nat) (s : IntSlice) : option IntSlice :=
  match js with
  | [] => Some s
  | j :: rest =>
      if decide (j < ilen s) then
        a ← write (ibacking s) j j;
        fillIdentity rest (MkIntSlice a (ilen s))
      else None
  end.

(** Lines 148-155 of [Process]. *)
Definition resizeColMap (colMap : IntSlice) (ncols : nat) : option IntSlice :=
  if decide (icap colMap < ncols) then
    let s := imake ncols in
    fillIdentity (seq 0 (ilen s)) s
  else reslice colMap ncols.

Record sortTransformation (DS : Type) := MkSortTransformation {
  d : DS;
  cache : BlockBuilderCache;
  cols : Slice;
  desc : bool;
  colMap : IntSlice
}.
Arguments MkSortTransformation {DS} d cache cols desc colMap.
Arguments d {DS} s.
Arguments cache {DS} s.
Arguments cols {DS} s.
Arguments desc {DS} s.
Arguments colMap {DS} s.

Definition NewSortTransformation {DS} (d : DS) (cache : BlockBuilderCache)
    (spec : SortProcedureSpec.t) : sortTransformation DS :=
  MkSortTransformation d cache (SortProcedureSpec.Cols spec)
    (SortProcedureSpec.Desc spec) inil.

(** [NewSortTransformation] on a pointer that may be nil: reading
    [spec.Cols] through the nil pointer panics ([None]). *)
Definition NewSortTransformation_ptr {DS} (d : DS) (cache : BlockBuilderCache)
    (spec : option SortProcedureSpec.t) : option (sortTransformation DS) :=
  s ← spec; Some (NewSortTransformation d cache s).

(** [createSortTransformation]; the returned dataset is the [d] field of the
    returned node. The administration only supplies the allocator of the
    cache. The result is [None] when the call panics. *)
Definition createSortTransformation {A DS} `{Dataset DS} (id : DatasetID)
    (mode : AccumulationMode) (spec : ProcedureSpec) (a : A)
  : option (res (sortTransformation DS)) :=
  match asSortProcedureSpec spec with
  | None => Some (Err (ErrInvalidSpecType (procTypeName spec)))
  | Some s =>
      let cache := NewBlockBuilderCache in
      let d := NewDataset id mode in
      t ← NewSortTransformation_ptr d cache s;
      Some (Ok t)
  end.

Definition withDataset {DS} (t : sortTransformation DS)
    (dc : DS * BlockBuilderCache) : sortTransformation DS :=
  MkSortTransformation dc.1 dc.2 (cols t) (desc t) (colMap t).

Definition RetractBlock {DS} `{Dataset DS} (t : sortTransformation DS)
    (id : DatasetID) (key : PartitionKey)
  : option error * sortTransformation DS :=
  let '(r, dc) := dsRetractBlock key (d t, cache t) in (r, withDataset t dc).

Definition UpdateWatermark {DS} `{Dataset DS} (t : sortTransformation DS)
    (id : DatasetID) (mark : Time) : option error * sortTransformation DS :=
  let '(r, dc) := dsUpdateWatermark mark (d t, cache t) in
  (r, withDataset t dc).

Definition UpdateProcessingTime {DS} `{Dataset DS} (t : sortTransformation DS)
    (id : DatasetID) (pt : Time) : option error * sortTransformation DS :=
  let '(r, dc) := dsUpdateProcessingTime pt (d t, cache t) in
  (r, withDataset t dc).

Definition Finish {DS} `{Dataset DS} (t : sortTransformation DS)
    (id : DatasetID) (err : option error) : sortTransformation DS :=
  withDataset t (dsFinish err (d t, cache t)).

(** Calls on the dataset, as a dataset that keeps a log sees them. *)
Inductive DatasetCall :=
  | DRetractBlock (key : PartitionKey)
  | DUpdateWatermark (mark : Time)
  | DUpdateProcessingTime (pt : Time)
  | DFinish (err : option error).

Definition logged {DS R} (c : DatasetCall)
    (f : DS * BlockBuilderCache → R * (DS * BlockBuilderCache))
    (st : (list DatasetCall * DS) * BlockBuilderCache)
  : R * ((list DatasetCall * DS) * BlockBuilderCache) :=
  let '(r, (ds, c')) := f (st.1.2, st.2) in
  (r, ((st.1.1 ++ [c], ds), c')).

(** Any dataset, wrapped so that every call made on it is recorded. *)
Global Instance LoggedDataset {DS} `{Dataset DS}
  : Dataset (list DatasetCall * DS) := {
  NewDataset id mode := ([], NewDataset id mode);
  dsRetractBlock key := logged (DRetractBlock key) (dsRetractBlock key);
  dsUpdateWatermark mark :=
    logged (DUpdateWatermark mark) (dsUpdateWatermark mark);
  dsUpdateProcessingTime pt :=
    logged (DUpdateProcessingTime pt) (dsUpdateProcessingTime pt);
  dsFinish err st :=
    (logged (DFinish err) (λ dc, (tt, dsFinish err dc)) st).2
}.

(** The calls [Process] makes on its collaborators, with their arguments. *)
Inductive Call :=
  | CallBlockBuilder (key : PartitionKey)
  | CallAddBlockCols (b : Block)
  | CallAppendBlock (b : Block) (ncols : nat) (colMap : list nat)
  | CallSort (cols : list string) (desc : bool).

Global Instance error_eq_dec : EqDecision error.
Proof. solve_decision. Defined.
Global Instance Block_eq_dec : EqDecision Block.
Proof. solve_decision. Defined.
Global Instance Call_eq_dec : EqDecision Call.
Proof. solve_decision. Defined.

Inductive Outcome :=
  | Done                 (* return nil *)
  | Failed (e : error)   (* return err *)
  | Panicked.            (* run-time panic *)

(** What one call of [Process] did: the collaborator calls in order, how it
    ended, and the node afterwards. *)
Record Run (DS : Type) := MkRun {
  calls : list Call;
  outcome : Outcome;
  final : sortTransformation DS
}.
Arguments MkRun {DS} calls outcome final.
Arguments calls {DS} r.
Arguments outcome {DS} r.
Arguments final {DS} r.

(** Lines 133-139: the first sort label that is a key column triggers the
    reordering, once. *)
Fixpoint processKey (labels tcols : list string) (key : PartitionKey)
  : option PartitionKey :=
  match labels with
  | [] => Some key
  | label :: rest =>
      if HasCol key label then sortedKey tcols key
      else processKey rest tcols key
  end.

Definition withCache {DS} (t : sortTransformation DS)
    (c : BlockBuilderCache) (cm : IntSlice) : sortTransformation DS :=
  MkSortTransformation (d t) c (cols t) (desc t) cm.

Definition Process {DS} (h : Heap) (t : sortTransformation DS)
    (id : DatasetID) (b : Block) : Run DS :=
  let tcols := GoSlice.elems h (cols t) in
  match processKey tcols tcols (Key b) with
  | None => MkRun [] Panicked t
  | Some key =>
      let '(builder, created, cache1) := CacheBlockBuilder (cache t) key in
      if negb created then
        MkRun [CallBlockBuilder key] (Failed (ErrDuplicateBlock (Key b))) t
      else
        let builder1 := AddBlockCols b builder in
        let cache2 := storeBuilder key builder1 cache1 in
        let ncols := NCols builder1 in
        match resizeColMap (colMap t) ncols with
        | None =>
            MkRun [CallBlockBuilder key; CallAddBlockCols b] Panicked
                  (withCache t cache2 (colMap t))
        | Some cm =>
            let before :=
              [CallBlockBuilder key; CallAddBlockCols b;
               CallAppendBlock b ncols (ielems cm)] in
            match AppendBlock b builder1 (ielems cm) with
            | None => MkRun before Panicked (withCache t cache2 cm)
            | Some builder2 =>
                let builder3 := Sort tcols (desc t) builder2 in
                MkRun (before ++ [CallSort tcols (desc t)]) Done
                      (withCache t (storeBuilder key builder3 cache1) cm)
            end
        end
  end.

(** The node after a stream of blocks, whatever each call returned. *)
Definition processAll {DS} (h : Heap) (t : sortTransformation DS)
    (id : DatasetID) (bs : list Block) : sortTransformation DS :=
  foldl (λ t b, final (Process h t id b)) t bs.

(** The key handed to the builder cache by a run, if it got that far. *)
Definition passedKey {DS} (r : Run DS) : option PartitionKey :=
  match calls r with
  | CallBlockBuilder key :: _ => Some key
  | _ => None
  end.

(** ** The reordered key, in the words of the specification *)

(** The key column (with its value) that a label names: the first one with
    that label. *)
Definition keyFind (label : string) (key : PartitionKey)
  : option (ColMeta * Value) :=
  List.find (λ p, bool_decide (Label p.1 = label)) key.

(** "The configured sort columns that are key columns, in configured
    order", "each paired with its original value". *)
Definition sortColsOfKey (tcols : list string) (key : PartitionKey)
  : PartitionKey :=
  omap (λ label, keyFind label key) tcols.

(** "... followed by the remaining original key columns in their original
    relative order." *)
Definition reorderedKey (tcols : list string) (key : PartitionKey)
  : PartitionKey :=
  sortColsOfKey tcols key ++ filter (λ p, Label p.1 ∉ tcols) key.

(** The state of the two arrays of [sortedKey] after the pairs [out] have
    been written from the front: [j] is past them, the rest is still zero. *)
Definition bufHolds (n : nat) (out : PartitionKey) (buf : keyBuf) : Prop :=
  kb_j buf = length out ∧
  kb_cols buf = out.*1 ++ replicate (n - length out) zeroColMeta ∧
  kb_vs buf = out.*2 ++ replicate (n - length out) VNil.

(** ** Example data *)

Module Ex.

Definition colA : ColMeta := MkColMeta "a" TInt.
Definition colB : ColMeta := MkColMeta "b" TString.
Definition colC : ColMeta := MkColMeta "c" TInt.

(** A heap with four column lists: [b z a], [a a], [a] and [x]. *)
Definition heap : Heap := [["b"; "z"; "a"]; ["a"; "a"]; ["a"]; ["x"]]%string.
Definition cols_bza : Slice := GoSlice.MkSlice 0 0 3 3.
Definition cols_aa : Slice := GoSlice.MkSlice 1 0 2 2.
Definition cols_a : Slice := GoSlice.MkSlice 2 0 1 1.
Definition cols_x : Slice := GoSlice.MkSlice 3 0 1 1.

(** A fresh node over a dataset without state. *)
Definition node (cols : Slice) (desc : bool) : sortTransformation unit :=
  NewSortTransformation tt NewBlockBuilderCache
    (SortProcedureSpec.Mk cols desc).

Definition key_acb : PartitionKey :=
  [(colA, VInt 1); (colC, VInt 5); (colB, VString "q")].
Definition key_a : PartitionKey := [(colA, VInt 1)].
(** A key in which two different columns carry the same label. *)
Definition colA' : ColMeta := MkColMeta "a" TString.
Definition key_aa : PartitionKey := [(colA, VInt 1); (colA', VString "x")].

Definition keyedBlock (key : PartitionKey) : Block :=
  MkBlock key (Cols key) ((λ p, [p.2]) <$> key).

(** The rows (a:3,b:"x"), (a:1,b:"y"), (a:1,b:"z"), column by column. *)
Definition block_ab : Block :=
  MkBlock [] [colA; colB]
    [[VInt 3; VInt 1; VInt 1]; [VString "x"; VString "y"; VString "z"]].

(** Blocks with one and with three columns. *)
Definition block1 : Block :=
  MkBlock [(colC, VInt 1)] [colC] [[VInt 1]].
Definition block3 : Block :=
  MkBlock [(colC, VInt 3)] [colC; colA; colB]
    [[VInt 3]; [VInt 7]; [VString "s"]].

(** A dataset that counts the calls made on it and, on a retraction,
    discards nothing. *)
Global Instance countingDataset : Dataset nat := {
  NewDataset _ _ := 0;
  dsRetractBlock _ st := (None, (S st.1, st.2));
  dsUpdateWatermark _ st := (None, (S st.1, st.2));
  dsUpdateProcessingTime _ st := (None, (S st.1, st.2));
  dsFinish _ st := (S st.1, st.2)
}.

End Ex.

(** ** Invariants used in the proofs *)

(** The buffer's backing array is the identity on its whole capacity. *)
Definition colMapIdentity (s : IntSlice) : Prop :=
  ibacking s = seq 0 (icap s).

(** The cache holds a builder for the key. *)
Definition hasBuilder (key : PartitionKey) (c : BlockBuilderCache) : Prop :=
  is_Some (lookupBuilder key c).

(** The values of a row on the sort columns: rows tie when these agree. *)
Definition sortKeyOf (idxs : list nat) (r : list Value) : list Value :=
  (λ j, default VNil (r !! j)) <$> idxs.

(** The rows of the block that a node holds for a key. *)
Definition emittedRows {DS} (key : PartitionKey) (t : sortTransformation DS)
  : option (list (list Value)) :=
  builderRows <$> lookupBuilder key (cache t).

(** ** Further notions used in the properties *)

(** The sort labels that name a column of the key, in configured order and
    with their repetitions. *)
Definition sortLabelsInKey (tcols : list string) (key : PartitionKey)
  : list string :=
  filter (λ l, l ∈ Label <$> Cols key) tcols.

(** A block that has one data column per column description. *)
Definition rectangular (b : Block) : Prop :=
  length (BlockData b) = length (BlockCols b).

(** The builder that [Process] leaves in the cache for a block: the block's
    columns and data under the passed key, sorted. *)
Definition builtFrom (tcols : list string) (desc : bool)
    (key : PartitionKey) (b : Block) : BlockBuilder :=
  Sort tcols desc (MkBuilder key (BlockCols b) (BlockData b)).

(** The nodes that execution can produce in a heap: a new node, and what the
    methods of the node make of a node. *)
Inductive reachable {DS} `{Dataset DS} (h : Heap)
  : sortTransformation DS → Prop :=
  | reach_New d cache spec :
      reachable h (NewSortTransformation d cache spec)
  | reach_Process t id b :
      reachable h t → reachable h (final (Process h t id b))
  | reach_RetractBlock t id key :
      reachable h t → reachable h (RetractBlock t id key).2
  | reach_UpdateWatermark t id mark :
      reachable h t → reachable h (UpdateWatermark t id mark).2
  | reach_UpdateProcessingTime t id pt :
      reachable h t → reachable h (UpdateProcessingTime t id pt).2
  | reach_Finish t id err :
      reachable h t → reachable h (Finish t id err).

Module Ex2.

(** A node over the call-counting dataset, as [createSortTransformation]
  makes it. *)
Definition created (cols : Slice) (desc : bool)
: option (res (sortTransformation nat)) :=
createSortTransformation 7%N AccumulatingMode
  (ProcSort (SortProcedureSpec.Mk cols desc)) tt.

Definition node (cols : Slice) (desc : bool) : sortTransformation nat :=
NewSortTransformation 0 NewBlockBuilderCache
  (SortProcedureSpec.Mk cols desc).

End Ex2.

(** The keys that [sortedKey] returns for the blocks of a stream, block by
    block; [None] when it panics on one of them. *)
Definition streamKeys (tcols : list string) (bs : list Block)
  : option (list PartitionKey) :=
  mapM (λ b, sortedKey tcols (Key b)) bs.

(** The column list that the arguments of a [sort] call ask for: the
    default label when ["cols"] is absent, the strings of an array of
    strings, and nothing ([None]) for any other value. *)
Definition colsArg (dflt : string) (args : Arguments_)
  : option (list string) :=
  match args !! "cols"%string with
  | None => Some [dflt]
  | Some (AArray KString vs) => mapM argString vs
  | Some _ => None
  end.

(** The direction they ask for: ascending when ["desc"] is absent, the
    boolean when it is one, and nothing for any other value. *)
Definition descArg (args : Arguments_) : option bool :=
  match args !! "desc"%string with
  | None => Some false
  | Some (ABool b) => Some b
  | Some _ => None
  end.

(** One heap extends another when it has the same arrays, and then
    possibly more. *)
Definition extends (h' h : Heap) : Prop := ∃ more, h' = h ++ more.

(** ** Role check of the user interface (Authorized, lines 5-32)

    Roles are JavaScript strings compared with [===]. *)

Module Authorized.

Definition VIEWER_ROLE : string := "viewer".
Definition EDITOR_ROLE : string := "editor".
Definition ADMIN_ROLE : string := "admin".
Definition SUPERADMIN_ROLE : string := "superadmin".

(** [isUserAuthorized(meRole, requiredRole)]: a [switch] on the required
  role, with [false] as its default. *)
Definition isUserAuthorized (meRole requiredRole : string) : bool :=
if String.eqb requiredRole VIEWER_ROLE then
  String.eqb meRole VIEWER_ROLE || String.eqb meRole EDITOR_ROLE
  || String.eqb meRole ADMIN_ROLE || String.eqb meRole SUPERADMIN_ROLE
else if String.eqb requiredRole EDITOR_ROLE then
  String.eqb meRole EDITOR_ROLE || String.eqb meRole ADMIN_ROLE
  || String.eqb meRole SUPERADMIN_ROLE
else if String.eqb requiredRole ADMIN_ROLE then
  String.eqb meRole ADMIN_ROLE || String.eqb meRole SUPERADMIN_ROLE
else if String.eqb requiredRole SUPERADMIN_ROLE then
  String.eqb meRole SUPERADMIN_ROLE
else false.

(** The place of a role in the order viewer < editor < admin < superadmin;
  a string that is none of the four has no place. *)
Definition rank (role : string) : option nat :=
if String.eqb role VIEWER_ROLE then Some 1
else if String.eqb role EDITOR_ROLE then Some 2
else if String.eqb role ADMIN_ROLE then Some 3
else if String.eqb role SUPERADMIN_ROLE then Some 4
else None.

End Authorized.

(** ** Sorted rows, in the words of the specification *)

(** "Comparison is by each column's natural value ordering (numeric
    ascending/descending, lexicographic for strings, chronological for
    time)": the order within each type of value. Strings are ordered
    lexicographically by character code. *)
Inductive valueLt : Value → Value → Prop :=
  | valueLt_bool : valueLt (VBool false) (VBool true)
  | valueLt_int a b : (a < b)%Z → valueLt (VInt a) (VInt b)
  | valueLt_uint a b : (a < b)%N → valueLt (VUInt a) (VUInt b)
  | valueLt_string a b : String_as_OT.lt a b → valueLt (VString a) (VString b)
  | valueLt_time a b : (a < b)%Z → valueLt (VTime a) (VTime b).

(** "Multi-key, with all configured columns compared in the order given":
    the first column on which two sort keys differ decides. *)
Inductive keyLt : list Value → list Value → Prop :=
  | keyLt_here v1 v2 k1 k2 : valueLt v1 v2 → keyLt (v1 :: k1) (v2 :: k2)
  | keyLt_next v k1 k2 : keyLt k1 k2 → keyLt (v :: k1) (v :: k2).

(** "Each using direction [desc] uniformly": the sort key [k1] is to come
    before [k2] when, ascending, it is the lesser and, descending, the
    greater of the two. *)
Definition comesBefore (desc : bool) (k1 k2 : list Value) : Prop :=
  if desc then keyLt k2 k1 else keyLt k1 k2.

(** A row with sort key [k1] that stands before a row with sort key [k2]
    is in order: the keys are equal or [k1] is to come before [k2], and
    [k2] is not to come before [k1]. *)
Definition inOrder (desc : bool) (k1 k2 : list Value) : Prop :=
  (k1 = k2 ∨ comesBefore desc k1 k2) ∧ ¬ comesBefore desc k2 k1.

(** The sort key of a row: its values in the configured sort columns, in
    configured order; a label that is not a column of the block takes no
    part. *)
Definition rowSortKey (cols : list string) (metas : list ColMeta)
    (r : list Value) : list Value :=
  (sortColsOfKey cols (zip metas r)).*2.

(** Every row is in order with every later row, however far apart. *)
Definition rowsInOrder (cols : list string) (desc : bool)
    (metas : list ColMeta) (rows : list (list Value)) : Prop :=
  StronglySorted
    (λ r1 r2, inOrder desc (rowSortKey cols metas r1)
                           (rowSortKey cols metas r2)) rows.

(** A value of the type that a column declares. *)
Definition hasType (v : Value) (ty : DataType) : Prop :=
  match v, ty with
  | VBool _, TBool | VInt _, TInt | VUInt _, TUInt
  | VString _, TString | VTime _, TTime => True
  | _, _ => False
  end.

(** A row that has, for each column, a value of the column's type. *)
Definition rowTyped (metas : list ColMeta) (r : list Value) : Prop :=
  Forall2 (λ v c, hasType v (Type_ c)) r metas.

(** A block whose rows are so typed. *)
Definition typedBlock (b : Block) : Prop :=
  Forall (rowTyped (BlockCols b)) (rowsOf (BlockData b)).

(** Values of one type (nil only with nil). *)
Definition sameType (v1 v2 : Value) : Prop :=
  match v1, v2 with
  | VNil, VNil | VBool _, VBool _ | VInt _, VInt _ | VUInt _, VUInt _
  | VString _, VString _ | VTime _, VTime _ => True
  | _, _ => False
  end.

(** Two rows that hold values of one type in each of the columns [idxs]. *)
Definition agree (idxs : list nat) (r1 r2 : list Value) : Prop :=
  Forall (λ j, sameType (default VNil (r1 !! j)) (default VNil (r2 !! j)))
         idxs.

(** What the sort establishes between a row [a] and a later row [b]: [b]
    is not strictly before [a]. *)
Definition notAfter (idxs : list nat) (desc : bool) (a b : list Value)
  : Prop := rowLess idxs desc b a = false.

Module Ex3.

(** The rows (a:1,b:"y"), (a:1,b:"z"), (a:3,b:"x"), (a:2,b:"w"). *)
Definition block_mixed : Block :=
MkBlock [] [Ex.colA; Ex.colB]
  [[VInt 1; VInt 1; VInt 3; VInt 2];
   [VString "y"; VString "z"; VString "x"; VString "w"]].

(** Rows over the columns b, a that tie on b and differ on a. *)
Definition block_ba : Block :=
MkBlock [] [Ex.colB; Ex.colA]
  [[VString "p"; VString "q"; VString "p"; VString "q"];
   [VInt 2; VInt 1; VInt 1; VInt 2]].

End Ex3.

(** * Properties *)

(** ** Column lookup *)

Lemma ColIdx_from_keyFind label (key : PartitionKey) (j : Z) :
  match keyFind label key with
  | Some p => ∃ i : nat, ColIdx_from j label (Cols key) = (j + Z.of_nat i)%Z
                         ∧ key !! i = Some p
  | None => ColIdx_from j label (Cols key) = (-1)%Z
  end.
Proof.
  revert j. unfold Cols. induction key as [|p key IH]; intros j; simpl; [done|].
  rewrite (bool_decide_decide (Label p.1 = label)).
  destruct (decide (Label p.1 = label)) as [Heq|Hne]; simpl.
  - exists 0. split; [lia|done].
  - specialize (IH (j + 1)%Z).
    destruct (keyFind label key) as [q|]; [|exact IH].
    destruct IH as (i & Hi & Hq). exists (S i). split; [|exact Hq].
    etrans; [exact Hi|lia].
Qed.

Lemma ColIdx_found label (key : PartitionKey) :
  (0 ≤ ColIdx label (Cols key))%Z →
  ∃ p, key !! Z.to_nat (ColIdx label (Cols key)) = Some p
       ∧ keyFind label key = Some p.
Proof.
  intros Hge. unfold ColIdx in *.
  pose proof (ColIdx_from_keyFind label key 0) as H.
  destruct (keyFind label key) as [p|].
  - destruct H as (i & Hi & Hp). exists p. split; [|done].
    rewrite Hi. by replace (Z.to_nat (0 + Z.of_nat i)) with i by lia.
  - lia.
Qed.

Lemma ColIdx_missing label (key : PartitionKey) :
  ¬ (0 ≤ ColIdx label (Cols key))%Z → keyFind label key = None.
Proof.
  intros Hlt. unfold ColIdx in *.
  pose proof (ColIdx_from_keyFind label key 0) as H.
  destruct (keyFind label key) as [p|]; [|done].
  destruct H as (i & Hi & _). lia.
Qed.

Lemma keyFind_Some label (key : PartitionKey) p :
  keyFind label key = Some p → p ∈ key ∧ Label p.1 = label.
Proof.
  unfold keyFind. intros H. apply find_some in H as [Hin Hb].
  apply bool_decide_eq_true in Hb. split; [|done].
  by apply list_elem_of_In.
Qed.

Lemma keyFind_None label (key : PartitionKey) :
  keyFind label key = None ↔ label ∉ Label <$> Cols key.
Proof.
  unfold keyFind, Cols. induction key as [|p key IH]; simpl.
  - split; [intros _; apply not_elem_of_nil|done].
  - rewrite (bool_decide_decide (Label p.1 = label)).
    destruct (decide (Label p.1 = label)) as [Heq|Hne]; simpl.
    + split; [done|]. intros Hn. exfalso. apply Hn. rewrite <- Heq. left.
    + rewrite IH, not_elem_of_cons.
      split; [intros ?; split; [congruence|done] | by intros [_ ?]].
Qed.

Lemma keyFind_unique (key : PartitionKey) p :
  NoDup (Label <$> Cols key) → p ∈ key → keyFind (Label p.1) key = Some p.
Proof.
  unfold keyFind, Cols. induction key as [|q key IH]; simpl.
  - intros _ Hin. by apply elem_of_nil in Hin.
  - rewrite NoDup_cons. intros [Hq Hnd] Hin.
    rewrite (bool_decide_decide (Label q.1 = Label p.1)).
    apply elem_of_cons in Hin as [->|Hin]; [by rewrite decide_True|].
    rewrite decide_False; [by apply IH|].
    intros Heq. apply Hq. rewrite Heq.
    apply list_elem_of_fmap. exists p.1. split; [done|].
    apply list_elem_of_fmap. by exists p.
Qed.

Lemma HasCol_spec (key : PartitionKey) label :
  HasCol key label = true ↔ label ∈ Label <$> Cols key.
Proof.
  unfold HasCol. rewrite bool_decide_eq_true. split.
  - intros Hge. apply ColIdx_found in Hge as (p & _ & Hp).
    destruct (decide (label ∈ Label <$> Cols key)) as [|Hn]; [done|].
    apply keyFind_None in Hn. congruence.
  - intros Hin.
    destruct (decide (0 ≤ ColIdx label (Cols key))%Z) as [|Hn]; [done|].
    apply ColIdx_missing, keyFind_None in Hn. done.
Qed.

Lemma ContainsStr_spec strs str :
  ContainsStr strs str = true ↔ str ∈ strs.
Proof.
  induction strs as [|s strs IH]; simpl.
  - split; [done|]. intros H. by apply elem_of_nil in H.
  - destruct (decide (s = str)) as [->|Hne].
    + split; [intros _; left|done].
    + rewrite IH, elem_of_cons.
      split; [by right | intros [?|?]; [congruence|done]].
Qed.

(** ** The two arrays of [sortedKey] *)

Lemma bufHolds_init n :
  bufHolds n [] (MkKeyBuf (replicate n zeroColMeta) (replicate n VNil) 0).
Proof. unfold bufHolds; simpl. by rewrite Nat.sub_0_r. Qed.

Lemma write_fill {A} (xs : list A) (z x : A) (n : nat) :
  length xs < n →
  write (xs ++ replicate (n - length xs) z) (length xs) x
  = Some ((xs ++ [x]) ++ replicate (n - length (xs ++ [x])) z).
Proof.
  intros Hlt. unfold write.
  rewrite decide_True by (rewrite length_app, length_replicate; lia).
  f_equal. rewrite insert_app_r_alt by lia.
  rewrite Nat.sub_diag, length_app; simpl.
  replace (n - length xs) with (S (n - (length xs + 1))) by lia.
  simpl. by rewrite <- app_assoc.
Qed.

Lemma put_holds n out buf c v :
  bufHolds n out buf → length out < n →
  ∃ buf', put buf c v = Some buf' ∧ bufHolds n (out ++ [(c, v)]) buf'.
Proof.
  intros (Hj & Hc & Hv) Hlt. unfold put. rewrite Hj, Hc, Hv.
  pose proof (write_fill (out.*1) zeroColMeta c n) as Wc.
  pose proof (write_fill (out.*2) VNil v n) as Wv.
  rewrite !length_fmap in *. rewrite Wc, Wv by done. simpl.
  eexists. split; [done|]. unfold bufHolds; simpl.
  rewrite !fmap_app, !length_app, !length_fmap; simpl.
  split_and!; [lia|done|done].
Qed.

Lemma put_full n out buf c v :
  bufHolds n out buf → n ≤ length out → put buf c v = None.
Proof.
  intros (Hj & Hc & Hv) Hge. unfold put, write. rewrite Hj, Hc.
  destruct (decide (length out < length (out.*1 ++ _))) as [Hd|]; [|done].
  rewrite length_app, length_fmap, length_replicate in Hd. lia.
Qed.

Local Arguments sortColsOfKey : simpl never.

Lemma sortColsOfKey_cons_Some l labels (key : PartitionKey) p :
  keyFind l key = Some p →
  sortColsOfKey (l :: labels) key = p :: sortColsOfKey labels key.
Proof. intros H. unfold sortColsOfKey. cbn. by rewrite H. Qed.

Lemma sortColsOfKey_cons_None l labels (key : PartitionKey) :
  keyFind l key = None →
  sortColsOfKey (l :: labels) key = sortColsOfKey labels key.
Proof. intros H. unfold sortColsOfKey. cbn. by rewrite H. Qed.

(** The first loop appends, in the order of the labels, the key columns the
    labels name. *)
Lemma sortedKey_labels_holds (key : PartitionKey) n labels :
  ∀ out buf,
    bufHolds n out buf →
    length out + length (sortColsOfKey labels key) ≤ n →
    ∃ buf', sortedKey_labels labels key buf = Some buf'
            ∧ bufHolds n (out ++ sortColsOfKey labels key) buf'.
Proof.
  induction labels as [|l labels IH]; intros out buf Hb Hlen.
  - exists buf. simpl. by rewrite app_nil_r.
  - simpl. destruct (decide (0 ≤ ColIdx l (Cols key))%Z) as [Hge|Hlt].
    + destruct (ColIdx_found _ _ Hge) as (p & Hp & Hf).
      rewrite (sortColsOfKey_cons_Some _ _ _ _ Hf) in *. simpl in Hlen.
      assert (Cols key !! Z.to_nat (ColIdx l (Cols key)) = Some p.1) as ->
        by (unfold Cols in *; by rewrite list_lookup_fmap, Hp).
      unfold KeyValue. rewrite Hp. simpl.
      destruct (put_holds n out buf p.1 p.2 Hb) as (buf1 & -> & Hb1); [lia|].
      simpl. rewrite <- surjective_pairing in Hb1.
      destruct (IH _ _ Hb1) as (buf' & Hrun & Hb').
      { rewrite length_app; simpl. lia. }
      exists buf'. split; [done|]. by rewrite <- app_assoc in Hb'.
    + rewrite (sortColsOfKey_cons_None _ _ _ (ColIdx_missing _ _ Hlt)) in *.
      by apply IH.
Qed.

(** The second loop appends, in key order, the key columns whose label is
    not a sort label. *)
Lemma sortedKey_rest_holds tcols (key : PartitionKey) n suffix :
  ∀ prefix out buf,
    key = prefix ++ suffix →
    bufHolds n out buf →
    length out + length (filter (λ p, Label p.1 ∉ tcols) suffix) ≤ n →
    ∃ buf', sortedKey_rest tcols (Cols suffix) (length prefix) key buf
            = Some buf'
            ∧ bufHolds n (out ++ filter (λ p, Label p.1 ∉ tcols) suffix)
                buf'.
Proof.
  induction suffix as [|p suffix IH]; intros prefix out buf Hkey Hb Hlen.
  - exists buf. simpl. by rewrite app_nil_r.
  - assert (Hkey' : key = (prefix ++ [p]) ++ suffix)
      by (by rewrite <- app_assoc).
    specialize (IH (prefix ++ [p])).
    rewrite length_app, Nat.add_1_r in IH.
    unfold Cols; simpl. fold (Cols suffix).
    destruct (ContainsStr tcols (Label p.1)) eqn:Hc.
    + apply ContainsStr_spec in Hc.
      rewrite filter_cons_False in * by (intros Hn; by apply Hn).
      by apply IH.
    + assert (Hn : Label p.1 ∉ tcols).
      { intros Hin. apply ContainsStr_spec in Hin. congruence. }
      rewrite filter_cons_True in * by done. simpl in Hlen.
      unfold KeyValue. rewrite Hkey, lookup_app_r, Nat.sub_diag by lia.
      simpl. rewrite <- Hkey.
      destruct (put_holds n out buf p.1 p.2 Hb) as (buf1 & -> & Hb1); [lia|].
      simpl. rewrite <- surjective_pairing in Hb1.
      destruct (IH _ _ Hkey' Hb1) as (buf' & Hrun & Hb').
      { rewrite length_app; simpl. lia. }
      exists buf'. split; [done|].
      by rewrite <- app_assoc in Hb'.
Qed.

(** Whenever the reordered key fits, [sortedKey] writes exactly it. *)
Lemma sortedKey_run_holds tcols (key : PartitionKey) :
  length (reorderedKey tcols key) ≤ length key →
  ∃ buf, sortedKey_run tcols key = Some buf
         ∧ bufHolds (length key) (reorderedKey tcols key) buf.
Proof.
  intros Hlen. unfold sortedKey_run, reorderedKey in *.
  rewrite length_app in Hlen.
  assert (length (Cols key) = length key) as ->
    by (unfold Cols; apply length_fmap).
  destruct (sortedKey_labels_holds key (length key) tcols [] _
              (bufHolds_init _)) as (buf1 & -> & Hb1); [simpl; lia|].
  simpl in *.
  destruct (sortedKey_rest_holds tcols key (length key) key [] _ buf1
              eq_refl Hb1) as (buf2 & Hrun & Hb2); [lia|].
  exists buf2. by split.
Qed.

Lemma bufHolds_key n out buf :
  bufHolds n out buf →
  NewPartitionKey (kb_cols buf) (kb_vs buf)
  = out ++ replicate (n - length out) (zeroColMeta, VNil).
Proof.
  intros (_ & -> & ->). unfold NewPartitionKey.
  rewrite zip_with_app by (by rewrite !length_fmap).
  rewrite zip_with_replicate. f_equal.
  by rewrite zip_fst_snd.
Qed.

(** ** Counting the slots *)

Lemma sortColsOfKey_elem (tcols : list string) (key : PartitionKey) p :
  p ∈ sortColsOfKey tcols key ↔ ∃ l, l ∈ tcols ∧ keyFind l key = Some p.
Proof. unfold sortColsOfKey. apply list_elem_of_omap. Qed.

Lemma sortColsOfKey_NoDup (tcols : list string) (key : PartitionKey) :
  NoDup tcols → NoDup (sortColsOfKey tcols key).
Proof.
  induction 1 as [|l tcols Hl Hnd IH]; [constructor|].
  destruct (keyFind l key) as [p|] eqn:Hf.
  - rewrite (sortColsOfKey_cons_Some _ _ _ _ Hf). constructor; [|done].
    intros Hin. apply sortColsOfKey_elem in Hin as (l' & Hl' & Hf').
    apply keyFind_Some in Hf as [_ <-]. apply keyFind_Some in Hf' as [_ <-].
    done.
  - by rewrite (sortColsOfKey_cons_None _ _ _ Hf).
Qed.

Lemma sortColsOfKey_sub (tcols : list string) (key : PartitionKey) p :
  p ∈ sortColsOfKey tcols key → p ∈ filter (λ p, Label p.1 ∈ tcols) key.
Proof.
  intros Hin. apply sortColsOfKey_elem in Hin as (l & Hl & Hf).
  apply keyFind_Some in Hf as [Hin <-]. by apply list_elem_of_filter.
Qed.

Lemma filter_labels_length (tcols : list string) (key : PartitionKey) :
  length (filter (λ p, Label p.1 ∈ tcols) key)
  + length (filter (λ p, Label p.1 ∉ tcols) key) = length key.
Proof.
  rewrite <- length_app.
  apply Permutation_length, (filter_app_complement (λ p, Label p.1 ∈ tcols)).
Qed.

(** With pairwise distinct sort labels the reordered key never needs more
    slots than the key has columns. *)
Lemma reorderedKey_length_le (tcols : list string) (key : PartitionKey) :
  NoDup tcols → length (reorderedKey tcols key) ≤ length key.
Proof.
  intros Hnd. unfold reorderedKey. rewrite length_app.
  rewrite <- (filter_labels_length tcols key).
  apply Nat.add_le_mono_r, submseteq_length, NoDup_submseteq.
  - by apply sortColsOfKey_NoDup.
  - intros p. apply sortColsOfKey_sub.
Qed.

(** With pairwise distinct key labels too, it is a rearrangement of the
    key. *)
Lemma reorderedKey_Permutation (tcols : list string) (key : PartitionKey) :
  NoDup tcols → NoDup (Label <$> Cols key) → reorderedKey tcols key ≡ₚ key.
Proof.
  intros Hnd Hkey. unfold reorderedKey.
  rewrite <- (filter_app_complement (λ p, Label p.1 ∈ tcols) key) at 3.
  apply Permutation_app_tail, NoDup_Permutation.
  - by apply sortColsOfKey_NoDup.
  - apply NoDup_filter. unfold Cols in Hkey.
    by apply NoDup_fmap_1, NoDup_fmap_1 in Hkey.
  - intros p. split; [apply sortColsOfKey_sub|].
    intros [Hl Hin]%list_elem_of_filter. apply sortColsOfKey_elem.
    exists (Label p.1). split; [done|]. by apply keyFind_unique.
Qed.

Lemma sortedKey_reorderedKey (tcols : list string) (key : PartitionKey) :
  NoDup tcols → NoDup (Label <$> Cols key) →
  sortedKey tcols key = Some (reorderedKey tcols key).
Proof.
  intros Hnd Hkey. unfold sortedKey.
  destruct (sortedKey_run_holds tcols key) as (buf & -> & Hb);
    [by apply reorderedKey_length_le|].
  simpl. f_equal. rewrite (bufHolds_key _ _ _ Hb).
  rewrite (Permutation_length (reorderedKey_Permutation _ _ Hnd Hkey)).
  by rewrite Nat.sub_diag, app_nil_r.
Qed.

(** ** The key that [Process] hands to the cache *)

Lemma processKey_shared labels tcols (key : PartitionKey) :
  (∃ l, l ∈ labels ∧ l ∈ Label <$> Cols key) →
  processKey labels tcols key = sortedKey tcols key.
Proof.
  induction labels as [|l labels IH]; intros (l' & Hin & Hk).
  - by apply elem_of_nil in Hin.
  - simpl. destruct (HasCol key l) eqn:Hc; [done|].
    apply IH. exists l'. split; [|done].
    apply elem_of_cons in Hin as [->|]; [|done].
    apply HasCol_spec in Hk. congruence.
Qed.

Lemma processKey_unshared labels tcols (key : PartitionKey) :
  (∀ l, l ∈ labels → l ∉ Label <$> Cols key) →
  processKey labels tcols key = Some key.
Proof.
  induction labels as [|l labels IH]; intros Hno; [done|].
  simpl. destruct (HasCol key l) eqn:Hc.
  - apply HasCol_spec in Hc. exfalso. apply (Hno l); [left|done].
  - apply IH. intros l' Hl'. apply Hno. by right.
Qed.

Lemma Process_passedKey {DS} h (t : sortTransformation DS) id b key :
  processKey (GoSlice.elems h (cols t)) (GoSlice.elems h (cols t)) (Key b)
  = Some key →
  passedKey (Process h t id b) = Some key.
Proof.
  intros Hk. unfold Process. rewrite Hk.
  destruct (CacheBlockBuilder (cache t) key) as [[builder created] cache1].
  destruct created; simpl; [|done].
  destruct (resizeColMap _ _); [|done].
  by destruct (AppendBlock _ _ _).
Qed.

(** ** Key reordering and passthrough *)

(** C1 (as amended): when the configured sort labels are pairwise distinct
    and the key's column labels are pairwise distinct, then for a block
    whose key shares a label with the sort columns, [sortedKey] returns, and
    [Process] hands to the builder cache, the key made of the sort columns
    that are key columns in configured order followed by the remaining key
    columns in their original order, each with its own value; that key is a
    rearrangement of the input key (nothing duplicated, nothing dropped). *)
Theorem Process_key_reorder {DS} h (t : sortTransformation DS) id b :
  let tcols := GoSlice.elems h (cols t) in
  NoDup tcols →
  NoDup (Label <$> Cols (Key b)) →
  (∃ label, label ∈ tcols ∧ label ∈ Label <$> Cols (Key b)) →
  sortedKey tcols (Key b) = Some (reorderedKey tcols (Key b))
  ∧ passedKey (Process h t id b) = Some (reorderedKey tcols (Key b))
  ∧ reorderedKey tcols (Key b) ≡ₚ Key b.
Proof.
  intros tcols Hnd Hkey Hshare.
  pose proof (sortedKey_reorderedKey tcols (Key b) Hnd Hkey) as Hs.
  split_and!; [done| |by apply reorderedKey_Permutation].
  apply Process_passedKey. fold tcols.
  by rewrite (processKey_shared _ _ _ Hshare).
Qed.

Lemma Process_key_reorder_witness :
  let tcols := GoSlice.elems Ex.heap (cols (Ex.node Ex.cols_bza false)) in
  let b := Ex.keyedBlock Ex.key_acb in
  tcols = ["b"; "z"; "a"]%string
  ∧ passedKey (Process Ex.heap (Ex.node Ex.cols_bza false) 0%N b)
    = Some [(Ex.colB, VString "q"); (Ex.colA, VInt 1); (Ex.colC, VInt 5)]
  ∧ reorderedKey tcols (Key b) ≡ₚ Key b.
Proof.
  intros tcols b. split; [reflexivity|].
  refine (let H := Process_key_reorder Ex.heap (Ex.node Ex.cols_bza false)
                     0%N b _ _ _ in conj (proj1 (proj2 H)) (proj2 (proj2 H))).
  - apply (bool_decide_unpack _). vm_compute. reflexivity.
  - apply (bool_decide_unpack _). vm_compute. reflexivity.
  - exists "a"%string. split; apply (bool_decide_unpack _); vm_compute;
      reflexivity.
Defined.

(** A sort list that names a key column twice makes [sortedKey] write past
    the end of its arrays, so [Process] panics before it reaches the cache;
    and in a key with a repeated label the second column of that label is
    dropped and its slot left zero. *)
Lemma repeated_labels_break_key_reorder :
  (let t := Ex.node Ex.cols_aa false in
   let b := Ex.keyedBlock Ex.key_a in
   (∃ label, label ∈ GoSlice.elems Ex.heap (cols t)
             ∧ label ∈ Label <$> Cols (Key b))
   ∧ sortedKey (GoSlice.elems Ex.heap (cols t)) (Key b) = None
   ∧ outcome (Process Ex.heap t 0%N b) = Panicked
   ∧ passedKey (Process Ex.heap t 0%N b) = None)
  ∧
  (let t := Ex.node Ex.cols_a false in
   let b := Ex.keyedBlock Ex.key_aa in
   (∃ label, label ∈ GoSlice.elems Ex.heap (cols t)
             ∧ label ∈ Label <$> Cols (Key b))
   ∧ passedKey (Process Ex.heap t 0%N b)
     = Some [(Ex.colA, VInt 1); (zeroColMeta, VNil)]
   ∧ ¬ [(Ex.colA, VInt 1); (zeroColMeta, VNil)] ≡ₚ Key b).
Proof.
  split; intros t b.
  - split_and!; [|reflexivity..].
    exists "a"%string. split; apply (bool_decide_unpack _); vm_compute;
      reflexivity.
  - split_and!; [|reflexivity|].
    + exists "a"%string. split; apply (bool_decide_unpack _); vm_compute;
        reflexivity.
    + intros Hp.
      assert (Hin : (Ex.colA', VString "x")
                    ∈ [(Ex.colA, VInt 1); (zeroColMeta, VNil)])
        by (rewrite Hp; apply (bool_decide_unpack _); vm_compute; reflexivity).
      revert Hin. apply (bool_decide_unpack _). vm_compute. reflexivity.
Qed.

(** C5: when no configured sort label is a column of the block's key,
    [Process] hands the block's own key to the builder cache: same columns,
    same order, same values. *)
Theorem Process_key_passthrough {DS} h (t : sortTransformation DS) id b :
  (∀ label, label ∈ GoSlice.elems h (cols t) →
            label ∉ Label <$> Cols (Key b)) →
  passedKey (Process h t id b) = Some (Key b).
Proof.
  intros Hno. apply Process_passedKey. by apply processKey_unshared.
Qed.

Lemma Process_key_passthrough_witness :
  passedKey (Process Ex.heap (Ex.node Ex.cols_x false) 0%N
               (Ex.keyedBlock Ex.key_acb))
  = Some Ex.key_acb.
Proof.
  apply (Process_key_passthrough Ex.heap (Ex.node Ex.cols_x false) 0%N
           (Ex.keyedBlock Ex.key_acb)).
  intros label Hl.
  assert (label = "x"%string) as ->.
  { revert Hl. change (GoSlice.elems _ _) with ["x"%string].
    intros Hl. by apply list_elem_of_singleton in Hl. }
  apply (bool_decide_unpack _). vm_compute. reflexivity.
Defined.

(** ** Array bounds in [sortedKey] *)

(** C9 (as amended): for every key and every sort list with pairwise
    distinct labels, every write of [sortedKey] into its two arrays (both of
    the length of the key) is in bounds and the final write index is at most
    the number of key columns; when the key's column labels are pairwise
    distinct as well, the final index equals the number of key columns and
    the returned key is fully populated. *)
Theorem sortedKey_writes_in_bounds (tcols : list string) (key : PartitionKey) :
  NoDup tcols →
  ∃ buf,
    sortedKey_run tcols key = Some buf
    ∧ length (kb_cols buf) = length (Cols key)
    ∧ length (kb_vs buf) = length (Cols key)
    ∧ kb_j buf ≤ length (Cols key)
    ∧ (NoDup (Label <$> Cols key) →
       kb_j buf = length (Cols key)
       ∧ NewPartitionKey (kb_cols buf) (kb_vs buf) = reorderedKey tcols key).
Proof.
  intros Hnd.
  pose proof (reorderedKey_length_le tcols key Hnd) as Hle.
  destruct (sortedKey_run_holds tcols key Hle) as (buf & Hrun & Hb).
  exists buf. pose proof Hb as (Hj & Hc & Hv).
  assert (length (Cols key) = length key) as ->
    by (unfold Cols; apply length_fmap).
  split_and!; [done| | |lia|].
  - rewrite Hc, length_app, length_fmap, length_replicate. lia.
  - rewrite Hv, length_app, length_fmap, length_replicate. lia.
  - intros Hkey.
    pose proof (Permutation_length (reorderedKey_Permutation _ _ Hnd Hkey))
      as Hlen.
    split; [lia|].
    rewrite (bufHolds_key _ _ _ Hb), Hlen, Nat.sub_diag. apply app_nil_r.
Qed.

Lemma sortedKey_writes_in_bounds_witness :
  NoDup ["b"; "z"; "a"]%string
  ∧ ∃ buf, sortedKey_run ["b"; "z"; "a"]%string Ex.key_acb = Some buf
           ∧ kb_j buf = 3
           ∧ NewPartitionKey (kb_cols buf) (kb_vs buf)
             = [(Ex.colB, VString "q"); (Ex.colA, VInt 1); (Ex.colC, VInt 5)].
Proof.
  assert (Hnd : NoDup ["b"; "z"; "a"]%string)
    by (apply (bool_decide_unpack _); vm_compute; reflexivity).
  assert (Hkey : NoDup (Label <$> Cols Ex.key_acb))
    by (apply (bool_decide_unpack _); vm_compute; reflexivity).
  split; [exact Hnd|].
  destruct (sortedKey_writes_in_bounds ["b"; "z"; "a"]%string Ex.key_acb Hnd)
    as (buf & Hrun & _ & _ & _ & Hfull).
  destruct (Hfull Hkey) as [Hj Hk].
  exists buf. split; [exact Hrun|]. split; [exact Hj|exact Hk].
Defined.

(** With the one sort label ["a"] and a key of two different columns that
    are both labelled ["a"], the run ends with write index 1, not 2: the
    second slot of the returned key is never written. *)
Lemma sortedKey_final_index_short_on_repeated_key_label :
  NoDup ["a"%string]
  ∧ length (Cols Ex.key_aa) = 2
  ∧ ¬ ∃ buf, sortedKey_run ["a"%string] Ex.key_aa = Some buf
             ∧ kb_j buf = length (Cols Ex.key_aa).
Proof.
  split_and!.
  - apply (bool_decide_unpack _). vm_compute. reflexivity.
  - reflexivity.
  - intros (buf & Hrun & Hj). vm_compute in Hrun.
    injection Hrun as <-. vm_compute in Hj. discriminate.
Qed.

(** ** The builder cache *)

Lemma lookupBuilder_app key (c1 c2 : BlockBuilderCache) :
  lookupBuilder key (c1 ++ c2)
  = match lookupBuilder key c1 with
    | Some b => Some b
    | None => lookupBuilder key c2
    end.
Proof.
  induction c1 as [|[k b] c1 IH]; simpl; [done|].
  by destruct (decide (k = key)).
Qed.

Lemma hasBuilder_store key k b (c : BlockBuilderCache) :
  hasBuilder key (storeBuilder k b c) ↔ hasBuilder key c.
Proof.
  unfold hasBuilder. induction c as [|[k' b'] c IH]; simpl; [done|].
  destruct (decide (k' = k)) as [->|Hne]; simpl.
  - destruct (decide (k = key)); [|done]. split; intros _; by eexists.
  - destruct (decide (k' = key)); [|done]. split; intros _; by eexists.
Qed.

Lemma CacheBlockBuilder_created (c : BlockBuilderCache) key builder c' :
  CacheBlockBuilder c key = (builder, true, c') →
  lookupBuilder key c = None ∧ c' = c ++ [(key, builder)].
Proof.
  unfold CacheBlockBuilder. destruct (lookupBuilder key c); [done|].
  intros [= <- <-]. done.
Qed.

Lemma CacheBlockBuilder_existing (c : BlockBuilderCache) key :
  hasBuilder key c → ∃ builder, CacheBlockBuilder c key = (builder, false, c).
Proof.
  intros [b Hb]. unfold CacheBlockBuilder. rewrite Hb. by exists b.
Qed.

Lemma hasBuilder_app_l key (c1 c2 : BlockBuilderCache) :
  hasBuilder key c1 → hasBuilder key (c1 ++ c2).
Proof.
  unfold hasBuilder. rewrite lookupBuilder_app. by intros [b ->].
Qed.

Lemma hasBuilder_app_new key b (c : BlockBuilderCache) :
  hasBuilder key (c ++ [(key, b)]).
Proof.
  unfold hasBuilder. rewrite lookupBuilder_app.
  destruct (lookupBuilder key c); [by eexists|].
  simpl. rewrite decide_True by done. by eexists.
Qed.

(** ** What [Process] leaves behind *)

Lemma Process_cols {DS} h (t : sortTransformation DS) id b :
  cols (final (Process h t id b)) = cols t.
Proof.
  unfold Process. destruct (processKey _ _ _); [|done].
  destruct (CacheBlockBuilder _ _) as [[builder created] cache1].
  destruct created; simpl; [|done].
  destruct (resizeColMap _ _); [|done].
  by destruct (AppendBlock _ _ _).
Qed.

Lemma processAll_cols {DS} h id bs : ∀ t : sortTransformation DS,
  cols (processAll h t id bs) = cols t.
Proof.
  unfold processAll. induction bs as [|b bs IH]; intros t; simpl; [done|].
  by rewrite IH, Process_cols.
Qed.

(** Builders are never removed by [Process]. *)
Lemma Process_keeps_builders {DS} h (t : sortTransformation DS) id b key :
  hasBuilder key (cache t) → hasBuilder key (cache (final (Process h t id b))).
Proof.
  intros Hhas. unfold Process. destruct (processKey _ _ _) as [k|]; [|done].
  destruct (CacheBlockBuilder _ _) as [[builder created] cache1] eqn:Hc.
  destruct created; simpl; [|done].
  apply CacheBlockBuilder_created in Hc as [_ ->].
  destruct (resizeColMap _ _); simpl;
    [destruct (AppendBlock _ _ _); simpl|];
    by apply hasBuilder_store, hasBuilder_app_l.
Qed.

Lemma processAll_keeps_builders {DS} h id bs key :
  ∀ t : sortTransformation DS,
    hasBuilder key (cache t) → hasBuilder key (cache (processAll h t id bs)).
Proof.
  unfold processAll. induction bs as [|b bs IH]; intros t Hhas; simpl; [done|].
  by apply IH, Process_keeps_builders.
Qed.

(** A run that reached the cache and did not fail on a duplicate has put a
    builder for the passed key into the cache. *)
Lemma Process_done_builder {DS} h (t : sortTransformation DS) id b key :
  outcome (Process h t id b) = Done →
  passedKey (Process h t id b) = Some key →
  hasBuilder key (cache (final (Process h t id b))).
Proof.
  unfold Process. destruct (processKey _ _ _) as [k|]; [|done].
  destruct (CacheBlockBuilder _ _) as [[builder created] cache1] eqn:Hc.
  destruct created; simpl; [|done].
  apply CacheBlockBuilder_created in Hc as [_ ->].
  destruct (resizeColMap _ _); simpl; [|done].
  destruct (AppendBlock _ _ _); simpl; [|done].
  intros _ [= ->]. apply hasBuilder_store, hasBuilder_app_new.
Qed.

Lemma passedKey_processKey {DS} h (t : sortTransformation DS) id b key :
  passedKey (Process h t id b) = Some key →
  processKey (GoSlice.elems h (cols t)) (GoSlice.elems h (cols t)) (Key b)
  = Some key.
Proof.
  unfold Process. destruct (processKey _ _ _) as [k|]; [|done].
  destruct (CacheBlockBuilder _ _) as [[builder created] cache1].
  destruct created; simpl; [|by intros [= ->]].
  destruct (resizeColMap _ _); simpl; [|by intros [= ->]].
  destruct (AppendBlock _ _ _); simpl; by intros [= ->].
Qed.

Lemma Process_existing_builder {DS} h (t : sortTransformation DS) id b key :
  processKey (GoSlice.elems h (cols t)) (GoSlice.elems h (cols t)) (Key b)
  = Some key →
  hasBuilder key (cache t) →
  Process h t id b
  = MkRun [CallBlockBuilder key] (Failed (ErrDuplicateBlock (Key b))) t.
Proof.
  intros Hk Hhas. unfold Process. rewrite Hk.
  destruct (CacheBlockBuilder_existing _ _ Hhas) as [builder ->]. done.
Qed.

(** ** Duplicate keys *)

(** C3: once a block has been processed to completion, a later block of the
    same stream whose key, as handed to the cache, equals the earlier one's
    makes [Process] return the duplicate-block error; that call makes no
    other collaborator call (no columns or rows are added, nothing is
    sorted) and leaves the node, its cache and builders as they were. *)
Theorem Process_duplicate_key {DS} h (t : sortTransformation DS) id
    b1 bs b2 key :
  outcome (Process h t id b1) = Done →
  passedKey (Process h t id b1) = Some key →
  let t' := processAll h (final (Process h t id b1)) id bs in
  passedKey (Process h t' id b2) = Some key →
  Process h t' id b2
  = MkRun [CallBlockBuilder key] (Failed (ErrDuplicateBlock (Key b2))) t'.
Proof.
  intros Hdone Hkey t' Hkey2.
  apply Process_existing_builder.
  - by apply (passedKey_processKey _ _ id).
  - by apply processAll_keeps_builders, Process_done_builder.
Qed.

Lemma Process_duplicate_key_witness :
  let t := Ex.node Ex.cols_bza false in
  let b := Ex.keyedBlock Ex.key_acb in
  let t' := processAll Ex.heap (final (Process Ex.heap t 0%N b)) 0%N
              [Ex.block_ab] in
  outcome (Process Ex.heap t 0%N b) = Done
  ∧ Process Ex.heap t' 0%N b
    = MkRun [CallBlockBuilder (reorderedKey ["b"; "z"; "a"]%string Ex.key_acb)]
            (Failed (ErrDuplicateBlock Ex.key_acb)) t'.
Proof.
  intros t b t'. split; [reflexivity|].
  apply (Process_duplicate_key Ex.heap t 0%N b [Ex.block_ab] b);
    reflexivity.
Defined.

(** ** The column-map buffer *)

Lemma fillIdentity_from (m : nat) : ∀ k : nat,
  fillIdentity (seq k m) (MkIntSlice (seq 0 k ++ replicate m 0) (k + m))
  = Some (MkIntSlice (seq 0 (k + m)) (k + m)).
Proof.
  induction m as [|m IH]; intros k; simpl.
  - by rewrite app_nil_r, Nat.add_0_r.
  - rewrite decide_True by lia.
    pose proof (write_fill (seq 0 k) 0 k (k + S m)) as W.
    rewrite length_seq in W.
    replace (k + S m - k) with (S m) in W by lia.
    simpl in W. rewrite W by lia. simpl.
    rewrite length_app, length_seq. simpl.
    replace (k + S m - (k + 1)) with m by lia.
    replace (seq 0 k ++ [k]) with (seq 0 (S k))
      by (by rewrite seq_S).
    replace (k + S m) with (S k + m) by lia.
    apply IH.
Qed.

(** Growing: a fresh array, initialised to the identity. *)
Lemma resizeColMap_grow (s : IntSlice) ncols :
  icap s < ncols →
  resizeColMap s ncols = Some (MkIntSlice (seq 0 ncols) ncols).
Proof.
  intros Hlt. unfold resizeColMap. rewrite decide_True by done.
  apply (fillIdentity_from ncols 0).
Qed.

(** Shrinking, or growing within the capacity: the same array, re-sliced. *)
Lemma resizeColMap_reslice (s : IntSlice) ncols :
  ncols ≤ icap s →
  resizeColMap s ncols = Some (MkIntSlice (ibacking s) ncols).
Proof.
  intros Hle. unfold resizeColMap, reslice.
  rewrite decide_False by lia. by rewrite decide_True.
Qed.

Lemma resizeColMap_identity (s : IntSlice) ncols :
  colMapIdentity s →
  ∃ s', resizeColMap s ncols = Some s'
        ∧ colMapIdentity s' ∧ ielems s' = seq 0 ncols.
Proof.
  intros Hid. destruct (decide (icap s < ncols)) as [Hlt|Hge].
  - eexists. split; [by apply resizeColMap_grow|].
    unfold colMapIdentity, ielems, icap; simpl.
    rewrite length_seq. split; [done|].
    apply take_ge. by rewrite length_seq.
  - eexists. split; [apply resizeColMap_reslice; lia|].
    unfold ielems; simpl. split; [done|].
    rewrite Hid, take_seq. f_equal. lia.
Qed.

Lemma Process_colMap_identity {DS} h (t : sortTransformation DS) id b :
  colMapIdentity (colMap t) →
  colMapIdentity (colMap (final (Process h t id b))).
Proof.
  intros Hid. unfold Process. destruct (processKey _ _ _) as [k|]; [|done].
  destruct (CacheBlockBuilder _ _) as [[builder created] cache1].
  destruct created; simpl; [|done].
  destruct (resizeColMap_identity (colMap t)
              (NCols (AddBlockCols b builder)) Hid) as (s' & -> & Hid' & _).
  by destruct (AppendBlock _ _ _).
Qed.

Lemma processAll_colMap_identity {DS} h id bs :
  ∀ t : sortTransformation DS,
    colMapIdentity (colMap t) →
    colMapIdentity (colMap (processAll h t id bs)).
Proof.
  unfold processAll. induction bs as [|b bs IH]; intros t Hid; simpl; [done|].
  by apply IH, Process_colMap_identity.
Qed.

Lemma AddBlockCols_NCols b builder :
  NCols (AddBlockCols b builder) = NCols builder + length (BlockCols b).
Proof.
  unfold AddBlockCols, NCols. revert builder.
  induction (BlockCols b) as [|c cs IH]; intros builder; simpl; [lia|].
  rewrite IH. simpl. rewrite length_app. simpl. lia.
Qed.

(** The one place where [Process] calls the row-append helper. *)
Lemma Process_append_call {DS} h (t : sortTransformation DS) id b
    b' ncols cm :
  CallAppendBlock b' ncols cm ∈ calls (Process h t id b) →
  ∃ s', resizeColMap (colMap t) (length (BlockCols b)) = Some s'
        ∧ b' = b ∧ ncols = length (BlockCols b) ∧ cm = ielems s'
        ∧ colMap (final (Process h t id b)) = s'.
Proof.
  unfold Process. destruct (processKey _ _ _) as [k|];
    [|by intros ?%elem_of_nil].
  destruct (CacheBlockBuilder _ _) as [[builder created] cache1] eqn:Hc.
  destruct created; simpl.
  2:{ intros Hin%list_elem_of_singleton. done. }
  assert (NCols (AddBlockCols b builder) = length (BlockCols b)) as ->.
  { rewrite AddBlockCols_NCols. unfold CacheBlockBuilder in Hc.
    destruct (lookupBuilder k _); [done|]. by injection Hc as <- _. }
  destruct (resizeColMap _ _) as [s'|]; simpl.
  2:{ rewrite !elem_of_cons. intros [?|[?|?%elem_of_nil]]; done. }
  destruct (AppendBlock _ _ _); simpl; rewrite !elem_of_cons;
    intros Hin; exists s'.
  - destruct Hin as [?|[?|[[= -> -> ->]|[?|?%elem_of_nil]]]]; done.
  - destruct Hin as [?|[?|[[= -> -> ->]|?%elem_of_nil]]]; done.
Qed.

(** C10: however many blocks, of whatever column counts, the node has
    processed since it was created, whenever [Process] calls the row-append
    helper the column map it passes is the identity [0, 1, ..., ncols-1] on
    the builder's column count (which is the block's); the buffer after the
    call is a freshly initialised array when the capacity was too small and
    the old array re-sliced otherwise. *)
Theorem Process_colMap_is_identity {DS} h (d : DS) cache spec id bs b
    b' ncols cm :
  let t := processAll h (NewSortTransformation d cache spec) id bs in
  CallAppendBlock b' ncols cm ∈ calls (Process h t id b) →
  b' = b
  ∧ ncols = length (BlockCols b)
  ∧ cm = seq 0 ncols
  ∧ (∀ j, j < ncols → cm !! j = Some j)
  ∧ (icap (colMap t) < ncols →
     colMap (final (Process h t id b)) = MkIntSlice (seq 0 ncols) ncols)
  ∧ (ncols ≤ icap (colMap t) →
     colMap (final (Process h t id b))
     = MkIntSlice (ibacking (colMap t)) ncols).
Proof.
  intros t Hin.
  assert (Hid : colMapIdentity (colMap t))
    by (by apply processAll_colMap_identity).
  apply Process_append_call in Hin as (s' & Hr & -> & -> & -> & ->).
  destruct (resizeColMap_identity (colMap t) (length (BlockCols b)) Hid)
    as (s'' & Hr' & _ & He).
  assert (s'' = s') as -> by congruence.
  rewrite He. split_and!; [done..| | |].
  - intros j Hj. by rewrite lookup_seq_lt.
  - intros Hlt. rewrite resizeColMap_grow in Hr by lia. congruence.
  - intros Hle. rewrite resizeColMap_reslice in Hr by lia. congruence.
Qed.

Lemma Process_colMap_is_identity_witness :
  let t := processAll Ex.heap
             (NewSortTransformation tt NewBlockBuilderCache
                (SortProcedureSpec.Mk Ex.cols_x false))
             0%N [Ex.block3; Ex.block1] in
  colMap t = MkIntSlice [0; 1; 2] 1
  ∧ CallAppendBlock Ex.block_ab 2 [0; 1]
    ∈ calls (Process Ex.heap t 0%N Ex.block_ab)
  ∧ colMap (final (Process Ex.heap t 0%N Ex.block_ab))
    = MkIntSlice [0; 1; 2] 2.
Proof.
  intros t.
  assert (Hin : CallAppendBlock Ex.block_ab 2 [0; 1]
                ∈ calls (Process Ex.heap t 0%N Ex.block_ab))
    by (apply (bool_decide_unpack _); vm_compute; reflexivity).
  split; [reflexivity|]. split; [exact Hin|].
  destruct (Process_colMap_is_identity Ex.heap tt NewBlockBuilderCache
              (SortProcedureSpec.Mk Ex.cols_x false) 0%N
              [Ex.block3; Ex.block1] Ex.block_ab _ _ _ Hin)
    as (_ & _ & _ & _ & _ & Hre).
  apply Hre. vm_compute. lia.
Defined.

(** ** Sorting the rows *)

Lemma compareValues_antisym v1 v2 :
  compareValues v2 v1 = CompOpp (compareValues v1 v2).
Proof.
  destruct v1, v2; simpl; try done.
  - by destruct b, b0.
  - apply Z.compare_antisym.
  - apply N.compare_antisym.
  - apply String.compare_antisym.
  - apply Z.compare_antisym.
Qed.

Lemma compareValues_refl v : compareValues v v = Eq.
Proof.
  pose proof (compareValues_antisym v v) as H.
  by destruct (compareValues v v).
Qed.

Lemma compareRows_antisym idxs r1 r2 :
  compareRows idxs r2 r1 = CompOpp (compareRows idxs r1 r2).
Proof.
  induction idxs as [|j idxs IH]; simpl; [done|].
  rewrite (compareValues_antisym (default VNil (r1 !! j))).
  by destruct (compareValues _ _).
Qed.

Lemma compareRows_tie idxs r1 r2 :
  sortKeyOf idxs r1 = sortKeyOf idxs r2 → compareRows idxs r1 r2 = Eq.
Proof.
  unfold sortKeyOf. induction idxs as [|j idxs IH]; simpl; [done|].
  intros [= -> Hrest]. rewrite compareValues_refl. by apply IH.
Qed.

Lemma rowLess_tie idxs desc r1 r2 :
  sortKeyOf idxs r1 = sortKeyOf idxs r2 → rowLess idxs desc r1 r2 = false.
Proof.
  intros H. unfold rowLess. rewrite (compareRows_tie _ _ _ H).
  by destruct desc.
Qed.

Lemma rowLess_asym idxs desc r1 r2 :
  rowLess idxs desc r1 r2 = true → rowLess idxs desc r2 r1 = false.
Proof.
  unfold rowLess. rewrite (compareRows_antisym idxs r1 r2).
  by destruct desc, (compareRows idxs r1 r2).
Qed.

(** Descending order is ascending order with the comparison turned
    around. *)
Lemma rowLess_desc idxs r1 r2 :
  rowLess idxs true r1 r2 = rowLess idxs false r2 r1.
Proof.
  unfold rowLess. rewrite (compareRows_antisym idxs r1 r2).
  by destruct (compareRows idxs r1 r2).
Qed.

Lemma insertRow_Permutation idxs desc r rows :
  insertRow idxs desc r rows ≡ₚ r :: rows.
Proof.
  induction rows as [|r' rows IH]; simpl; [done|].
  destruct (rowLess idxs desc r' r); [|done].
  rewrite IH. apply Permutation_swap.
Qed.

Lemma sortRows_Permutation idxs desc rows :
  sortRows idxs desc rows ≡ₚ rows.
Proof.
  unfold sortRows. induction rows as [|r rows IH]; simpl; [done|].
  by rewrite insertRow_Permutation, IH.
Qed.

(** Insertion never moves a row past a row it ties with. *)
Lemma insertRow_stable idxs desc k r rows :
  filter (λ r', sortKeyOf idxs r' = k) (insertRow idxs desc r rows)
  = filter (λ r', sortKeyOf idxs r' = k) (r :: rows).
Proof.
  induction rows as [|r' rows IH]; simpl; [done|].
  destruct (rowLess idxs desc r' r) eqn:Hless; [|done].
  rewrite filter_cons, IH, !filter_cons.
  destruct (decide (sortKeyOf idxs r' = k)) as [Hr'|]; [|done].
  destruct (decide (sortKeyOf idxs r = k)) as [Hr|]; [|done].
  rewrite rowLess_tie in Hless by congruence. done.
Qed.

Lemma sortRows_stable idxs desc k rows :
  filter (λ r, sortKeyOf idxs r = k) (sortRows idxs desc rows)
  = filter (λ r, sortKeyOf idxs r = k) rows.
Proof.
  unfold sortRows. induction rows as [|r rows IH]; simpl; [done|].
  rewrite insertRow_stable, !filter_cons, IH. done.
Qed.

Lemma insertRow_HdRel idxs desc a r rows :
  rowLess idxs desc r a = false →
  HdRel (λ x y, rowLess idxs desc y x = false) a rows →
  HdRel (λ x y, rowLess idxs desc y x = false) a (insertRow idxs desc r rows).
Proof.
  intros Hr Hhd. destruct rows as [|r' rows]; simpl; [by constructor|].
  destruct (rowLess idxs desc r' r); constructor; [|done].
  by inversion Hhd.
Qed.

Lemma insertRow_Sorted idxs desc r rows :
  Sorted (λ x y, rowLess idxs desc y x = false) rows →
  Sorted (λ x y, rowLess idxs desc y x = false) (insertRow idxs desc r rows).
Proof.
  induction 1 as [|r' rows Hs IH Hhd]; simpl; [by repeat constructor|].
  destruct (rowLess idxs desc r' r) eqn:Hless.
  - constructor; [done|]. apply insertRow_HdRel; [|done].
    by apply rowLess_asym.
  - constructor; [by constructor|]. by constructor.
Qed.

(** No row of the result is strictly before its predecessor. *)
Lemma sortRows_Sorted idxs desc rows :
  Sorted (λ x y, rowLess idxs desc y x = false) (sortRows idxs desc rows).
Proof.
  unfold sortRows. induction rows as [|r rows IH]; simpl; [constructor|].
  by apply insertRow_Sorted.
Qed.

(** ** Rows and columns of a builder *)

Lemma row_rebuild (r : list Value) m :
  length r = m → (λ j, default VNil (r !! j)) <$> seq 0 m = r.
Proof.
  intros Hlen. apply list_eq. intros j. rewrite list_lookup_fmap.
  destruct (decide (j < m)) as [Hj|Hj].
  - rewrite lookup_seq_lt by done. simpl.
    destruct (lookup_lt_is_Some_2 r j) as [x Hx]; [lia|]. by rewrite Hx.
  - rewrite lookup_seq_ge by lia. simpl. symmetry.
    apply lookup_ge_None_2. lia.
Qed.

Lemma rowsOf_lengths (data : list (list Value)) :
  Forall (λ r, length r = length data) (rowsOf data).
Proof.
  unfold rowsOf. apply Forall_fmap, Forall_forall. intros i _. simpl.
  apply length_fmap.
Qed.

Lemma NRows_colsOf m (rows : list (list Value)) :
  0 < m → NRows (colsOf m rows) = length rows.
Proof.
  intros Hm. destruct m as [|m]; [lia|]. unfold colsOf. simpl.
  apply length_fmap.
Qed.

(** Turning rows of equal width into columns and back gives the rows. *)
Lemma rowsOf_colsOf m (rows : list (list Value)) :
  0 < m → Forall (λ r, length r = m) rows → rowsOf (colsOf m rows) = rows.
Proof.
  intros Hm Hrows. unfold rowsOf. rewrite NRows_colsOf by done.
  apply list_eq. intros i. rewrite list_lookup_fmap.
  destruct (decide (i < length rows)) as [Hi|Hi].
  - rewrite lookup_seq_lt by done. simpl.
    destruct (lookup_lt_is_Some_2 rows i Hi) as [r Hr]. rewrite Hr. f_equal.
    unfold colsOf. rewrite <- list_fmap_compose.
    etrans; [|apply (row_rebuild r m),
                (Forall_lookup_1 _ _ _ _ Hrows Hr)].
    apply list_fmap_ext. intros _ j _. simpl.
    by rewrite list_lookup_fmap, Hr.
  - rewrite lookup_seq_ge by lia. simpl. symmetry.
    apply lookup_ge_None_2. lia.
Qed.

(** The rows of a sorted builder are the sorted rows of the builder. *)
Lemma builderRows_Sort cols desc builder :
  builderRows (Sort cols desc builder)
  = sortRows (sortIdxs cols (bCols builder)) desc (builderRows builder).
Proof.
  unfold Sort, builderRows. cbn [bData bCols].
  set (idxs := sortIdxs cols (bCols builder)).
  destruct (bData builder) as [|c data]; [done|].
  apply rowsOf_colsOf; [simpl; lia|].
  rewrite sortRows_Permutation. apply rowsOf_lengths.
Qed.

(** ** Slices and the heap *)

Lemma elems_lit (xs : list string) (h : Heap) :
  GoSlice.elems (GoSlice.lit xs h).2 (GoSlice.lit xs h).1 = xs.
Proof.
  unfold GoSlice.lit, GoSlice.elems, GoSlice.backing; simpl.
  rewrite lookup_app_r, Nat.sub_diag by lia. simpl.
  by rewrite take_ge.
Qed.

(** Allocation leaves the elements of every valid slice as they were. *)
Lemma elems_alloc (h : Heap) (a : list string) (s : Slice) :
  GoSlice.valid h s → GoSlice.elems (h ++ [a]) s = GoSlice.elems h s.
Proof.
  intros [Hlen [Hcap|(a' & Ha & _)]]; unfold GoSlice.elems, GoSlice.backing.
  - replace (GoSlice.len s) with 0 by lia. done.
  - by rewrite (lookup_app_l_Some _ _ _ _ Ha), Ha.
Qed.

Lemma valid_alloc (h : Heap) (a : list string) (s : Slice) :
  GoSlice.valid h s → GoSlice.valid (h ++ [a]) s.
Proof.
  intros [Hlen [Hcap|(a' & Ha & Hin)]]; split; [done|by left|done|].
  right. exists a'. by rewrite (lookup_app_l_Some _ _ _ _ Ha).
Qed.

(** A write through one slice is seen by a slice over another array not at
    all. *)
Lemma elems_set_other (h h' : Heap) (s s' : Slice) i v :
  GoSlice.base s ≠ GoSlice.base s' →
  GoSlice.set h s i v = Some h' →
  GoSlice.elems h' s' = GoSlice.elems h s'.
Proof.
  intros Hne. unfold GoSlice.set. case_decide; [|done]. intros [= <-].
  unfold GoSlice.elems, GoSlice.backing.
  by rewrite list_lookup_alter_ne.
Qed.

(** A write through a slice is seen by that slice, at that index. *)
Lemma elems_set_same (h h' : Heap) (s : Slice) i v :
  GoSlice.set h s i v = Some h' →
  GoSlice.elems h' s = <[i := v]> (GoSlice.elems h s).
Proof.
  unfold GoSlice.set. case_decide as Hi; [|done]. intros [= <-].
  unfold GoSlice.elems, GoSlice.backing.
  rewrite list_lookup_alter_eq. destruct (h !! GoSlice.base s) as [a|]; simpl.
  - rewrite drop_insert_ge by lia.
    replace (GoSlice.off s + i - GoSlice.off s) with i by lia.
    by rewrite take_insert_lt.
  - by rewrite drop_nil, take_nil.
Qed.

Lemma set_in_range (h : Heap) (s : Slice) i v :
  i < GoSlice.len s → is_Some (GoSlice.set h s i v).
Proof. intros Hi. unfold GoSlice.set. rewrite decide_True by done. by eexists. Qed.

(** ** Copying a procedure specification *)

Lemma Copy_eq (s : SortProcedureSpec.t) (h : Heap) :
  let n := GoSlice.len (SortProcedureSpec.Cols s) in
  Copy s h
  = (ProcSort (SortProcedureSpec.Mk (GoSlice.MkSlice (length h) 0 n n)
                 (SortProcedureSpec.Desc s)),
     h ++ [take n (GoSlice.elems (h ++ [replicate n ""%string])
                     (SortProcedureSpec.Cols s))
           ++ drop n (replicate n ""%string)]).
Proof.
  intros n. unfold Copy, GoSlice.make, GoSlice.copy. simpl. fold n.
  rewrite Nat.min_id. do 2 f_equal.
  apply list_eq. intros j. rewrite list_lookup_alter.
  destruct (decide (length h = j)) as [<-|Hne].
  - by rewrite !lookup_app_r, Nat.sub_diag by lia.
  - destruct (decide (j < length h)).
    + by rewrite !lookup_app_l by lia.
    + rewrite !lookup_ge_None_2; [done|rewrite length_app; simpl; lia..].
Qed.

(** C7: for a specification whose column slice is valid in the heap,
    [Copy] returns a specification with the same column list and the same
    direction, and leaves the original's list as it was; the copy's list is
    stored apart from the original's: every in-range element of either list
    can be overwritten, the write shows in the list written to, and the
    other list is unchanged. *)
Theorem Copy_independent (s : SortProcedureSpec.t) (h : Heap) :
  GoSlice.valid h (SortProcedureSpec.Cols s) →
  ∃ ns h',
    Copy s h = (ProcSort ns, h')
    ∧ GoSlice.elems h' (SortProcedureSpec.Cols ns)
      = GoSlice.elems h (SortProcedureSpec.Cols s)
    ∧ SortProcedureSpec.Desc ns = SortProcedureSpec.Desc s
    ∧ GoSlice.elems h' (SortProcedureSpec.Cols s)
      = GoSlice.elems h (SortProcedureSpec.Cols s)
    ∧ GoSlice.valid h' (SortProcedureSpec.Cols ns)
    ∧ (∀ i v, i < length (GoSlice.elems h' (SortProcedureSpec.Cols ns)) →
         ∃ h'', GoSlice.set h' (SortProcedureSpec.Cols ns) i v = Some h''
           ∧ GoSlice.elems h'' (SortProcedureSpec.Cols ns)
             = <[i := v]> (GoSlice.elems h' (SortProcedureSpec.Cols ns))
           ∧ GoSlice.elems h'' (SortProcedureSpec.Cols s)
             = GoSlice.elems h' (SortProcedureSpec.Cols s))
    ∧ (∀ i v, i < length (GoSlice.elems h' (SortProcedureSpec.Cols s)) →
         ∃ h'', GoSlice.set h' (SortProcedureSpec.Cols s) i v = Some h''
           ∧ GoSlice.elems h'' (SortProcedureSpec.Cols s)
             = <[i := v]> (GoSlice.elems h' (SortProcedureSpec.Cols s))
           ∧ GoSlice.elems h'' (SortProcedureSpec.Cols ns)
             = GoSlice.elems h' (SortProcedureSpec.Cols ns)).
Proof.
  intros Hv. pose proof (Copy_eq s h) as Hc. simpl in Hc.
  set (n := GoSlice.len (SortProcedureSpec.Cols s)) in *.
  set (ns := SortProcedureSpec.Mk (GoSlice.MkSlice (length h) 0 n n)
               (SortProcedureSpec.Desc s)) in *.
  rewrite (elems_alloc _ _ _ Hv) in Hc.
  rewrite drop_ge, app_nil_r in Hc by (by rewrite length_replicate).
  assert (Htake : take n (GoSlice.elems h (SortProcedureSpec.Cols s))
                  = GoSlice.elems h (SortProcedureSpec.Cols s))
    by (apply take_ge; unfold GoSlice.elems; rewrite length_take; lia).
  rewrite Htake in Hc.
  set (h' := h ++ [GoSlice.elems h (SortProcedureSpec.Cols s)]) in *.
  assert (Hns : GoSlice.elems h' (SortProcedureSpec.Cols ns)
                = GoSlice.elems h (SortProcedureSpec.Cols s)).
  { unfold h', GoSlice.elems at 1, GoSlice.backing; simpl.
    rewrite lookup_app_r, Nat.sub_diag by lia. simpl.
    exact Htake. }
  assert (Hs : GoSlice.elems h' (SortProcedureSpec.Cols s)
               = GoSlice.elems h (SortProcedureSpec.Cols s))
    by (by apply elems_alloc).
  assert (Hlen : length (GoSlice.elems h (SortProcedureSpec.Cols s)) ≤ n)
    by (unfold GoSlice.elems; rewrite length_take; fold n; lia).
  assert (Hbase : n ≠ 0 → GoSlice.base (SortProcedureSpec.Cols s) ≠ length h).
  { intros Hn. destruct Hv as [Hle [Hcap|(a & Ha & _)]]; [fold n in Hle; lia|].
    apply lookup_lt_Some in Ha. lia. }
  exists ns, h'. split_and!; [done..| | |].
  - split; [done|]. simpl.
    destruct (decide (n = 0)) as [Hn|Hn]; [by left|right].
    exists (GoSlice.elems h (SortProcedureSpec.Cols s)).
    unfold h'. rewrite lookup_app_r, Nat.sub_diag by lia.
    split; [done|]. simpl.
    unfold GoSlice.elems. rewrite length_take. fold n.
    destruct Hv as [Hle [Hcap|(a & Ha & Hin)]]; [fold n in Hle; lia|].
    unfold GoSlice.backing. rewrite Ha. simpl. rewrite length_drop.
    fold n in Hle. lia.
  - intros i v Hi. rewrite Hns in Hi.
    destruct (set_in_range h' (SortProcedureSpec.Cols ns) i v) as [h'' Hset];
      [simpl; lia|].
    exists h''. split_and!; [done|by apply elems_set_same|].
    apply (elems_set_other h' h'' (SortProcedureSpec.Cols ns) _ i v);
      [|done]. simpl. intros Heq. apply Hbase; [lia|done].
  - intros i v Hi. rewrite Hs in Hi.
    destruct (set_in_range h' (SortProcedureSpec.Cols s) i v) as [h'' Hset];
      [fold n; lia|].
    exists h''. split_and!; [done|by apply elems_set_same|].
    apply (elems_set_other h' h'' (SortProcedureSpec.Cols s) _ i v);
      [|done]. simpl. apply Hbase. lia.
Qed.

Lemma Copy_independent_witness :
  let s := SortProcedureSpec.Mk Ex.cols_bza true in
  GoSlice.valid Ex.heap (SortProcedureSpec.Cols s)
  ∧ ∃ ns h',
      Copy s Ex.heap = (ProcSort ns, h')
      ∧ GoSlice.elems h' (SortProcedureSpec.Cols ns) = ["b"; "z"; "a"]%string
      ∧ SortProcedureSpec.Desc ns = true.
Proof.
  intros s.
  assert (Hv : GoSlice.valid Ex.heap (SortProcedureSpec.Cols s)).
  { split; [simpl; lia|]. right. exists ["b"; "z"; "a"]%string.
    split; [reflexivity|simpl; lia]. }
  split; [exact Hv|].
  destruct (Copy_independent s Ex.heap Hv) as (ns & h' & Hc & He & Hd & _).
  exists ns, h'. split; [exact Hc|]. split; [exact He|exact Hd].
Defined.

(** ** Deriving the procedure specification *)

(** C8 (as amended): [newSortProcedure] returns the "invalid spec type"
    error exactly when its argument is not of the concrete type of the sort
    operation specification; it succeeds exactly on a non-nil
    specification of that type and panics exactly on the nil pointer of
    that type; when it succeeds it returns a sort procedure specification
    that has the same column slice, hence the same column list in every
    heap, and the same direction. *)
Theorem newSortProcedure_spec {PA} (qs : OperationSpec) (pa : PA) :
  ((∃ typ, newSortProcedure qs pa = Some (Err (ErrInvalidSpecType typ)))
   ↔ ¬ (qs = OpSortNil ∨ ∃ s, qs = OpSort s))
  ∧ ((∃ ps, newSortProcedure qs pa = Some (Ok ps)) ↔ ∃ s, qs = OpSort s)
  ∧ (newSortProcedure qs pa = None ↔ qs = OpSortNil)
  ∧ ∀ s, qs = OpSort s →
      ∃ ps, newSortProcedure qs pa = Some (Ok (ProcSort ps))
            ∧ SortProcedureSpec.Cols ps = SortOpSpec.Cols s
            ∧ (∀ h : Heap, GoSlice.elems h (SortProcedureSpec.Cols ps)
                           = GoSlice.elems h (SortOpSpec.Cols s))
            ∧ SortProcedureSpec.Desc ps = SortOpSpec.Desc s.
Proof.
  split_and!.
  - destruct qs as [s| |typ kind|]; simpl.
    + split; [by intros [typ ?]|]. intros Hn. exfalso. apply Hn.
      right. by exists s.
    + split; [by intros [typ ?]|]. intros Hn. exfalso. apply Hn. by left.
    + split; [|intros _; by eexists]. by intros _ [?|[s ?]].
    + split; [|intros _; by eexists]. by intros _ [?|[s ?]].
  - destruct qs as [s| |typ kind|]; simpl.
    + split; intros _; by eexists.
    + split; [by intros [ps ?]|by intros [s ?]].
    + split; [by intros [ps ?]|by intros [s ?]].
    + split; [by intros [ps ?]|by intros [s ?]].
  - by destruct qs as [s| |typ kind|].
  - intros s ->. simpl. eexists. split; [done|]. by split_and!.
Qed.

Lemma newSortProcedure_spec_witness :
  let s := SortOpSpec.Mk Ex.cols_bza true in
  ∃ ps, newSortProcedure (OpSort s) tt = Some (Ok (ProcSort ps))
        ∧ SortProcedureSpec.Cols ps = Ex.cols_bza
        ∧ SortProcedureSpec.Desc ps = true.
Proof.
  intros s.
  destruct (proj2 (proj2 (proj2 (newSortProcedure_spec (OpSort s) tt)))
              s eq_refl)
    as (ps & Hok & Hcols & _ & Hdesc).
  exists ps. split; [exact Hok|]. split; [exact Hcols|exact Hdesc].
Defined.

(** The nil pointer of type [*SortOpSpec] is of the matching concrete type:
    the type assertion succeeds on it and no "invalid spec type" error is
    returned. Yet the call does not succeed: reading [spec.Cols] through the
    nil pointer panics. *)
Lemma nil_sort_spec_passes_assertion_and_panics :
  opTypeName OpSortNil = opTypeName (OpSort (SortOpSpec.Mk GoSlice.nil false))
  ∧ asSortOpSpec OpSortNil = Some None
  ∧ newSortProcedure OpSortNil tt = None
  ∧ ¬ (∃ e, newSortProcedure OpSortNil tt = Some (Err e))
  ∧ ¬ (∃ ps, newSortProcedure OpSortNil tt = Some (Ok ps)).
Proof.
  split_and!; [reflexivity..| |]; by intros [? ?].
Qed.

(** ** Building the operation specification *)

(** C4: when the arguments have neither ["cols"] nor ["desc"] and the
    parents resolve, [createSortOpSpec] succeeds with a sort specification
    whose column list is the single default value-column label and whose
    direction is ascending. *)
Theorem createSortOpSpec_defaults {Administration : Type}
    (AddParentFromArgs :
       Arguments_ → Administration → option error * Administration)
    (DefaultValueColLabel : string)
    (args : Arguments_) (a a' : Administration) (h : Heap) :
  args !! "cols"%string = None →
  args !! "desc"%string = None →
  AddParentFromArgs args a = (None, a') →
  ∃ spec h',
    createSortOpSpec AddParentFromArgs DefaultValueColLabel args a h
    = (Ok (OpSort spec), a', h')
    ∧ GoSlice.elems h' (SortOpSpec.Cols spec) = [DefaultValueColLabel]
    ∧ SortOpSpec.Desc spec = false.
Proof.
  intros Hcols Hdesc Hparent.
  unfold createSortOpSpec, GetArray, GetBool.
  rewrite Hparent, Hcols, Hdesc.
  pose proof (elems_lit [DefaultValueColLabel] h) as Hl.
  destruct (GoSlice.lit [DefaultValueColLabel] h) as [s h'].
  by exists (SortOpSpec.Mk s false), h'.
Qed.

Lemma createSortOpSpec_defaults_witness :
  let addParent := λ (_ : Arguments_) (a : unit), (@None error, a) in
  ∃ spec h',
    createSortOpSpec addParent "_value"%string ∅ tt []
    = (Ok (OpSort spec), tt, h')
    ∧ GoSlice.elems h' (SortOpSpec.Cols spec) = ["_value"%string]
    ∧ SortOpSpec.Desc spec = false.
Proof.
  intros addParent.
  apply (createSortOpSpec_defaults addParent "_value"%string ∅ tt tt []);
    reflexivity.
Defined.

(** ** Lifecycle calls *)

(** C6: a RetractBlock, UpdateWatermark, UpdateProcessingTime or Finish call
    on the node makes exactly one call on its dataset, the corresponding one
    with the same argument (for RetractBlock the key as given), returns what
    that call returns, and changes nothing else in the node: over any
    dataset that records the calls made on it, the record grows by that one
    call and the dataset and cache are left as the call left them. *)
Theorem lifecycle_forwarding {DS} `{Dataset DS}
    (t : sortTransformation (list DatasetCall * DS))
    (id : DatasetID) (key : PartitionKey) (mark pt : Time)
    (err : option error) :
  let st := ((d t).2, cache t) in
  let after (c : DatasetCall) (dc : DS * BlockBuilderCache) :=
    MkSortTransformation ((d t).1 ++ [c], dc.1) dc.2
      (cols t) (desc t) (colMap t) in
  RetractBlock t id key
  = ((dsRetractBlock key st).1,
     after (DRetractBlock key) (dsRetractBlock key st).2)
  ∧ UpdateWatermark t id mark
    = ((dsUpdateWatermark mark st).1,
       after (DUpdateWatermark mark) (dsUpdateWatermark mark st).2)
  ∧ UpdateProcessingTime t id pt
    = ((dsUpdateProcessingTime pt st).1,
       after (DUpdateProcessingTime pt) (dsUpdateProcessingTime pt st).2)
  ∧ Finish t id err = after (DFinish err) (dsFinish err st).
Proof.
  intros st after. subst st after.
  unfold RetractBlock, UpdateWatermark, UpdateProcessingTime, Finish,
    withDataset; simpl; unfold logged; simpl.
  split_and!.
  - by destruct (dsRetractBlock key _) as [r [ds c]].
  - by destruct (dsUpdateWatermark mark _) as [r [ds c]].
  - by destruct (dsUpdateProcessingTime pt _) as [r [ds c]].
  - by destruct (dsFinish err _) as [ds c].
Qed.

Lemma lifecycle_forwarding_witness :
  let t : sortTransformation (list DatasetCall * nat) :=
    NewSortTransformation ([], 0) NewBlockBuilderCache
      (SortProcedureSpec.Mk Ex.cols_bza false) in
  d (RetractBlock t 0%N Ex.key_acb).2 = ([DRetractBlock Ex.key_acb], 1)
  ∧ (UpdateWatermark t 0%N 42%Z).1 = None
  ∧ d (Finish t 0%N None) = ([DFinish None], 1).
Proof.
  intros t.
  destruct (lifecycle_forwarding t 0%N Ex.key_acb 42%Z 0%Z None)
    as (Hr & Hw & _ & Hf).
  rewrite Hr, Hw, Hf. split; [reflexivity|]. split; reflexivity.
Defined.

(** * Further properties *)

(** ** When [sortedKey] runs out of slots *)

Lemma sortedKey_labels_overflow (key : PartitionKey) n labels :
  ∀ out buf,
    bufHolds n out buf →
    length out ≤ n →
    n < length out + length (sortColsOfKey labels key) →
    sortedKey_labels labels key buf = None.
Proof.
  induction labels as [|l labels IH]; intros out buf Hb Hle Hlen.
  - unfold sortColsOfKey in Hlen. simpl in Hlen. lia.
  - simpl. destruct (decide (0 ≤ ColIdx l (Cols key))%Z) as [Hge|Hlt].
    + destruct (ColIdx_found _ _ Hge) as (p & Hp & Hf).
      rewrite (sortColsOfKey_cons_Some _ _ _ _ Hf) in Hlen. simpl in Hlen.
      assert (Cols key !! Z.to_nat (ColIdx l (Cols key)) = Some p.1) as ->
        by (unfold Cols in *; by rewrite list_lookup_fmap, Hp).
      unfold KeyValue. rewrite Hp. simpl.
      destruct (decide (length out < n)) as [Hlt|Hfull].
      * destruct (put_holds n out buf p.1 p.2 Hb Hlt) as (buf1 & -> & Hb1).
        simpl. rewrite <- surjective_pairing in Hb1.
        apply (IH _ _ Hb1); rewrite length_app; simpl; lia.
      * rewrite (put_full n out buf p.1 p.2 Hb) by lia. done.
    + rewrite (sortColsOfKey_cons_None _ _ _ (ColIdx_missing _ _ Hlt)) in Hlen.
      by apply (IH out).
Qed.

Lemma sortedKey_rest_overflow tcols (key : PartitionKey) n suffix :
  ∀ prefix out buf,
    key = prefix ++ suffix →
    bufHolds n out buf →
    length out ≤ n →
    n < length out + length (filter (λ p, Label p.1 ∉ tcols) suffix) →
    sortedKey_rest tcols (Cols suffix) (length prefix) key buf = None.
Proof.
  induction suffix as [|p suffix IH]; intros prefix out buf Hkey Hb Hle Hlen.
  - simpl in Hlen. lia.
  - assert (Hkey' : key = (prefix ++ [p]) ++ suffix)
      by (by rewrite <- app_assoc).
    specialize (IH (prefix ++ [p])).
    rewrite length_app, Nat.add_1_r in IH.
    unfold Cols; simpl. fold (Cols suffix).
    destruct (ContainsStr tcols (Label p.1)) eqn:Hc.
    + apply ContainsStr_spec in Hc.
      rewrite filter_cons_False in Hlen by (intros Hn; by apply Hn).
      by apply (IH out).
    + assert (Hn : Label p.1 ∉ tcols).
      { intros Hin. apply ContainsStr_spec in Hin. congruence. }
      rewrite filter_cons_True in Hlen by done. simpl in Hlen.
      unfold KeyValue. rewrite Hkey, lookup_app_r, Nat.sub_diag by lia.
      simpl. rewrite <- Hkey.
      destruct (decide (length out < n)) as [Hlt|Hfull].
      * destruct (put_holds n out buf p.1 p.2 Hb Hlt) as (buf1 & -> & Hb1).
        simpl. rewrite <- surjective_pairing in Hb1.
        apply (IH _ _ Hkey' Hb1); rewrite length_app; simpl; lia.
      * rewrite (put_full n out buf p.1 p.2 Hb) by lia. done.
Qed.

Lemma sortedKey_run_overflow (tcols : list string) (key : PartitionKey) :
  length key < length (reorderedKey tcols key) →
  sortedKey_run tcols key = None.
Proof.
  intros Hlen. unfold sortedKey_run, reorderedKey in *.
  rewrite length_app in Hlen.
  assert (length (Cols key) = length key) as ->
    by (unfold Cols; apply length_fmap).
  destruct (decide (length (sortColsOfKey tcols key) ≤ length key))
    as [Hfit|Hover].
  - destruct (sortedKey_labels_holds key (length key) tcols [] _
                (bufHolds_init _)) as (buf1 & -> & Hb1); [simpl; lia|].
    simpl in *.
    apply (sortedKey_rest_overflow tcols key (length key) key [] _ buf1
             eq_refl Hb1); lia.
  - rewrite (sortedKey_labels_overflow key (length key) tcols [] _
               (bufHolds_init _)); [done|simpl; lia..].
Qed.

Lemma sortedKey_fits (tcols : list string) (key : PartitionKey) :
  length (reorderedKey tcols key) ≤ length key →
  sortedKey tcols key
  = Some (reorderedKey tcols key
          ++ replicate (length key - length (reorderedKey tcols key))
               (zeroColMeta, VNil)).
Proof.
  intros Hlen. unfold sortedKey.
  destruct (sortedKey_run_holds tcols key Hlen) as (buf & -> & Hb).
  simpl. f_equal. apply (bufHolds_key _ _ _ Hb).
Qed.

Lemma sortedKey_overflow (tcols : list string) (key : PartitionKey) :
  length key < length (reorderedKey tcols key) → sortedKey tcols key = None.
Proof.
  intros Hlen. unfold sortedKey. by rewrite sortedKey_run_overflow.
Qed.

(** X1: [sortedKey] is determined by the reordered key: when that key needs
    no more slots than the key has columns, the result is it, followed by
    zero columns with nil values in the slots that were never written;
    otherwise a write goes out of range and the call panics. *)
Theorem sortedKey_exact (tcols : list string) (key : PartitionKey) :
  sortedKey tcols key
  = if decide (length (reorderedKey tcols key) ≤ length key)
    then Some (reorderedKey tcols key
               ++ replicate (length key - length (reorderedKey tcols key))
                    (zeroColMeta, VNil))
    else None.
Proof.
  case_decide as Hlen.
  - by apply sortedKey_fits.
  - apply sortedKey_overflow. lia.
Qed.

(** ** Repeated sort labels *)

Lemma sortColsOfKey_labels (tcols : list string) (key : PartitionKey) :
  (λ p, Label p.1) <$> sortColsOfKey tcols key = sortLabelsInKey tcols key.
Proof.
  unfold sortLabelsInKey.
  induction tcols as [|l tcols IH]; [done|].
  destruct (keyFind l key) as [p|] eqn:Hf.
  - rewrite (sortColsOfKey_cons_Some _ _ _ _ Hf).
    pose proof (keyFind_Some _ _ _ Hf) as [_ Hl].
    rewrite filter_cons_True.
    + rewrite fmap_cons, IH. by rewrite Hl.
    + destruct (decide (l ∈ Label <$> Cols key)) as [|Hn]; [done|].
      apply keyFind_None in Hn. congruence.
  - rewrite (sortColsOfKey_cons_None _ _ _ Hf).
    rewrite filter_cons_False; [done|]. by apply keyFind_None.
Qed.

Lemma sortColsOfKey_NoDup_labels (tcols : list string) (key : PartitionKey) :
  NoDup (sortLabelsInKey tcols key) → NoDup (sortColsOfKey tcols key).
Proof.
  rewrite <- sortColsOfKey_labels. apply NoDup_fmap_1.
Qed.

(** The reordered key fits as soon as the sort labels that are key columns
    are pairwise distinct. *)
Lemma reorderedKey_fits (tcols : list string) (key : PartitionKey) :
  NoDup (sortLabelsInKey tcols key) →
  length (reorderedKey tcols key) ≤ length key.
Proof.
  intros Hnd. unfold reorderedKey. rewrite length_app.
  rewrite <- (filter_labels_length tcols key).
  apply Nat.add_le_mono_r, submseteq_length, NoDup_submseteq.
  - by apply sortColsOfKey_NoDup_labels.
  - intros p. apply sortColsOfKey_sub.
Qed.

(** In a key with pairwise distinct labels, a repeated sort label that is a
    key column makes the reordered key too long. *)
Lemma reorderedKey_overflows (tcols : list string) (key : PartitionKey) :
  NoDup (Label <$> Cols key) →
  ¬ NoDup (sortLabelsInKey tcols key) →
  length key < length (reorderedKey tcols key).
Proof.
  intros Hkey Hdup.
  destruct (decide (length key < length (reorderedKey tcols key)))
    as [|Hfit]; [done|].
  exfalso. apply Hdup.
  set (F := filter (λ p, Label p.1 ∈ tcols) key).
  assert (HF : NoDup ((λ p, Label p.1) <$> F)).
  { unfold Cols in Hkey. rewrite <- list_fmap_compose in Hkey.
    apply (sublist_NoDup _ (Label ∘ fst <$> key)); [exact Hkey|].
    apply (fmap_sublist (Label ∘ fst)), sublist_filter. }
  assert (Hlen : length (sortLabelsInKey tcols key)
                 ≤ length ((λ p : ColMeta * Value, Label p.1) <$> F)).
  { rewrite <- sortColsOfKey_labels, !length_fmap.
    pose proof (filter_labels_length tcols key).
    unfold reorderedKey in Hfit. rewrite length_app in Hfit.
    unfold F. lia. }
  apply NoDup_ListNoDup.
  apply (NoDup_incl_NoDup (proj1 (NoDup_ListNoDup _) HF) Hlen).
  intros l Hin%list_elem_of_In. apply list_elem_of_In.
  apply list_elem_of_fmap in Hin as (p & -> & Hp).
  apply list_elem_of_filter in Hp as [Hl Hp].
  apply list_elem_of_filter. split; [|done].
  unfold Cols. rewrite <- list_fmap_compose.
  apply list_elem_of_fmap. by exists p.
Qed.

(** X2: for a key whose column labels are pairwise distinct, [sortedKey]
    returns a key exactly when no sort label that is a key column occurs
    twice in the sort list; otherwise it panics on an out-of-range write. *)
Theorem sortedKey_returns_iff (tcols : list string) (key : PartitionKey) :
  NoDup (Label <$> Cols key) →
  (is_Some (sortedKey tcols key) ↔ NoDup (sortLabelsInKey tcols key))
  ∧ (sortedKey tcols key = None ↔ ¬ NoDup (sortLabelsInKey tcols key)).
Proof.
  intros Hkey.
  destruct (decide (NoDup (sortLabelsInKey tcols key))) as [Hnd|Hdup].
  - rewrite sortedKey_fits by (by apply reorderedKey_fits).
    split; (split; [done|]); [by eexists|done].
  - rewrite sortedKey_overflow by (by apply reorderedKey_overflows).
    split; (split; [|done]); [by intros [? ?]|done].
Qed.

Lemma sortedKey_returns_iff_witness :
  NoDup (Label <$> Cols Ex.key_acb)
  ∧ is_Some (sortedKey ["b"; "z"; "z"; "a"]%string Ex.key_acb)
  ∧ sortedKey ["b"; "a"; "b"]%string Ex.key_acb = None.
Proof.
  assert (Hkey : NoDup (Label <$> Cols Ex.key_acb))
    by (apply (bool_decide_unpack _); vm_compute; reflexivity).
  split; [exact Hkey|]. split.
  - apply (proj1 (sortedKey_returns_iff _ _ Hkey)).
    apply (bool_decide_unpack _). vm_compute. reflexivity.
  - apply (proj2 (sortedKey_returns_iff _ _ Hkey)).
    apply (bool_decide_unpack _). vm_compute. reflexivity.
Defined.

(** ** What reordering keeps *)

Lemma reorderedKey_Permutation_labels (tcols : list string)
    (key : PartitionKey) :
  NoDup (sortLabelsInKey tcols key) → NoDup (Label <$> Cols key) →
  reorderedKey tcols key ≡ₚ key.
Proof.
  intros Hnd Hkey. unfold reorderedKey.
  rewrite <- (filter_app_complement (λ p, Label p.1 ∈ tcols) key) at 3.
  apply Permutation_app_tail, NoDup_Permutation.
  - by apply sortColsOfKey_NoDup_labels.
  - apply NoDup_filter. unfold Cols in Hkey.
    by apply NoDup_fmap_1, NoDup_fmap_1 in Hkey.
  - intros p. split; [apply sortColsOfKey_sub|].
    intros [Hl Hin]%list_elem_of_filter. apply sortColsOfKey_elem.
    exists (Label p.1). split; [done|]. by apply keyFind_unique.
Qed.

(** On a key with distinct labels, what [sortedKey] returns is the
    reordered key, with no slot left over. *)
Lemma sortedKey_Some_reorderedKey (tcols : list string)
    (key k' : PartitionKey) :
  NoDup (Label <$> Cols key) →
  sortedKey tcols key = Some k' →
  k' = reorderedKey tcols key ∧ k' ≡ₚ key.
Proof.
  intros Hkey Hs.
  destruct (decide (NoDup (sortLabelsInKey tcols key))) as [Hnd|Hdup].
  - pose proof (reorderedKey_Permutation_labels _ _ Hnd Hkey) as Hp.
    rewrite sortedKey_fits in Hs by (by rewrite (Permutation_length Hp)).
    rewrite (Permutation_length Hp), Nat.sub_diag, app_nil_r in Hs.
    by injection Hs as <-.
  - rewrite sortedKey_overflow in Hs by (by apply reorderedKey_overflows).
    done.
Qed.

Lemma labels_Permutation (key k' : PartitionKey) :
  k' ≡ₚ key → Label <$> Cols k' ≡ₚ Label <$> Cols key.
Proof. intros Hp. unfold Cols. by rewrite Hp. Qed.

(** Looking a label up does not depend on the order of the columns when the
    labels are distinct. *)
Lemma keyFind_Permutation (key k' : PartitionKey) l :
  NoDup (Label <$> Cols key) → k' ≡ₚ key → keyFind l k' = keyFind l key.
Proof.
  intros Hkey Hp.
  assert (Hk' : NoDup (Label <$> Cols k'))
    by (by rewrite (labels_Permutation _ _ Hp)).
  destruct (keyFind l key) as [p|] eqn:Hf.
  - apply keyFind_Some in Hf as [Hin <-].
    apply keyFind_unique; [done|]. by rewrite Hp.
  - apply keyFind_None. rewrite (labels_Permutation _ _ Hp).
    by apply keyFind_None.
Qed.

Lemma HasCol_keyFind (key : PartitionKey) l :
  HasCol key l = bool_decide (is_Some (keyFind l key)).
Proof.
  destruct (HasCol key l) eqn:Hc; symmetry.
  - apply bool_decide_eq_true. apply HasCol_spec in Hc.
    destruct (keyFind l key) eqn:Hf; [by eexists|].
    by apply keyFind_None in Hf.
  - apply bool_decide_eq_false. intros [p Hf].
    apply keyFind_Some in Hf as [Hin <-].
    assert (HasCol key (Label p.1) = true); [|congruence].
    apply HasCol_spec. unfold Cols. rewrite <- list_fmap_compose.
    apply list_elem_of_fmap. by exists p.
Qed.

(** X3: whenever [sortedKey] returns on a key with pairwise distinct
    labels, the returned key is a rearrangement of the key, and every label
    names in it the same column with the same value as in the key; in
    particular it has a column exactly for the labels the key has one
    for. *)
Theorem sortedKey_keeps_columns (tcols : list string)
    (key k' : PartitionKey) :
  NoDup (Label <$> Cols key) →
  sortedKey tcols key = Some k' →
  k' ≡ₚ key
  ∧ ∀ l, keyFind l k' = keyFind l key ∧ HasCol k' l = HasCol key l.
Proof.
  intros Hkey Hs.
  destruct (sortedKey_Some_reorderedKey _ _ _ Hkey Hs) as [_ Hp].
  split; [done|]. intros l.
  pose proof (keyFind_Permutation key k' l Hkey Hp) as Hf.
  split; [done|]. by rewrite !HasCol_keyFind, Hf.
Qed.

Lemma sortedKey_keeps_columns_witness :
  NoDup (Label <$> Cols Ex.key_acb)
  ∧ sortedKey ["b"; "z"; "a"]%string Ex.key_acb
    = Some [(Ex.colB, VString "q"); (Ex.colA, VInt 1); (Ex.colC, VInt 5)]
  ∧ keyFind "c" [(Ex.colB, VString "q"); (Ex.colA, VInt 1); (Ex.colC, VInt 5)]
    = keyFind "c" Ex.key_acb.
Proof.
  assert (Hkey : NoDup (Label <$> Cols Ex.key_acb))
    by (apply (bool_decide_unpack _); vm_compute; reflexivity).
  assert (Hs : sortedKey ["b"; "z"; "a"]%string Ex.key_acb
               = Some [(Ex.colB, VString "q"); (Ex.colA, VInt 1);
                       (Ex.colC, VInt 5)]) by reflexivity.
  split; [exact Hkey|]. split; [exact Hs|].
  apply (proj2 (sortedKey_keeps_columns _ _ _ Hkey Hs) "c"%string).
Defined.

Lemma sortColsOfKey_ext (tcols : list string) (key k' : PartitionKey) :
  (∀ l, keyFind l k' = keyFind l key) →
  sortColsOfKey tcols k' = sortColsOfKey tcols key.
Proof.
  intros Hf. unfold sortColsOfKey.
  induction tcols as [|l tcols IH]; [done|].
  cbn. by rewrite Hf, IH.
Qed.

Lemma filter_none {A} (P : A → Prop) `{∀ x, Decision (P x)} (l : list A) :
  Forall (λ x, ¬ P x) l → filter P l = [].
Proof.
  induction 1 as [|x l Hx _ IH]; [done|]. by rewrite filter_cons_False.
Qed.

Lemma reorderedKey_idempotent (tcols : list string) (key : PartitionKey) :
  NoDup (Label <$> Cols key) →
  reorderedKey tcols key ≡ₚ key →
  reorderedKey tcols (reorderedKey tcols key) = reorderedKey tcols key.
Proof.
  intros Hkey Hp. unfold reorderedKey at 1.
  rewrite (sortColsOfKey_ext tcols key (reorderedKey tcols key))
    by (intros l; by apply keyFind_Permutation).
  unfold reorderedKey. f_equal. rewrite filter_app.
  rewrite (filter_none _ (sortColsOfKey tcols key)).
  - simpl. by apply list_filter_filter_r.
  - apply Forall_forall. intros p Hin Hn. apply Hn.
    apply sortColsOfKey_elem in Hin as (l & Hl & Hf).
    apply keyFind_Some in Hf as [_ <-]. done.
Qed.

(** X4: reordering is idempotent: on a key with pairwise distinct labels,
    the key that [sortedKey] returns is returned unchanged when it is
    reordered again. *)
Theorem sortedKey_idempotent (tcols : list string) (key k' : PartitionKey) :
  NoDup (Label <$> Cols key) →
  sortedKey tcols key = Some k' →
  sortedKey tcols k' = Some k'.
Proof.
  intros Hkey Hs.
  destruct (sortedKey_Some_reorderedKey _ _ _ Hkey Hs) as [-> Hp].
  rewrite sortedKey_fits; rewrite reorderedKey_idempotent by done.
  - by rewrite (Permutation_length Hp), Nat.sub_diag, app_nil_r.
  - done.
Qed.

Lemma sortedKey_idempotent_witness :
  let k' := [(Ex.colB, VString "q"); (Ex.colA, VInt 1); (Ex.colC, VInt 5)] in
  NoDup (Label <$> Cols Ex.key_acb)
  ∧ sortedKey ["b"; "z"; "a"]%string Ex.key_acb = Some k'
  ∧ sortedKey ["b"; "z"; "a"]%string k' = Some k'.
Proof.
  intros k'.
  assert (Hkey : NoDup (Label <$> Cols Ex.key_acb))
    by (apply (bool_decide_unpack _); vm_compute; reflexivity).
  assert (Hs : sortedKey ["b"; "z"; "a"]%string Ex.key_acb = Some k')
    by reflexivity.
  split; [exact Hkey|]. split; [exact Hs|].
  apply (sortedKey_idempotent _ _ _ Hkey Hs).
Defined.

(** ** The guard loop of [Process] *)

Lemma filter_all {A} (P : A → Prop) `{∀ x, Decision (P x)} (l : list A) :
  Forall P l → filter P l = l.
Proof.
  induction 1 as [|x l Hx _ IH]; [done|].
  by rewrite filter_cons_True, IH.
Qed.

Lemma reorderedKey_unshared (tcols : list string) (key : PartitionKey) :
  (∀ l, l ∈ tcols → l ∉ Label <$> Cols key) →
  reorderedKey tcols key = key.
Proof.
  intros Hno. unfold reorderedKey.
  assert (sortColsOfKey tcols key = []) as ->.
  { unfold sortColsOfKey. induction tcols as [|l tcols IH]; [done|].
    cbn. rewrite (proj2 (keyFind_None l key)) by (apply Hno; left).
    apply IH. intros l' Hl'. apply Hno. by right. }
  simpl. apply filter_all, Forall_forall. intros p Hp Hin.
  apply (Hno _ Hin). unfold Cols. rewrite <- list_fmap_compose.
  apply list_elem_of_fmap. by exists p.
Qed.

(** The loop at the head of [Process] only saves the call: what it goes on
    with is in every case what [sortedKey] returns. *)
Lemma processKey_sortedKey (tcols : list string) (key : PartitionKey) :
  processKey tcols tcols key = sortedKey tcols key.
Proof.
  destruct (decide (Exists (λ l, l ∈ Label <$> Cols key) tcols))
    as [Hshare|Hno].
  - apply processKey_shared. by apply Exists_exists.
  - assert (Hno' : ∀ l, l ∈ tcols → l ∉ Label <$> Cols key)
      by (intros l Hl Hk; apply Hno, Exists_exists; by exists l).
    rewrite processKey_unshared by done.
    rewrite sortedKey_fits; rewrite reorderedKey_unshared by done; [|done].
    by rewrite Nat.sub_diag, app_nil_r.
Qed.

(** X5: the loop at the head of [Process], which calls [sortedKey] only
    when a sort label is a key column, never changes the outcome: the key
    handed to the cache is in every case what [sortedKey] returns for the
    block's key, and when [sortedKey] panics [Process] panics before any
    collaborator is called. *)
Theorem Process_key_is_sortedKey {DS} h (t : sortTransformation DS) id b :
  let tcols := GoSlice.elems h (cols t) in
  passedKey (Process h t id b) = sortedKey tcols (Key b)
  ∧ (sortedKey tcols (Key b) = None →
     Process h t id b = MkRun [] Panicked t).
Proof.
  intros tcols. pose proof (processKey_sortedKey tcols (Key b)) as Hk.
  split.
  - destruct (sortedKey tcols (Key b)) as [key|] eqn:Hs.
    + by apply Process_passedKey.
    + unfold Process. fold tcols. by rewrite Hk.
  - intros Hs. unfold Process. fold tcols. by rewrite Hk, Hs.
Qed.

(** ** A block with a new key *)

Lemma foldl_AddCol (cs : list ColMeta) : ∀ builder,
  foldl AddCol builder cs
  = MkBuilder (bKey builder) (bCols builder ++ cs)
      (bData builder ++ replicate (length cs) []).
Proof.
  induction cs as [|c cs IH]; intros builder.
  - simpl. rewrite !app_nil_r. by destruct builder.
  - simpl. rewrite IH. simpl. by rewrite <- !app_assoc.
Qed.

Lemma AddBlockCols_new b key :
  AddBlockCols b (MkBuilder key [] [])
  = MkBuilder key (BlockCols b) (replicate (length (BlockCols b)) []).
Proof. unfold AddBlockCols. by rewrite foldl_AddCol. Qed.

Lemma mapM_seq_lookup {A} (f : nat → option A) (l : list A) :
  (∀ j x, l !! j = Some x → f j = Some x) →
  mapM f (seq 0 (length l)) = Some l.
Proof.
  intros Hf. apply mapM_Some_2, Forall2_same_length_lookup_2.
  - by rewrite length_seq.
  - intros i j x Hj Hx. apply lookup_seq in Hj as [-> _]. by apply Hf.
Qed.

(** Appending a block with the identity column map to a builder that has
    just received the block's columns gives the builder the block's data. *)
Lemma AppendBlock_identity b key :
  rectangular b →
  AppendBlock b
    (MkBuilder key (BlockCols b) (replicate (length (BlockCols b)) []))
    (seq 0 (length (BlockCols b)))
  = Some (MkBuilder key (BlockCols b) (BlockData b)).
Proof.
  intros Hrect. unfold rectangular in Hrect. unfold AppendBlock.
  case_decide as Hnil.
  - rewrite Hnil in *. simpl.
    by rewrite (nil_length_inv _ Hrect).
  - unfold NCols. simpl. rewrite <- Hrect.
    rewrite mapM_seq_lookup; [done|].
    intros j col Hcol. pose proof (lookup_lt_Some _ _ _ Hcol) as Hj.
    rewrite lookup_seq_lt by done. simpl. rewrite Hcol. simpl.
    rewrite lookup_replicate_2 by done. done.
Qed.

(** Resizing never fails: the buffer gets the requested length, and its
    capacity is the larger of the old capacity and the request. *)
Lemma resizeColMap_total (s : IntSlice) ncols :
  ∃ s', resizeColMap s ncols = Some s'
        ∧ ilen s' = ncols
        ∧ icap s' = icap s `max` ncols.
Proof.
  destruct (decide (icap s < ncols)) as [Hlt|Hge].
  - eexists. split; [by apply resizeColMap_grow|].
    unfold icap in *; simpl. rewrite length_seq. split; [done|lia].
  - eexists. split; [apply resizeColMap_reslice; lia|].
    unfold icap in *; simpl. split; [done|lia].
Qed.

Lemma reachable_colMapIdentity {DS} `{Dataset DS} h
    (t : sortTransformation DS) :
  reachable h t → colMapIdentity (colMap t).
Proof.
  induction 1 as [| t id b _ IH | t id key _ IH | t id mark _ IH
                  | t id pt _ IH | t id err _ IH].
  - done.
  - by apply Process_colMap_identity.
  - unfold RetractBlock. by destruct (dsRetractBlock _ _).
  - unfold UpdateWatermark. by destruct (dsUpdateWatermark _ _).
  - unfold UpdateProcessingTime. by destruct (dsUpdateProcessingTime _ _).
  - done.
Qed.

Lemma lookupBuilder_None_hasBuilder key (c : BlockBuilderCache) :
  lookupBuilder key c = None ↔ ¬ hasBuilder key c.
Proof.
  unfold hasBuilder. destruct (lookupBuilder key c).
  - split; [done|]. intros Hn. exfalso. apply Hn. by eexists.
  - split; [|done]. by intros _ [? ?].
Qed.

Lemma storeBuilder_new key b0 b (c : BlockBuilderCache) :
  lookupBuilder key c = None →
  storeBuilder key b (c ++ [(key, b0)]) = c ++ [(key, b)].
Proof.
  induction c as [|[k b'] c IH]; simpl.
  - intros _. by rewrite decide_True.
  - destruct (decide (k = key)); [done|]. intros Hn. by rewrite IH.
Qed.

Lemma Process_new_key {DS} h (t : sortTransformation DS) id b key :
  colMapIdentity (colMap t) →
  rectangular b →
  sortedKey (GoSlice.elems h (cols t)) (Key b) = Some key →
  ¬ hasBuilder key (cache t) →
  ∃ cm,
    resizeColMap (colMap t) (length (BlockCols b)) = Some cm
    ∧ Process h t id b
      = MkRun [CallBlockBuilder key; CallAddBlockCols b;
               CallAppendBlock b (length (BlockCols b))
                 (seq 0 (length (BlockCols b)));
               CallSort (GoSlice.elems h (cols t)) (desc t)]
          Done
          (withCache t
             (cache t
              ++ [(key, builtFrom (GoSlice.elems h (cols t)) (desc t) key b)])
             cm).
Proof.
  intros Hid Hrect Hk Hnew.
  destruct (resizeColMap_identity (colMap t) (length (BlockCols b)) Hid)
    as (cm & Hr & _ & He).
  exists cm. split; [done|].
  unfold Process. rewrite processKey_sortedKey, Hk.
  apply lookupBuilder_None_hasBuilder in Hnew.
  unfold CacheBlockBuilder. rewrite Hnew. simpl.
  rewrite AddBlockCols_new. unfold NCols. simpl. rewrite Hr, He.
  rewrite (AppendBlock_identity b key Hrect).
  by rewrite storeBuilder_new.
Qed.

(** X6: for a node that execution can produce, a block with one data column
    per column and a key, as [sortedKey] returns it, that has no builder
    yet: [Process] completes, adds to the end of the cache one builder
    under that key, holding the block's columns and the block's rows
    sorted, and changes no other builder. *)
Theorem Process_builds_sorted_block {DS} `{Dataset DS} h
    (t : sortTransformation DS) id b key :
  let tcols := GoSlice.elems h (cols t) in
  reachable h t →
  rectangular b →
  sortedKey tcols (Key b) = Some key →
  ¬ hasBuilder key (cache t) →
  outcome (Process h t id b) = Done
  ∧ cache (final (Process h t id b))
    = cache t ++ [(key, builtFrom tcols (desc t) key b)]
  ∧ bCols (builtFrom tcols (desc t) key b) = BlockCols b
  ∧ emittedRows key (final (Process h t id b))
    = Some (sortRows (sortIdxs tcols (BlockCols b)) (desc t)
              (rowsOf (BlockData b))).
Proof.
  intros tcols Hreach Hrect Hk Hnew.
  destruct (Process_new_key h t id b key
              (reachable_colMapIdentity _ _ Hreach) Hrect Hk Hnew)
    as (cm & _ & ->).
  simpl. split_and!; [done..|].
  unfold emittedRows. simpl. rewrite lookupBuilder_app.
  rewrite (proj2 (lookupBuilder_None_hasBuilder _ _) Hnew). simpl.
  rewrite decide_True by done. simpl. f_equal.
  unfold builtFrom. by rewrite builderRows_Sort.
Qed.

Lemma Process_builds_sorted_block_witness :
  let t := Ex2.node Ex.cols_a true in
  reachable Ex.heap t
  ∧ rectangular Ex.block_ab
  ∧ outcome (Process Ex.heap t 0%N Ex.block_ab) = Done
  ∧ emittedRows [] (final (Process Ex.heap t 0%N Ex.block_ab))
    = Some (sortRows [0] true
              [[VInt 3; VString "x"]; [VInt 1; VString "y"];
               [VInt 1; VString "z"]]).
Proof.
  intros t.
  assert (Hreach : reachable Ex.heap t) by apply reach_New.
  assert (Hrect : rectangular Ex.block_ab) by reflexivity.
  split; [exact Hreach|]. split; [exact Hrect|].
  destruct (Process_builds_sorted_block Ex.heap t 0%N Ex.block_ab []
              Hreach Hrect eq_refl) as (Hd & _ & _ & He).
  - intros [x Hx]. discriminate Hx.
  - split; [exact Hd|exact He].
Defined.

(** X7: the only error [Process] returns is the duplicate-block error for
    the block's own key, and it returns it only when the cache already
    holds a builder for the key that [sortedKey] gives; the call then has
    asked the cache for that builder and done nothing else, and the node is
    as before. *)
Theorem Process_error_is_duplicate {DS} h (t : sortTransformation DS)
    id b e :
  outcome (Process h t id b) = Failed e →
  e = ErrDuplicateBlock (Key b)
  ∧ final (Process h t id b) = t
  ∧ ∃ key, sortedKey (GoSlice.elems h (cols t)) (Key b) = Some key
           ∧ hasBuilder key (cache t)
           ∧ calls (Process h t id b) = [CallBlockBuilder key].
Proof.
  unfold Process. rewrite processKey_sortedKey.
  destruct (sortedKey _ _) as [key|]; [|done].
  unfold CacheBlockBuilder.
  destruct (lookupBuilder key (cache t)) as [bld|] eqn:Hl; simpl.
  - intros [= <-]. split_and!; [done..|].
    exists key. split_and!; [done| |done]. unfold hasBuilder. by rewrite Hl.
  - destruct (resizeColMap _ _); [|done].
    by destruct (AppendBlock _ _ _).
Qed.

Lemma Process_error_is_duplicate_witness :
  let t := final (Process Ex.heap (Ex.node Ex.cols_a false) 0%N Ex.block_ab) in
  outcome (Process Ex.heap t 0%N Ex.block_ab)
  = Failed (ErrDuplicateBlock [])
  ∧ final (Process Ex.heap t 0%N Ex.block_ab) = t.
Proof.
  intros t.
  assert (Ho : outcome (Process Ex.heap t 0%N Ex.block_ab)
               = Failed (ErrDuplicateBlock [])) by reflexivity.
  split; [exact Ho|].
  apply (Process_error_is_duplicate Ex.heap t 0%N Ex.block_ab _ Ho).
Defined.

(** X8: for a node that execution can produce and a block with one data
    column per column, how [Process] ends is decided by [sortedKey] and the
    cache alone: it panics when [sortedKey] panics, returns the
    duplicate-block error when the returned key has a builder, and
    completes otherwise. *)
Theorem Process_outcome {DS} `{Dataset DS} h (t : sortTransformation DS)
    id b :
  reachable h t →
  rectangular b →
  outcome (Process h t id b)
  = match sortedKey (GoSlice.elems h (cols t)) (Key b) with
    | None => Panicked
    | Some key =>
        if decide (hasBuilder key (cache t))
        then Failed (ErrDuplicateBlock (Key b))
        else Done
    end.
Proof.
  intros Hreach Hrect.
  destruct (sortedKey _ _) as [key|] eqn:Hk.
  - case_decide as Hhas.
    + rewrite (Process_existing_builder h t id b key); [done| |done].
      by rewrite processKey_sortedKey.
    + destruct (Process_new_key h t id b key
                  (reachable_colMapIdentity _ _ Hreach) Hrect Hk Hhas)
        as (cm & _ & ->). done.
  - unfold Process. by rewrite processKey_sortedKey, Hk.
Qed.

Lemma Process_outcome_witness :
  let t := Ex2.node Ex.cols_aa false in
  reachable Ex.heap t
  ∧ rectangular (Ex.keyedBlock Ex.key_a)
  ∧ outcome (Process Ex.heap t 0%N (Ex.keyedBlock Ex.key_a)) = Panicked
  ∧ outcome (Process Ex.heap t 0%N Ex.block_ab) = Done.
Proof.
  intros t.
  assert (Hreach : reachable Ex.heap t) by apply reach_New.
  assert (Hrect : rectangular (Ex.keyedBlock Ex.key_a)) by reflexivity.
  split; [exact Hreach|]. split; [exact Hrect|]. split.
  - rewrite (Process_outcome Ex.heap t 0%N _ Hreach Hrect). reflexivity.
  - rewrite (Process_outcome Ex.heap t 0%N Ex.block_ab Hreach eq_refl).
    reflexivity.
Defined.

(** ** What [Process] leaves alone *)

Lemma lookupBuilder_store_ne key key' b (c : BlockBuilderCache) :
  key' ≠ key →
  lookupBuilder key' (storeBuilder key b c) = lookupBuilder key' c.
Proof.
  intros Hne. induction c as [|[k b'] c IH]; simpl; [done|].
  destruct (decide (k = key)) as [->|]; simpl.
  - by rewrite !decide_False.
  - by rewrite IH.
Qed.

Lemma lookupBuilder_app_ne key key' b (c : BlockBuilderCache) :
  key' ≠ key → lookupBuilder key' (c ++ [(key, b)]) = lookupBuilder key' c.
Proof.
  intros Hne. rewrite lookupBuilder_app. simpl. rewrite decide_False by done.
  by destruct (lookupBuilder key' c).
Qed.

Lemma Process_d_desc {DS} h (t : sortTransformation DS) id b :
  d (final (Process h t id b)) = d t
  ∧ desc (final (Process h t id b)) = desc t.
Proof.
  unfold Process. destruct (processKey _ _ _) as [key|]; [|done].
  destruct (CacheBlockBuilder _ _) as [[builder created] cache1].
  destruct created; simpl; [|done].
  destruct (resizeColMap _ _); simpl; [|done].
  by destruct (AppendBlock _ _ _).
Qed.

Lemma Process_other_builders {DS} h (t : sortTransformation DS) id b key' :
  passedKey (Process h t id b) ≠ Some key' →
  lookupBuilder key' (cache (final (Process h t id b)))
  = lookupBuilder key' (cache t).
Proof.
  unfold Process. destruct (processKey _ _ _) as [key|]; [|done].
  destruct (CacheBlockBuilder _ _) as [[builder created] cache1] eqn:Hc.
  destruct created; simpl; [|done].
  apply CacheBlockBuilder_created in Hc as [_ ->].
  assert (Hother : ∀ bld, Some key ≠ Some key' →
            lookupBuilder key' (storeBuilder key bld
                                  (cache t ++ [(key, builder)]))
            = lookupBuilder key' (cache t)).
  { intros bld Hne.
    rewrite lookupBuilder_store_ne, lookupBuilder_app_ne; congruence. }
  destruct (resizeColMap _ _); simpl;
    [destruct (AppendBlock _ _ _); simpl|]; apply Hother.
Qed.

(** X9: [Process] never touches the dataset, the sort columns or the
    direction of the node, and the builder of every key other than the one
    it hands to the cache is after the call what it was before. *)
Theorem Process_frame {DS} h (t : sortTransformation DS) id b :
  d (final (Process h t id b)) = d t
  ∧ cols (final (Process h t id b)) = cols t
  ∧ desc (final (Process h t id b)) = desc t
  ∧ ∀ key', passedKey (Process h t id b) ≠ Some key' →
      lookupBuilder key' (cache (final (Process h t id b)))
      = lookupBuilder key' (cache t).
Proof.
  split_and!.
  - apply Process_d_desc.
  - apply Process_cols.
  - apply Process_d_desc.
  - intros key'. apply Process_other_builders.
Qed.

(** ** One builder per key *)

Lemma storeBuilder_keys key b (c : BlockBuilderCache) :
  (storeBuilder key b c).*1 = c.*1.
Proof.
  induction c as [|[k b'] c IH]; csimpl; [done|].
  destruct (decide (k = key)); csimpl; [done|]. by rewrite IH.
Qed.

Lemma lookupBuilder_None_keys key (c : BlockBuilderCache) :
  lookupBuilder key c = None ↔ key ∉ c.*1.
Proof.
  induction c as [|[k b] c IH]; csimpl.
  - split; [intros _; apply not_elem_of_nil|done].
  - destruct (decide (k = key)) as [->|Hne].
    + split; [done|]. intros Hn. exfalso. apply Hn. left.
    + rewrite IH, not_elem_of_cons.
      split; [intros ?; split; [congruence|done] | by intros [_ ?]].
Qed.

(** The keys of the cache after a call: the old ones, and the passed key at
    the end when it was not among them. *)
Lemma Process_cache_keys {DS} h (t : sortTransformation DS) id b :
  (cache (final (Process h t id b))).*1
  = match passedKey (Process h t id b) with
    | Some key =>
        if decide (key ∈ (cache t).*1) then (cache t).*1
        else (cache t).*1 ++ [key]
    | None => (cache t).*1
    end.
Proof.
  unfold Process. destruct (processKey _ _ _) as [key|]; [|done].
  unfold CacheBlockBuilder.
  destruct (lookupBuilder key (cache t)) as [bld|] eqn:Hl; simpl.
  - rewrite decide_True; [done|].
    destruct (decide (key ∈ (cache t).*1)) as [|Hn]; [done|].
    apply lookupBuilder_None_keys in Hn. congruence.
  - apply lookupBuilder_None_keys in Hl.
    destruct (resizeColMap _ _); simpl;
      [destruct (AppendBlock _ _ _); simpl|];
      rewrite storeBuilder_keys, fmap_app, decide_False; done.
Qed.

Lemma Process_keys_NoDup {DS} h (t : sortTransformation DS) id b :
  NoDup (cache t).*1 → NoDup (cache (final (Process h t id b))).*1.
Proof.
  intros Hnd. rewrite Process_cache_keys.
  destruct (passedKey _) as [key|]; [|done].
  case_decide as Hin; [done|].
  apply NoDup_app. split_and!; [done| |apply NoDup_singleton].
  intros k Hk ->%list_elem_of_singleton. done.
Qed.

Lemma processAll_keys_NoDup {DS} h id bs : ∀ t : sortTransformation DS,
  NoDup (cache t).*1 → NoDup (cache (processAll h t id bs)).*1.
Proof.
  unfold processAll. induction bs as [|b bs IH]; intros t Hnd; simpl; [done|].
  by apply IH, Process_keys_NoDup.
Qed.

(** ** Creating the node *)

Lemma Process_Failed_hasBuilder {DS} h (t : sortTransformation DS) id b e :
  outcome (Process h t id b) = Failed e → ∃ key, hasBuilder key (cache t).
Proof.
  unfold Process. destruct (processKey _ _ _) as [key|]; [|done].
  unfold CacheBlockBuilder.
  destruct (lookupBuilder key (cache t)) as [bld|] eqn:Hl; simpl.
  - intros _. exists key. unfold hasBuilder. by rewrite Hl.
  - destruct (resizeColMap _ _); [|done].
    by destruct (AppendBlock _ _ _).
Qed.

(** X10: [createSortTransformation] returns the "invalid spec type" error
    exactly when the procedure specification is not of the pointer type of
    the sort procedure specification, and it returns no other error. On a
    non-nil pointer to a sort procedure specification, and only there, it
    returns a node, with the specification's column slice and direction, a
    new dataset, an empty cache and no column-map buffer; on the nil
    pointer of that type, and only there, it panics. The first block that
    a node so created processes is never rejected as a duplicate. *)
Theorem createSortTransformation_spec {A DS} `{Dataset DS}
    (id : DatasetID) (mode : AccumulationMode) (spec : ProcedureSpec)
    (a : A) :
  ((∃ typ, createSortTransformation (DS:=DS) id mode spec a
           = Some (Err (ErrInvalidSpecType typ)))
   ↔ ¬ (spec = ProcSortNil ∨ ∃ s, spec = ProcSort s))
  ∧ (∀ e, createSortTransformation (DS:=DS) id mode spec a = Some (Err e) →
          e = ErrInvalidSpecType (procTypeName spec))
  ∧ (∀ s, spec = ProcSort s →
          createSortTransformation id mode spec a
          = Some (Ok (MkSortTransformation (NewDataset id mode) []
                        (SortProcedureSpec.Cols s)
                        (SortProcedureSpec.Desc s) inil)))
  ∧ ((∃ t, createSortTransformation (DS:=DS) id mode spec a = Some (Ok t))
     ↔ ∃ s, spec = ProcSort s)
  ∧ (createSortTransformation (DS:=DS) id mode spec a = None
     ↔ spec = ProcSortNil)
  ∧ (∀ t, createSortTransformation id mode spec a = Some (Ok t) →
          ∀ h id' b e, outcome (Process h t id' b) ≠ Failed e).
Proof.
  split_and!.
  - destruct spec as [s| |typ kind|]; simpl.
    + split; [by intros [typ ?]|]. intros Hn. exfalso. apply Hn.
      right. by exists s.
    + split; [by intros [typ ?]|]. intros Hn. exfalso. apply Hn. by left.
    + split; [|intros _; by eexists]. by intros _ [?|[s ?]].
    + split; [|intros _; by eexists]. by intros _ [?|[s ?]].
  - destruct spec as [s| |typ kind|]; simpl; intros e [= <-]; done.
  - by intros s ->.
  - destruct spec as [s| |typ kind|]; simpl.
    + split; intros _; by eexists.
    + split; [by intros [t ?]|by intros [s ?]].
    + split; [by intros [t ?]|by intros [s ?]].
    + split; [by intros [t ?]|by intros [s ?]].
  - by destruct spec as [s| |typ kind|].
  - intros t Ht. destruct spec as [s| |typ kind|]; simpl in Ht; [|done..].
    injection Ht as <-. intros h id' b e He.
    apply Process_Failed_hasBuilder in He as (key & [bld Hb]).
    done.
Qed.

Lemma createSortTransformation_spec_witness :
  ∃ t, Ex2.created Ex.cols_a true = Some (Ok t)
       ∧ cache t = []
       ∧ outcome (Process Ex.heap t 0%N Ex.block_ab) = Done.
Proof.
  pose proof (proj1 (proj2 (proj2 (createSortTransformation_spec (DS:=nat)
                7%N AccumulatingMode
                (ProcSort (SortProcedureSpec.Mk Ex.cols_a true)) tt)))
                _ eq_refl) as Ht.
  eexists. split; [exact Ht|]. split; reflexivity.
Defined.

(** ** Streams of blocks *)

Lemma passedKey_sortedKey {DS} h (t : sortTransformation DS) id b :
  passedKey (Process h t id b)
  = sortedKey (GoSlice.elems h (cols t)) (Key b).
Proof.
  destruct (sortedKey _ _) as [key|] eqn:Hs.
  - apply Process_passedKey. by rewrite processKey_sortedKey.
  - unfold Process. by rewrite processKey_sortedKey, Hs.
Qed.

Lemma processAll_cons {DS} h (t : sortTransformation DS) id b bs :
  processAll h t id (b :: bs) = processAll h (final (Process h t id b)) id bs.
Proof. done. Qed.

Lemma processAll_cache_keys {DS} h id bs : ∀ (t : sortTransformation DS) key,
  key ∈ (cache (processAll h t id bs)).*1
  ↔ key ∈ (cache t).*1
    ∨ ∃ b, b ∈ bs ∧ sortedKey (GoSlice.elems h (cols t)) (Key b) = Some key.
Proof.
  induction bs as [|b bs IH]; intros t key.
  - split; [by left|]. intros [?|(b & Hb%elem_of_nil & _)]; done.
  - rewrite processAll_cons, IH, Process_cols, Process_cache_keys,
      passedKey_sortedKey.
    destruct (sortedKey _ (Key b)) as [k|] eqn:Hk.
    + case_decide as Hin.
      * split.
        -- intros [?|(b' & Hb' & Hs)]; [by left|].
           right. exists b'. split; [by right|done].
        -- intros [?|(b' & [->|Hb']%elem_of_cons & Hs)]; [by left| |].
           ++ left. congruence.
           ++ right. by exists b'.
      * rewrite elem_of_app, list_elem_of_singleton. split.
        -- intros [[?| ->]|(b' & Hb' & Hs)]; [by left| |].
           ++ right. exists b. split; [left|done].
           ++ right. exists b'. split; [by right|done].
        -- intros [?|(b' & [->|Hb']%elem_of_cons & Hs)].
           ++ by left; left.
           ++ left; right. congruence.
           ++ right. by exists b'.
    + split.
      * intros [?|(b' & Hb' & Hs)]; [by left|].
        right. exists b'. split; [by right|done].
      * intros [?|(b' & [->|Hb']%elem_of_cons & Hs)]; [by left|congruence|].
        right. by exists b'.
Qed.

(** X11: after any stream of blocks has gone through a node made by
    [createSortTransformation], the cache holds exactly one builder for
    each key that [sortedKey] returned for a block of the stream, and no
    other. *)
Theorem stream_cache_keys {A DS} `{Dataset DS} (id : DatasetID)
    (mode : AccumulationMode) (spec : ProcedureSpec) (a : A)
    (t : sortTransformation DS) h id' bs :
  createSortTransformation id mode spec a = Some (Ok t) →
  NoDup (cache (processAll h t id' bs)).*1
  ∧ ∀ key, key ∈ (cache (processAll h t id' bs)).*1
           ↔ ∃ b, b ∈ bs
                  ∧ sortedKey (GoSlice.elems h (cols t)) (Key b) = Some key.
Proof.
  intros Ht. destruct spec as [s| |typ kind|]; simpl in Ht; [|done..].
  injection Ht as <-. split.
  - apply processAll_keys_NoDup. constructor.
  - intros key. rewrite processAll_cache_keys. simpl.
    split; [|by right]. by intros [?%elem_of_nil|?].
Qed.

Lemma stream_cache_keys_witness :
  ∃ t, Ex2.created Ex.cols_a false = Some (Ok t)
       ∧ (cache (processAll Ex.heap t 0%N
                   [Ex.block_ab; Ex.block1; Ex.block_ab; Ex.block3])).*1
         = [[]; [(Ex.colC, VInt 1)]; [(Ex.colC, VInt 3)]]
       ∧ NoDup (cache (processAll Ex.heap t 0%N
                   [Ex.block_ab; Ex.block1; Ex.block_ab; Ex.block3])).*1.
Proof.
  eexists. split; [reflexivity|]. split; [reflexivity|].
  apply (stream_cache_keys (DS:=nat) 7%N AccumulatingMode
           (ProcSort (SortProcedureSpec.Mk Ex.cols_a false)) tt _ Ex.heap 0%N
           [Ex.block_ab; Ex.block1; Ex.block_ab; Ex.block3] eq_refl).
Defined.

Lemma processAll_other_builders {DS} h id bs :
  ∀ (t : sortTransformation DS) key,
    (∀ b, b ∈ bs →
          sortedKey (GoSlice.elems h (cols t)) (Key b) ≠ Some key) →
    lookupBuilder key (cache (processAll h t id bs))
    = lookupBuilder key (cache t).
Proof.
  induction bs as [|b bs IH]; intros t key Hother; [done|].
  rewrite processAll_cons, IH.
  - apply Process_other_builders. rewrite passedKey_sortedKey.
    apply Hother. left.
  - intros b' Hb'. rewrite Process_cols. apply Hother. by right.
Qed.

Lemma stream_sorted_aux {DS} h id bs :
  ∀ (t : sortTransformation DS) keys,
    colMapIdentity (colMap t) →
    Forall rectangular bs →
    streamKeys (GoSlice.elems h (cols t)) bs = Some keys →
    NoDup keys →
    (∀ key, key ∈ keys → ¬ hasBuilder key (cache t)) →
    ∀ i b key, bs !! i = Some b → keys !! i = Some key →
      emittedRows key (processAll h t id bs)
      = Some (sortRows
                (sortIdxs (GoSlice.elems h (cols t)) (BlockCols b)) (desc t)
                (rowsOf (BlockData b))).
Proof.
  unfold streamKeys.
  induction bs as [|b0 bs IH]; intros t keys Hid Hrect Hkeys Hnd Hnew i b key
    Hb Hkey; [done|].
  apply mapM_Some_1 in Hkeys.
  destruct keys as [|k0 keys]; [by inversion Hkeys|].
  apply Forall2_cons in Hkeys as [Hk0 Hkeys%mapM_Some_2].
  apply Forall_cons in Hrect as [Hr0 Hrect].
  apply NoDup_cons in Hnd as [Hk0n Hnd].
  destruct (Process_new_key h t id b0 k0 Hid Hr0 Hk0) as (cm & _ & HP).
  { apply Hnew. left. }
  rewrite processAll_cons.
  destruct i as [|i]; simpl in Hb, Hkey.
  - injection Hb as <-. injection Hkey as <-.
    unfold emittedRows. rewrite processAll_other_builders.
    + rewrite HP. simpl. rewrite lookupBuilder_app.
      rewrite (proj2 (lookupBuilder_None_hasBuilder _ _) (Hnew k0 ltac:(left))).
      simpl. rewrite decide_True by done. simpl. f_equal.
      unfold builtFrom. by rewrite builderRows_Sort.
    + intros b' Hb' Hs. rewrite Process_cols in Hs. apply Hk0n.
      apply mapM_Some_1 in Hkeys.
      apply list_elem_of_lookup in Hb' as [j Hj].
      destruct (Forall2_lookup_l _ _ _ _ _ Hkeys Hj) as (k' & Hk' & Hs').
      simpl in Hs'. rewrite Hs in Hs'. injection Hs' as <-.
      by apply list_elem_of_lookup_2 in Hk'.
  - assert (Hc : cols (final (Process h t id b0)) = cols t)
      by apply Process_cols.
    assert (Hd : desc (final (Process h t id b0)) = desc t)
      by apply Process_d_desc.
    rewrite <- Hc, <- Hd.
    apply (IH _ keys) with (i := i); try done.
    + by apply Process_colMap_identity.
    + by rewrite Hc.
    + intros k Hk Hhas. rewrite HP in Hhas. simpl in Hhas.
      unfold hasBuilder in Hhas. rewrite lookupBuilder_app_ne in Hhas.
      * apply (Hnew k); [by right|done].
      * intros ->. done.
Qed.

(** X12: when the keys that [sortedKey] returns for the blocks of a stream
    are pairwise distinct and none has a builder yet, and every block has
    one data column per column, then after the whole stream has gone
    through a node that execution can produce, the builder of each block's
    key holds that block's rows, sorted. *)
Theorem stream_blocks_sorted {DS} `{Dataset DS} h
    (t : sortTransformation DS) id bs keys :
  let tcols := GoSlice.elems h (cols t) in
  reachable h t →
  Forall rectangular bs →
  streamKeys tcols bs = Some keys →
  NoDup keys →
  (∀ key, key ∈ keys → ¬ hasBuilder key (cache t)) →
  ∀ i b key, bs !! i = Some b → keys !! i = Some key →
    emittedRows key (processAll h t id bs)
    = Some (sortRows (sortIdxs tcols (BlockCols b)) (desc t)
              (rowsOf (BlockData b))).
Proof.
  intros tcols Hreach. apply stream_sorted_aux.
  by apply (reachable_colMapIdentity h).
Qed.

Lemma stream_blocks_sorted_witness :
  let t := Ex2.node Ex.cols_a false in
  let bs := [Ex.block3; Ex.block_ab; Ex.block1] in
  streamKeys ["a"%string] bs
  = Some [[(Ex.colC, VInt 3)]; []; [(Ex.colC, VInt 1)]]
  ∧ emittedRows [] (processAll Ex.heap t 0%N bs)
    = Some [[VInt 1; VString "y"]; [VInt 1; VString "z"];
            [VInt 3; VString "x"]].
Proof.
  intros t bs. split; [reflexivity|].
  refine (stream_blocks_sorted Ex.heap t 0%N bs
            [[(Ex.colC, VInt 3)]; []; [(Ex.colC, VInt 1)]]
            (reach_New _ _ _ _) _ eq_refl _ _ 1 Ex.block_ab [] eq_refl eq_refl).
  - repeat constructor.
  - apply (bool_decide_unpack _). vm_compute. reflexivity.
  - intros key _ [x Hx]. discriminate Hx.
Defined.

(** ** The column-map buffer over time *)

(** X13: resizing the column map never fails, whatever the buffer holds:
    whenever [Process] gets past the cache, the buffer afterwards has the
    block's column count as its length and the larger of its old capacity
    and that count as its capacity; and no call of [Process] ever makes the
    capacity smaller. *)
Theorem Process_colMap_capacity {DS} h (t : sortTransformation DS) id b :
  icap (colMap t) ≤ icap (colMap (final (Process h t id b)))
  ∧ (∀ key, passedKey (Process h t id b) = Some key →
       ¬ hasBuilder key (cache t) →
       ilen (colMap (final (Process h t id b))) = length (BlockCols b)
       ∧ icap (colMap (final (Process h t id b)))
         = icap (colMap t) `max` length (BlockCols b)).
Proof.
  unfold Process. destruct (processKey _ _ _) as [k|]; [|by split].
  unfold CacheBlockBuilder.
  destruct (lookupBuilder k (cache t)) as [bld|] eqn:Hl; simpl.
  - split; [done|]. intros key [= <-] Hn. exfalso. apply Hn.
    unfold hasBuilder. by rewrite Hl.
  - rewrite AddBlockCols_new. unfold NCols. simpl.
    destruct (resizeColMap_total (colMap t) (length (BlockCols b)))
      as (cm & -> & Hlen & Hcap).
    assert (Hgoal : icap (colMap t) ≤ icap cm
                    ∧ (∀ key : PartitionKey, Some k = Some key →
                         ¬ hasBuilder key (cache t) →
                         ilen cm = length (BlockCols b)
                         ∧ icap cm = icap (colMap t) `max` length (BlockCols b)))
      by (split; [lia|done]).
    by destruct (AppendBlock _ _ _).
Qed.

(** ** Building the operation specification from arguments *)

Lemma lit_extends (xs : list string) (h : Heap) :
  (GoSlice.lit xs h).2 = h ++ [xs]
  ∧ GoSlice.valid (GoSlice.lit xs h).2 (GoSlice.lit xs h).1.
Proof.
  split; [done|]. unfold GoSlice.lit, GoSlice.valid. simpl.
  split; [done|]. right. exists xs.
  by rewrite lookup_app_r, Nat.sub_diag by lia.
Qed.

(** What [createSortOpSpec] returns once the parents have resolved. *)
Lemma createSortOpSpec_resolved {Administration : Type}
    (AddParentFromArgs :
       Arguments_ → Administration → option error * Administration)
    (DefaultValueColLabel : string)
    (args : Arguments_) (a a' : Administration) (h : Heap) :
  AddParentFromArgs args a = (None, a') →
  match colsArg DefaultValueColLabel args, descArg args with
  | Some strs, Some dsc =>
      ∃ spec,
        createSortOpSpec AddParentFromArgs DefaultValueColLabel args a h
        = (Ok (OpSort spec), a', h ++ [strs])
        ∧ GoSlice.elems (h ++ [strs]) (SortOpSpec.Cols spec) = strs
        ∧ GoSlice.valid (h ++ [strs]) (SortOpSpec.Cols spec)
        ∧ SortOpSpec.Desc spec = dsc
  | _, _ =>
      ∃ e h',
        createSortOpSpec AddParentFromArgs DefaultValueColLabel args a h
        = (Err e, a', h')
  end.
Proof.
  intros Hparent.
  unfold createSortOpSpec, colsArg, descArg, GetArray, GetBool,
    ToStringArray.
  rewrite Hparent.
  assert (Hlit : ∀ strs dsc,
    ∃ spec,
      (let '(s, h') := GoSlice.lit strs h in
       (Ok (OpSort (SortOpSpec.Mk s dsc)), a', h'))
      = (Ok (OpSort spec), a', h ++ [strs])
      ∧ GoSlice.elems (h ++ [strs]) (SortOpSpec.Cols spec) = strs
      ∧ GoSlice.valid (h ++ [strs]) (SortOpSpec.Cols spec)
      ∧ SortOpSpec.Desc spec = dsc).
  { intros strs dsc. pose proof (elems_lit strs h) as He.
    pose proof (lit_extends strs h) as [Hh Hv].
    destruct (GoSlice.lit strs h) as [s h']. simpl in *. subst h'.
    by exists (SortOpSpec.Mk s dsc). }
  destruct (args !! "cols"%string) as [[s|i|bv|k vs]|] eqn:Hcols; simpl;
    try (destruct (args !! "desc"%string) as [[?|?|?|? ?]|];
         by eexists _, _).
  - destruct (decide (k = KString)) as [->|Hk].
    + simpl. destruct (mapM argString vs) as [strs|] eqn:Hstrs; simpl.
      * destruct (args !! "desc"%string) as [[?|?|dsc|? ?]|] eqn:Hdesc;
          simpl; try by eexists _, _.
        -- exact (Hlit strs dsc).
        -- exact (Hlit strs false).
      * destruct (args !! "desc"%string) as [[?|?|?|? ?]|];
          by eexists _, _.
    + destruct k; try done;
        destruct (args !! "desc"%string) as [[?|?|?|? ?]|];
        by eexists _, _.
  - destruct (args !! "desc"%string) as [[?|?|dsc|? ?]|] eqn:Hdesc;
      simpl; try by eexists _, _.
    + exact (Hlit [DefaultValueColLabel] dsc).
    + exact (Hlit [DefaultValueColLabel] false).
Qed.

(** X14: when the parents resolve, [createSortOpSpec] succeeds exactly when
    ["cols"] is absent or an array of strings and ["desc"] is absent or a
    boolean; the specification then has the strings of ["cols"] (the
    default label when absent) as its column list, in a newly allocated
    array, and the value of ["desc"] (ascending when absent) as its
    direction. Otherwise it returns an error. *)
Theorem createSortOpSpec_result {Administration : Type}
    (AddParentFromArgs :
       Arguments_ → Administration → option error * Administration)
    (DefaultValueColLabel : string)
    (args : Arguments_) (a a' : Administration) (h : Heap) :
  AddParentFromArgs args a = (None, a') →
  let run := createSortOpSpec AddParentFromArgs DefaultValueColLabel args a h in
  ((∃ qs, run.1.1 = Ok qs)
   ↔ is_Some (colsArg DefaultValueColLabel args) ∧ is_Some (descArg args))
  ∧ (∀ strs dsc,
       colsArg DefaultValueColLabel args = Some strs →
       descArg args = Some dsc →
       ∃ spec,
         run = (Ok (OpSort spec), a', h ++ [strs])
         ∧ GoSlice.elems (h ++ [strs]) (SortOpSpec.Cols spec) = strs
         ∧ GoSlice.valid (h ++ [strs]) (SortOpSpec.Cols spec)
         ∧ SortOpSpec.Desc spec = dsc).
Proof.
  intros Hparent run.
  pose proof (createSortOpSpec_resolved AddParentFromArgs
                DefaultValueColLabel args a a' h Hparent) as Hres.
  fold run in Hres.
  destruct (colsArg _ _) as [strs|];
    [destruct (descArg _) as [dsc|]|].
  - destruct Hres as (spec & Hr & Hrest). split.
    + split; [intros _; split; by eexists|].
      intros _. rewrite Hr. by eexists.
    + intros ? ? [= <-] [= <-]. by exists spec.
  - destruct Hres as (e & h1 & Hr). split; [|done].
    rewrite Hr. split; [by intros [? ?]|by intros [_ [? ?]]].
  - destruct Hres as (e & h1 & Hr). split; [|done].
    rewrite Hr. split; [by intros [? ?]|by intros [[? ?] _]].
Qed.

Lemma createSortOpSpec_result_witness :
  let addParent := λ (_ : Arguments_) (a : unit), (@None error, a) in
  let args : Arguments_ :=
    <["cols"%string := AArray KString [AString "b"; AString "a"]]>
      (<["desc"%string := ABool true]> ∅) in
  ∃ spec,
    createSortOpSpec addParent "_value"%string args tt []
    = (Ok (OpSort spec), tt, [["b"; "a"]%string])
    ∧ GoSlice.elems [["b"; "a"]%string] (SortOpSpec.Cols spec)
      = ["b"; "a"]%string
    ∧ SortOpSpec.Desc spec = true.
Proof.
  intros addParent args.
  destruct (proj2 (createSortOpSpec_result addParent "_value"%string args
                     tt tt [] eq_refl) ["b"; "a"]%string true
              eq_refl eq_refl) as (spec & Hr & He & _ & Hd).
  exists spec. split; [exact Hr|]. split; [exact He|exact Hd].
Defined.

Lemma createSortOpSpec_heap_cases {Administration : Type}
    (AddParentFromArgs :
       Arguments_ → Administration → option error * Administration)
    (DefaultValueColLabel : string)
    (args : Arguments_) (a : Administration) (h : Heap) :
  let h' :=
    (createSortOpSpec AddParentFromArgs DefaultValueColLabel args a h).2 in
  h' = h ∨ ∃ xs, h' = h ++ [xs].
Proof.
  unfold createSortOpSpec, GetArray, GetBool, ToStringArray.
  destruct (AddParentFromArgs args a) as [[e|] a']; simpl; [by left|].
  destruct (args !! "cols"%string) as [[s|i|bv|k vs]|]; simpl;
    try by left.
  - destruct (decide (k = KString)) as [->|Hk]; simpl; [|by left].
    destruct (mapM argString vs) as [strs|]; simpl; [|by left].
    destruct (args !! "desc"%string) as [[?|?|?|? ?]|]; simpl;
      right; by eexists.
  - destruct (args !! "desc"%string) as [[?|?|?|? ?]|]; simpl;
      right; by eexists.
Qed.

(** X15: [createSortOpSpec] never writes into an array that exists: the
    heap afterwards is the heap before, followed by at most one new array,
    so every valid slice holds the same elements as before; and when the
    parents do not resolve, the error returned is that of the resolution
    and nothing is allocated, whatever the other arguments are. *)
Theorem createSortOpSpec_heap {Administration : Type}
    (AddParentFromArgs :
       Arguments_ → Administration → option error * Administration)
    (DefaultValueColLabel : string)
    (args : Arguments_) (a : Administration) (h : Heap) :
  let run := createSortOpSpec AddParentFromArgs DefaultValueColLabel args a h in
  extends run.2 h
  ∧ length run.2 ≤ S (length h)
  ∧ (∀ s, GoSlice.valid h s →
          GoSlice.valid run.2 s ∧ GoSlice.elems run.2 s = GoSlice.elems h s)
  ∧ (∀ e a', AddParentFromArgs args a = (Some e, a') →
             run = (Err e, a', h)).
Proof.
  intros run.
  pose proof (createSortOpSpec_heap_cases AddParentFromArgs
                DefaultValueColLabel args a h) as Hh.
  simpl in Hh. fold run in Hh. split_and!.
  - destruct Hh as [->|[xs ->]]; [exists []; by rewrite app_nil_r|by exists [xs]].
  - destruct Hh as [->|[xs ->]]; [lia|]. rewrite length_app. simpl. lia.
  - intros s Hs. destruct Hh as [->|[xs ->]]; [done|].
    split; [by apply valid_alloc|by apply elems_alloc].
  - intros e a' Hp. unfold run, createSortOpSpec. by rewrite Hp.
Qed.

(** ** From the arguments to the node *)

(** X16: whatever [createSortOpSpec] returns without error is accepted by
    [newSortProcedure], and what that returns is accepted by
    [createSortTransformation]: neither can fail with "invalid spec type".
    The node so made sorts by the column list and in the direction that
    the arguments asked for, and its column slice is the very slice of the
    operation specification (no copy is made on the way). *)
Theorem arguments_to_node {Administration PA A DS : Type} `{Dataset DS}
    (AddParentFromArgs :
       Arguments_ → Administration → option error * Administration)
    (DefaultValueColLabel : string)
    (args : Arguments_) (a a' : Administration) (h h' : Heap)
    (qs : OperationSpec) (pa : PA) (id : DatasetID)
    (mode : AccumulationMode) (adm : A) :
  createSortOpSpec AddParentFromArgs DefaultValueColLabel args a h
  = (Ok qs, a', h') →
  ∃ spec ps (t : sortTransformation DS),
    qs = OpSort spec
    ∧ newSortProcedure qs pa = Some (Ok ps)
    ∧ createSortTransformation id mode ps adm = Some (Ok t)
    ∧ cols t = SortOpSpec.Cols spec
    ∧ Some (GoSlice.elems h' (cols t)) = colsArg DefaultValueColLabel args
    ∧ Some (desc t) = descArg args
    ∧ cache t = [].
Proof.
  intros Hrun.
  destruct (AddParentFromArgs args a) as [[e|] a1] eqn:Hp.
  { unfold createSortOpSpec in Hrun. by rewrite Hp in Hrun. }
  pose proof (createSortOpSpec_resolved AddParentFromArgs
                DefaultValueColLabel args a a1 h Hp) as Hres.
  destruct (colsArg _ _) as [strs|];
    [destruct (descArg _) as [dsc|]|].
  - destruct Hres as (spec & Hr & He & _ & Hd).
    rewrite Hr in Hrun. injection Hrun as <- <- <-.
    eexists spec, _, _. split_and!; try done; simpl; by f_equal.
  - destruct Hres as (e & h1 & Hr). by rewrite Hr in Hrun.
  - destruct Hres as (e & h1 & Hr). by rewrite Hr in Hrun.
Qed.

Lemma arguments_to_node_witness :
  let addParent := λ (_ : Arguments_) (a : unit), (@None error, a) in
  let args : Arguments_ := <["desc"%string := ABool true]> ∅ in
  ∃ qs (t : sortTransformation nat),
    createSortOpSpec addParent "_value"%string args tt []
    = (Ok qs, tt, [["_value"%string]])
    ∧ GoSlice.elems [["_value"%string]] (cols t) = ["_value"%string]
    ∧ desc t = true.
Proof.
  intros addParent args.
  assert (Hrun : ∃ qs, createSortOpSpec addParent "_value"%string args tt []
                       = (Ok qs, tt, [["_value"%string]]))
    by (eexists; reflexivity).
  destruct Hrun as [qs Hrun].
  destruct (arguments_to_node (DS:=nat) addParent "_value"%string args tt tt
              [] _ qs tt 7%N AccumulatingMode tt Hrun)
    as (spec & ps & t & _ & _ & _ & _ & He & Hd & _).
  exists qs, t. split; [exact Hrun|].
  injection He as He. injection Hd as Hd. split; [exact He|exact Hd].
Defined.

(** ** Sharing and copying of column lists *)

Lemma Copy_heap_eq (s : SortProcedureSpec.t) (h : Heap) :
  GoSlice.valid h (SortProcedureSpec.Cols s) →
  let n := GoSlice.len (SortProcedureSpec.Cols s) in
  Copy s h
  = (ProcSort (SortProcedureSpec.Mk (GoSlice.MkSlice (length h) 0 n n)
                 (SortProcedureSpec.Desc s)),
     h ++ [GoSlice.elems h (SortProcedureSpec.Cols s)]).
Proof.
  intros Hv n. rewrite Copy_eq. fold n.
  rewrite (elems_alloc _ _ _ Hv).
  rewrite drop_ge, app_nil_r by (by rewrite length_replicate).
  rewrite take_ge; [done|].
  unfold GoSlice.elems. rewrite length_take. fold n. lia.
Qed.

(** X17: [Copy] allocates exactly one array, which holds the elements of
    the original's column list, and writes nowhere else: every slice that
    was valid is still valid and holds what it held. The copy's slice
    starts at the head of the new array and its capacity is its length,
    whatever capacity the original has. *)
Theorem Copy_allocates_one_array (s : SortProcedureSpec.t) (h : Heap) :
  GoSlice.valid h (SortProcedureSpec.Cols s) →
  ∃ ns,
    Copy s h
    = (ProcSort ns, h ++ [GoSlice.elems h (SortProcedureSpec.Cols s)])
    ∧ GoSlice.base (SortProcedureSpec.Cols ns) = length h
    ∧ GoSlice.off (SortProcedureSpec.Cols ns) = 0
    ∧ GoSlice.len (SortProcedureSpec.Cols ns)
      = GoSlice.len (SortProcedureSpec.Cols s)
    ∧ GoSlice.cap (SortProcedureSpec.Cols ns)
      = GoSlice.len (SortProcedureSpec.Cols s)
    ∧ ∀ s', GoSlice.valid h s' →
        GoSlice.valid (Copy s h).2 s'
        ∧ GoSlice.elems (Copy s h).2 s' = GoSlice.elems h s'.
Proof.
  intros Hv. rewrite (Copy_heap_eq s h Hv). eexists. split; [done|].
  simpl. split_and!; [done..|].
  intros s' Hs'. split; [by apply valid_alloc|by apply elems_alloc].
Qed.

Lemma Copy_allocates_one_array_witness :
  let s := SortProcedureSpec.Mk (GoSlice.MkSlice 0 1 1 2) false in
  GoSlice.valid Ex.heap (SortProcedureSpec.Cols s)
  ∧ GoSlice.elems Ex.heap (SortProcedureSpec.Cols s) = ["z"%string]
  ∧ ∃ ns, Copy s Ex.heap = (ProcSort ns, Ex.heap ++ [["z"%string]])
          ∧ GoSlice.cap (SortProcedureSpec.Cols ns) = 1.
Proof.
  intros s.
  assert (Hv : GoSlice.valid Ex.heap (SortProcedureSpec.Cols s)).
  { split; [simpl; lia|]. right. exists ["b"; "z"; "a"]%string.
    split; [reflexivity|simpl; lia]. }
  split; [exact Hv|]. split; [reflexivity|].
  destruct (Copy_allocates_one_array s Ex.heap Hv)
    as (ns & Hc & _ & _ & _ & Hcap & _).
  exists ns. split; [exact Hc|exact Hcap].
Defined.

(** X18: [newSortProcedure] shares the column list and [Copy] separates
    it: after a procedure specification has been derived from an operation
    specification and then copied, an element written through the operation
    specification's list shows in the derived specification's list and not
    in the copy's. *)
Theorem derived_shares_copy_separates {PA} (s : SortOpSpec.t) (pa : PA)
    (ps ns : SortProcedureSpec.t) (h h' h'' : Heap) i v :
  GoSlice.valid h (SortOpSpec.Cols s) →
  newSortProcedure (OpSort s) pa = Some (Ok (ProcSort ps)) →
  Copy ps h = (ProcSort ns, h') →
  GoSlice.set h' (SortOpSpec.Cols s) i v = Some h'' →
  GoSlice.elems h'' (SortProcedureSpec.Cols ps)
  = <[i := v]> (GoSlice.elems h (SortOpSpec.Cols s))
  ∧ GoSlice.elems h'' (SortProcedureSpec.Cols ns)
    = GoSlice.elems h (SortOpSpec.Cols s).
Proof.
  intros Hv [= <-] Hc Hset. simpl in *.
  rewrite (Copy_heap_eq (SortProcedureSpec.Mk (SortOpSpec.Cols s)
                           (SortOpSpec.Desc s)) h Hv) in Hc. simpl in Hc.
  injection Hc as <- <-. simpl. split.
  - rewrite (elems_set_same _ _ _ _ _ Hset). f_equal.
    by apply elems_alloc.
  - assert (Hi : i < GoSlice.len (SortOpSpec.Cols s)).
    { unfold GoSlice.set in Hset. by case_decide. }
    assert (Hbase : GoSlice.base (SortOpSpec.Cols s) ≠ length h).
    { destruct Hv as [Hle [Hcap|(arr & Ha & _)]]; [lia|].
      apply lookup_lt_Some in Ha. lia. }
    rewrite (elems_set_other _ h'' (SortOpSpec.Cols s)
               (GoSlice.MkSlice (length h) 0
                  (GoSlice.len (SortOpSpec.Cols s))
                  (GoSlice.len (SortOpSpec.Cols s))) i v Hbase Hset).
    unfold GoSlice.elems at 1, GoSlice.backing. simpl.
    rewrite lookup_app_r, Nat.sub_diag by lia. simpl.
    apply take_ge. unfold GoSlice.elems. rewrite length_take. lia.
Qed.

Lemma derived_shares_copy_separates_witness :
  let s := SortOpSpec.Mk Ex.cols_bza false in
  let ps := SortProcedureSpec.Mk Ex.cols_bza false in
  ∃ ns h' h'',
    Copy ps Ex.heap = (ProcSort ns, h')
    ∧ GoSlice.set h' (SortOpSpec.Cols s) 1 "q"%string = Some h''
    ∧ GoSlice.elems h'' (SortProcedureSpec.Cols ps) = ["b"; "q"; "a"]%string
    ∧ GoSlice.elems h'' (SortProcedureSpec.Cols ns) = ["b"; "z"; "a"]%string.
Proof.
  intros s ps.
  assert (Hv : GoSlice.valid Ex.heap (SortOpSpec.Cols s)).
  { split; [simpl; lia|]. right. exists ["b"; "z"; "a"]%string.
    split; [reflexivity|simpl; lia]. }
  eexists _, _, _. split; [reflexivity|]. split; [reflexivity|].
  apply (derived_shares_copy_separates s tt ps _ Ex.heap _ _ 1 "q"%string
           Hv eq_refl eq_refl eq_refl).
Defined.

(** ** Interleaved lifecycle calls *)

(** X19: the column map passed to the row-append helper is the identity on
    the block's column count in every node that execution can produce, that
    is also when retractions, watermark and processing-time updates and
    Finish calls on any dataset come between the blocks. *)
Theorem reachable_colMap_identity {DS} `{Dataset DS} h
    (t : sortTransformation DS) id b b' ncols cm :
  reachable h t →
  CallAppendBlock b' ncols cm ∈ calls (Process h t id b) →
  b' = b ∧ ncols = length (BlockCols b) ∧ cm = seq 0 ncols.
Proof.
  intros Hreach Hin.
  pose proof (reachable_colMapIdentity h t Hreach) as Hid.
  apply Process_append_call in Hin as (s' & Hr & -> & -> & -> & _).
  destruct (resizeColMap_identity (colMap t) (length (BlockCols b)) Hid)
    as (s'' & Hr' & _ & He).
  assert (s'' = s') as -> by congruence. done.
Qed.

Lemma reachable_colMap_identity_witness :
  let t0 := Ex2.node Ex.cols_x false in
  let t1 := final (Process Ex.heap t0 0%N Ex.block3) in
  let t2 := (RetractBlock t1 0%N [(Ex.colC, VInt 3)]).2 in
  let t3 := (UpdateWatermark t2 0%N 5%Z).2 in
  reachable Ex.heap t3
  ∧ CallAppendBlock Ex.block_ab 2 [0; 1]
    ∈ calls (Process Ex.heap t3 0%N Ex.block_ab).
Proof.
  intros t0 t1 t2 t3.
  assert (Hreach : reachable Ex.heap t3)
    by (apply reach_UpdateWatermark, reach_RetractBlock, reach_Process,
          reach_New).
  assert (Hin : CallAppendBlock Ex.block_ab 2 [0; 1]
                ∈ calls (Process Ex.heap t3 0%N Ex.block_ab))
    by (apply (bool_decide_unpack _); vm_compute; reflexivity).
  split; [exact Hreach|].
  destruct (reachable_colMap_identity Ex.heap t3 0%N Ex.block_ab _ _ _
              Hreach Hin) as (_ & _ & _).
  exact Hin.
Defined.

(** ** The role check *)

Lemma rank_cases (role : string) :
  (role = Authorized.VIEWER_ROLE ∧ Authorized.rank role = Some 1)
  ∨ (role = Authorized.EDITOR_ROLE ∧ Authorized.rank role = Some 2)
  ∨ (role = Authorized.ADMIN_ROLE ∧ Authorized.rank role = Some 3)
  ∨ (role = Authorized.SUPERADMIN_ROLE ∧ Authorized.rank role = Some 4)
  ∨ (Authorized.rank role = None
     ∧ String.eqb role Authorized.VIEWER_ROLE = false
     ∧ String.eqb role Authorized.EDITOR_ROLE = false
     ∧ String.eqb role Authorized.ADMIN_ROLE = false
     ∧ String.eqb role Authorized.SUPERADMIN_ROLE = false).
Proof.
  unfold Authorized.rank.
  destruct (String.eqb role Authorized.VIEWER_ROLE) eqn:E1;
    [apply String.eqb_eq in E1; subst; by left|].
  destruct (String.eqb role Authorized.EDITOR_ROLE) eqn:E2;
    [apply String.eqb_eq in E2; subst; right; by left|].
  destruct (String.eqb role Authorized.ADMIN_ROLE) eqn:E3;
    [apply String.eqb_eq in E3; subst; do 2 right; by left|].
  destruct (String.eqb role Authorized.SUPERADMIN_ROLE) eqn:E4;
    [apply String.eqb_eq in E4; subst; do 3 right; by left|].
  do 4 right. done.
Qed.

(** X20: [isUserAuthorized] is the order viewer < editor < admin <
    superadmin: it returns true exactly when both strings are one of the
    four roles and the user's role is at least the required one. A role
    that is none of the four (such as ["none"]) is authorized for nothing,
    and nothing is authorized for a required role that is none of the
    four. *)
Theorem isUserAuthorized_is_rank_order (meRole requiredRole : string) :
  Authorized.isUserAuthorized meRole requiredRole = true
  ↔ ∃ m r, Authorized.rank meRole = Some m
           ∧ Authorized.rank requiredRole = Some r ∧ r ≤ m.
Proof.
  unfold Authorized.isUserAuthorized.
  destruct (rank_cases requiredRole)
    as [[-> Hr]|[[-> Hr]|[[-> Hr]|[[-> Hr]|(Hr & R1 & R2 & R3 & R4)]]]];
    rewrite Hr; try rewrite R1, R2, R3, R4;
    [| | | |split; [done|by intros (m & r & _ & ? & _)]];
    (destruct (rank_cases meRole)
      as [[-> Hm]|[[-> Hm]|[[-> Hm]|[[-> Hm]|(Hm & M1 & M2 & M3 & M4)]]]];
     rewrite Hm; try rewrite M1, M2, M3, M4; simpl;
     (split;
      [first [ done | intros _; eexists _, _; split_and!; [done|done|lia] ]
      |first [ done | intros (m & r & [= <-] & [= <-] & Hle); lia
             | by intros (m & r & ? & _) ]])).
Qed.

(** ** The order of the sorted rows *)

(** The comparison of two values says "less" exactly when the first is
    before the second in the order of their type. *)
Lemma compareValues_Lt v1 v2 : compareValues v1 v2 = Lt ↔ valueLt v1 v2.
Proof.
  split.
  - destruct v1, v2; simpl; try discriminate; intros Hc.
    + destruct b, b0; try discriminate. constructor.
    + constructor. by apply Z.compare_lt_iff.
    + constructor. by apply N.compare_lt_iff.
    + constructor. by apply String_as_OT.cmp_lt.
    + constructor. by apply Z.compare_lt_iff.
  - intros Hlt. destruct Hlt; simpl; [done|..].
    + by apply Z.compare_lt_iff.
    + by apply N.compare_lt_iff.
    + by apply String_as_OT.cmp_lt.
    + by apply Z.compare_lt_iff.
Qed.

Lemma compareValues_Eq v1 v2 :
  sameType v1 v2 → compareValues v1 v2 = Eq → v1 = v2.
Proof.
  destruct v1, v2; simpl; try done; intros _ Hc.
  - by destruct b, b0.
  - f_equal. by apply Z.compare_eq_iff.
  - f_equal. by apply N.compare_eq_iff.
  - f_equal. by apply String.compare_eq_iff.
  - f_equal. by apply Z.compare_eq_iff.
Qed.

Lemma valueLt_trans v1 v2 v3 : valueLt v1 v2 → valueLt v2 v3 → valueLt v1 v3.
Proof.
  intros H12 H23. destruct H12; inversion H23; subst; constructor; try lia.
  eapply String_as_OT.lt_trans; eauto.
Qed.

Lemma compareValues_Lt_trans v1 v2 v3 :
  compareValues v1 v2 = Lt → compareValues v2 v3 = Lt →
  compareValues v1 v3 = Lt.
Proof.
  rewrite !compareValues_Lt. apply valueLt_trans.
Qed.

Lemma sameType_sym v1 v2 : sameType v1 v2 → sameType v2 v1.
Proof. by destruct v1, v2. Qed.

Lemma sameType_trans v1 v2 v3 :
  sameType v1 v2 → sameType v2 v3 → sameType v1 v3.
Proof. by destruct v1, v2, v3. Qed.

Lemma agree_cons j idxs r1 r2 :
  agree (j :: idxs) r1 r2
  ↔ sameType (default VNil (r1 !! j)) (default VNil (r2 !! j))
    ∧ agree idxs r1 r2.
Proof. unfold agree. by rewrite list.Forall_cons. Qed.

(** Rows that compare equal have the same values on the sort columns. *)
Lemma compareRows_Eq idxs r1 r2 :
  agree idxs r1 r2 → compareRows idxs r1 r2 = Eq →
  sortKeyOf idxs r1 = sortKeyOf idxs r2.
Proof.
  unfold sortKeyOf. induction idxs as [|j idxs IH]; [done|].
  rewrite agree_cons. intros [Hj Hrest]. simpl.
  destruct (compareValues _ _) eqn:Hc; try discriminate.
  intros Hr. csimpl. f_equal; [by apply compareValues_Eq|by apply IH].
Qed.

(** The comparison looks at the values on the sort columns only. *)
Lemma compareRows_ext idxs r1 r1' r2 r2' :
  sortKeyOf idxs r1 = sortKeyOf idxs r1' →
  sortKeyOf idxs r2 = sortKeyOf idxs r2' →
  compareRows idxs r1 r2 = compareRows idxs r1' r2'.
Proof.
  unfold sortKeyOf. induction idxs as [|j idxs IH]; [done|].
  csimpl. intros [= -> H1] [= -> H2]. by rewrite (IH H1 H2).
Qed.

Lemma compareRows_Lt_trans idxs r1 r2 r3 :
  agree idxs r1 r2 → agree idxs r2 r3 →
  compareRows idxs r1 r2 = Lt → compareRows idxs r2 r3 = Lt →
  compareRows idxs r1 r3 = Lt.
Proof.
  induction idxs as [|j idxs IH]; [done|].
  rewrite !agree_cons. intros [Ha12 Hr12] [Ha23 Hr23]. simpl.
  destruct (compareValues (default VNil (r1 !! j)) (default VNil (r2 !! j)))
    eqn:H12; try discriminate;
  destruct (compareValues (default VNil (r2 !! j)) (default VNil (r3 !! j)))
    eqn:H23; try discriminate; intros Hc12 Hc23.
  - apply compareValues_Eq in H12, H23; [|done..].
    rewrite H12, H23, compareValues_refl. by apply IH.
  - apply compareValues_Eq in H12; [|done]. by rewrite H12, H23.
  - apply compareValues_Eq in H23; [|done]. by rewrite <- H23, H12.
  - by rewrite (compareValues_Lt_trans _ _ _ H12 H23).
Qed.

(** A sort key that is before another makes its row compare as less. *)
Lemma keyLt_compareRows idxs r1 r2 :
  keyLt (sortKeyOf idxs r1) (sortKeyOf idxs r2) →
  compareRows idxs r1 r2 = Lt.
Proof.
  unfold sortKeyOf. induction idxs as [|j idxs IH]; csimpl.
  - inversion 1.
  - inversion 1 as [v1 v2 k1 k2 Hv|v k1 k2 Hk Hv1]; subst.
    + apply compareValues_Lt in Hv. by rewrite Hv.
    + rewrite compareValues_refl. by apply IH.
Qed.

Lemma notAfter_asc_trans idxs r1 r2 r3 :
  agree idxs r1 r2 → agree idxs r2 r3 →
  notAfter idxs false r1 r2 → notAfter idxs false r2 r3 →
  notAfter idxs false r1 r3.
Proof.
  unfold notAfter, rowLess. simpl. intros A12 A23 H12 H23.
  destruct (compareRows idxs r3 r1) eqn:H31; try done. exfalso.
  assert (A21 : agree idxs r2 r1).
  { unfold agree in *. eapply Forall_impl; [exact A12|].
    intros j. apply sameType_sym. }
  assert (A32 : agree idxs r3 r2).
  { unfold agree in *. eapply Forall_impl; [exact A23|].
    intros j. apply sameType_sym. }
  destruct (compareRows idxs r2 r1) eqn:H21; try done.
  - apply compareRows_Eq in H21; [|done].
    rewrite (compareRows_ext idxs r3 r3 r1 r2) in H31 by done.
    by rewrite H31 in H23.
  - pose proof (compareRows_antisym idxs r2 r1) as Ha. rewrite H21 in Ha.
    simpl in Ha.
    pose proof (compareRows_Lt_trans idxs r3 r1 r2) as Ht.
    rewrite Ht in H23; try done.
    unfold agree in *. apply Forall_forall. intros j Hj.
    eapply sameType_trans.
    + apply (proj1 (Forall_forall _ _) A32 j Hj).
    + apply (proj1 (Forall_forall _ _) A21 j Hj).
Qed.

Lemma notAfter_desc idxs r1 r2 :
  notAfter idxs true r1 r2 ↔ notAfter idxs false r2 r1.
Proof. unfold notAfter. by rewrite rowLess_desc. Qed.

(** Among rows that hold values of one type per column, the order is
    transitive. *)
Lemma notAfter_trans (P : list Value → Prop) idxs desc r1 r2 r3 :
  (∀ x y, P x → P y → agree idxs x y) →
  P r1 → P r2 → P r3 →
  notAfter idxs desc r1 r2 → notAfter idxs desc r2 r3 →
  notAfter idxs desc r1 r3.
Proof.
  intros HP P1 P2 P3. destruct desc.
  - rewrite !notAfter_desc. intros H12 H23.
    apply (notAfter_asc_trans idxs r3 r2 r1); auto.
  - apply notAfter_asc_trans; auto.
Qed.

Lemma insertRow_StronglySorted (P : list Value → Prop) idxs desc r rows :
  (∀ x y, P x → P y → agree idxs x y) →
  P r → Forall P rows →
  StronglySorted (notAfter idxs desc) rows →
  StronglySorted (notAfter idxs desc) (insertRow idxs desc r rows).
Proof.
  intros HP Pr Prows Hs. induction Hs as [|r' rows Hs IH Hall]; simpl.
  - by repeat constructor.
  - apply list.Forall_cons in Prows as [Pr' Prows].
    destruct (rowLess idxs desc r' r) eqn:Hless.
    + constructor; [by apply IH|].
      rewrite insertRow_Permutation. constructor; [|done].
      by apply rowLess_asym.
    + constructor; [by constructor|]. constructor; [done|].
      apply Forall_forall. intros z Hz.
      apply (notAfter_trans P idxs desc r r' z); auto.
      * apply (proj1 (Forall_forall _ _) Prows z Hz).
      * apply (proj1 (Forall_forall _ _) Hall z Hz).
Qed.

Lemma sortRows_StronglySorted (P : list Value → Prop) idxs desc rows :
  (∀ x y, P x → P y → agree idxs x y) →
  Forall P rows →
  StronglySorted (notAfter idxs desc) (sortRows idxs desc rows).
Proof.
  intros HP. unfold sortRows.
  induction rows as [|r rows IH]; simpl; [constructor|].
  intros Hall. apply list.Forall_cons in Hall as [Pr Prows].
  apply (insertRow_StronglySorted P); auto.
  fold (sortRows idxs desc rows). by rewrite sortRows_Permutation.
Qed.

(** Rows that compare as less have the lesser sort key. *)
Lemma compareRows_keyLt idxs r1 r2 :
  agree idxs r1 r2 → compareRows idxs r1 r2 = Lt →
  keyLt (sortKeyOf idxs r1) (sortKeyOf idxs r2).
Proof.
  unfold sortKeyOf. induction idxs as [|j idxs IH]; [done|].
  rewrite agree_cons. intros [Hj Hrest]. simpl.
  destruct (compareValues _ _) eqn:Hc; try discriminate; intros Hr; csimpl.
  - apply compareValues_Eq in Hc; [|done]. rewrite Hc.
    apply keyLt_next. by apply IH.
  - apply keyLt_here. by apply compareValues_Lt.
Qed.

(** What the sort establishes between two rows is the order of the
    specification between their sort keys. *)
Lemma notAfter_inOrder idxs desc r1 r2 :
  agree idxs r1 r2 →
  notAfter idxs desc r1 r2 →
  inOrder desc (sortKeyOf idxs r1) (sortKeyOf idxs r2).
Proof.
  intros Ha. unfold notAfter, rowLess, inOrder, comesBefore. intros Hn.
  pose proof (compareRows_antisym idxs r1 r2) as Hanti.
  split.
  - destruct (compareRows idxs r1 r2) eqn:Hc.
    + left. by apply compareRows_Eq.
    + right. destruct desc; simpl in *.
      * by rewrite Hanti in Hn.
      * by apply compareRows_keyLt.
    + right. destruct desc; simpl in *.
      * apply compareRows_keyLt; [|done].
        unfold agree in *. eapply Forall_impl; [exact Ha|].
        intros j. apply sameType_sym.
      * by rewrite Hanti in Hn.
  - intros Hlt. destruct desc; apply keyLt_compareRows in Hlt.
    + rewrite Hanti, Hlt in Hn. done.
    + rewrite Hlt in Hn. done.
Qed.

Lemma StronglySorted_impl {A} (R1 R2 : A → A → Prop) (P : A → Prop) l :
  (∀ x y, P x → P y → R1 x y → R2 x y) →
  Forall P l → StronglySorted R1 l → StronglySorted R2 l.
Proof.
  intros Himpl HP Hs. induction Hs as [|x l Hs IH Hall]; [constructor|].
  apply list.Forall_cons in HP as [Px Pl]. constructor; [by apply IH|].
  apply Forall_forall. intros y Hy.
  apply Himpl; [done| |].
  - apply (proj1 (Forall_forall _ _) Pl y Hy).
  - apply (proj1 (Forall_forall _ _) Hall y Hy).
Qed.

(** ** Typed rows *)

Lemma hasType_sameType v1 v2 ty :
  hasType v1 ty → hasType v2 ty → sameType v1 v2.
Proof. by destruct v1, v2, ty. Qed.

Lemma rowTyped_length metas r : rowTyped metas r → length r = length metas.
Proof. apply Forall2_length. Qed.

Lemma rowTyped_agree metas idxs r1 r2 :
  rowTyped metas r1 → rowTyped metas r2 → agree idxs r1 r2.
Proof.
  intros H1 H2. apply Forall_forall. intros j _.
  destruct (metas !! j) as [c|] eqn:Hc.
  - destruct (Forall2_lookup_r _ _ _ _ _ H1 Hc) as (v1 & -> & T1).
    destruct (Forall2_lookup_r _ _ _ _ _ H2 Hc) as (v2 & -> & T2).
    simpl. by eapply hasType_sameType.
  - apply lookup_ge_None in Hc.
    rewrite (lookup_ge_None_2 r1), (lookup_ge_None_2 r2); [done|..].
    + rewrite (rowTyped_length _ _ H2). lia.
    + rewrite (rowTyped_length _ _ H1). lia.
Qed.

(** The values at the positions of the sort columns are the values under
    the labels of the sort columns. *)
Lemma sortKeyOf_rowSortKey cols metas r :
  length r = length metas →
  sortKeyOf (sortIdxs cols metas) r = rowSortKey cols metas r.
Proof.
  intros Hlen. unfold rowSortKey.
  assert (Hcols : Cols (zip metas r) = metas).
  { unfold Cols. apply fst_zip. lia. }
  induction cols as [|l cols IH]; [done|].
  unfold sortIdxs. cbn [omap list_omap]. fold (sortIdxs cols metas).
  destruct (decide (0 ≤ ColIdx l metas)%Z) as [Hge|Hlt].
  - rewrite <- Hcols in Hge.
    destruct (ColIdx_found l (zip metas r) Hge) as (p & Hp & Hfind).
    rewrite (sortColsOfKey_cons_Some _ _ _ _ Hfind). csimpl.
    rewrite <- IH. unfold sortKeyOf. csimpl. f_equal.
    rewrite Hcols in Hp. destruct p as [c v].
    apply lookup_zip_Some in Hp as [_ ->]. done.
  - rewrite <- Hcols in Hlt.
    rewrite (sortColsOfKey_cons_None _ _ _ (ColIdx_missing _ _ Hlt)).
    exact IH.
Qed.

Lemma filter_ext_Forall {A} (P : A → Prop) (Q1 Q2 : A → Prop)
    `{∀ x, Decision (Q1 x)} `{∀ x, Decision (Q2 x)} (l : list A) :
  (∀ x, P x → (Q1 x ↔ Q2 x)) → Forall P l → filter Q1 l = filter Q2 l.
Proof.
  intros Hext. induction 1 as [|x l Px Hl IH]; [done|].
  rewrite !filter_cons, IH.
  destruct (decide (Q1 x)) as [H1|H1], (decide (Q2 x)) as [H2|H2];
    try done; exfalso; specialize (Hext x Px); tauto.
Qed.

(** The rows that [sortRows] gives for typed rows, in the words of the
    specification: a rearrangement, in order, stable. *)
Lemma sortRows_typed cols desc metas rows :
  Forall (rowTyped metas) rows →
  let out := sortRows (sortIdxs cols metas) desc rows in
  out ≡ₚ rows
  ∧ rowsInOrder cols desc metas out
  ∧ ∀ k, filter (λ r, rowSortKey cols metas r = k) out
         = filter (λ r, rowSortKey cols metas r = k) rows.
Proof.
  intros Hty out.
  assert (Hperm : out ≡ₚ rows) by apply sortRows_Permutation.
  assert (Hout : Forall (rowTyped metas) out) by by rewrite Hperm.
  assert (Hkey : ∀ r, rowTyped metas r →
            sortKeyOf (sortIdxs cols metas) r = rowSortKey cols metas r).
  { intros r Hr. apply sortKeyOf_rowSortKey. by apply rowTyped_length. }
  split_and!; [done| |].
  - unfold rowsInOrder.
    apply (StronglySorted_impl (notAfter (sortIdxs cols metas) desc) _
             (rowTyped metas)); [|done|].
    + intros x y Px Py Hxy. rewrite <- !Hkey by done.
      apply notAfter_inOrder; [|done]. by apply (rowTyped_agree metas).
    + apply (sortRows_StronglySorted (rowTyped metas)); [|done].
      intros x y. apply rowTyped_agree.
  - intros k.
    rewrite (filter_ext_Forall (rowTyped metas)
               (λ r, rowSortKey cols metas r = k)
               (λ r, sortKeyOf (sortIdxs cols metas) r = k) out);
      [|by intros r Hr; rewrite Hkey|done].
    rewrite (filter_ext_Forall (rowTyped metas)
               (λ r, rowSortKey cols metas r = k)
               (λ r, sortKeyOf (sortIdxs cols metas) r = k) rows);
      [|by intros r Hr; rewrite Hkey|done].
    apply sortRows_stable.
Qed.

(** The rows that [Process] leaves under the key of a new block. *)
Lemma Process_emittedRows {DS} `{Dataset DS} h (t : sortTransformation DS)
    id b key :
  reachable h t →
  rectangular b →
  sortedKey (GoSlice.elems h (cols t)) (Key b) = Some key →
  ¬ hasBuilder key (cache t) →
  outcome (Process h t id b) = Done
  ∧ emittedRows key (final (Process h t id b))
    = Some (sortRows (sortIdxs (GoSlice.elems h (cols t)) (BlockCols b))
              (desc t) (rowsOf (BlockData b))).
Proof.
  intros Hreach Hrect Hk Hnew.
  destruct (Process_new_key h t id b key
              (reachable_colMapIdentity _ _ Hreach) Hrect Hk Hnew)
    as (cm & _ & ->).
  simpl. split; [done|].
  unfold emittedRows. simpl. rewrite lookupBuilder_app.
  rewrite (proj2 (lookupBuilder_None_hasBuilder _ _) Hnew). simpl.
  rewrite decide_True by done. simpl. f_equal.
  unfold builtFrom. by rewrite builderRows_Sort.
Qed.

(** ** Sort correctness *)

(** For a node that execution can produce and a typed block whose key has
    no builder yet, [Process] builds the rows of the block, sorted. *)
Lemma Process_sorts_typed_rows {DS} `{Dataset DS} h
    (t : sortTransformation DS) id b key :
  let tcols := GoSlice.elems h (cols t) in
  reachable h t →
  rectangular b →
  typedBlock b →
  sortedKey tcols (Key b) = Some key →
  ¬ hasBuilder key (cache t) →
  ∃ out,
    outcome (Process h t id b) = Done
    ∧ emittedRows key (final (Process h t id b)) = Some out
    ∧ out ≡ₚ rowsOf (BlockData b)
    ∧ rowsInOrder tcols (desc t) (BlockCols b) out
    ∧ ∀ k, filter (λ r, rowSortKey tcols (BlockCols b) r = k) out
           = filter (λ r, rowSortKey tcols (BlockCols b) r = k)
               (rowsOf (BlockData b)).
Proof.
  intros tcols Hreach Hrect Hty Hk Hnew.
  destruct (Process_emittedRows h t id b key Hreach Hrect Hk Hnew)
    as [Hdone Hrows].
  eexists. split; [exact Hdone|]. split; [exact Hrows|].
  apply sortRows_typed. exact Hty.
Qed.

(** The order has teeth: rows in ascending order of a are not in
    descending order, and the other way round. *)
Lemma ascending_rows_not_in_descending_order :
  let rows := [[VInt 1; VString "y"]; [VInt 3; VString "x"]] in
  rowsInOrder ["a"%string] false [Ex.colA; Ex.colB] rows
  ∧ ¬ rowsInOrder ["a"%string] true [Ex.colA; Ex.colB] rows
  ∧ ¬ rowsInOrder ["a"%string] false [Ex.colA; Ex.colB] (reverse rows).
Proof.
  assert (Hlt : keyLt [VInt 1] [VInt 3]).
  { apply keyLt_here. constructor. lia. }
  assert (Hnlt : ¬ keyLt [VInt 3] [VInt 1]).
  { inversion 1 as [v1 v2 k1 k2 Hv|v k1 k2 Hk]; subst.
    inversion Hv; subst. lia. }
  intros rows. split_and!.
  - apply SSorted_cons; [apply SSorted_cons; [apply SSorted_nil|]|].
    + apply List.Forall_nil.
    + apply List.Forall_cons; [|apply List.Forall_nil].
      split; [by right|done].
  - intros Hs. apply StronglySorted_inv in Hs as [_ Hall].
    apply list.Forall_cons in Hall as [[_ Hn] _]. by apply Hn.
  - intros Hs. apply StronglySorted_inv in Hs as [_ Hall].
    apply list.Forall_cons in Hall as [[_ Hn] _]. by apply Hn.
Qed.

(** C2: for the block with rows (a:3,b:"x"), (a:1,b:"y"), (a:1,b:"z") and
    sort columns ["a"], [Process] completes and the block it has built has
    the rows (1,"y"), (1,"z"), (3,"x") when ascending and (3,"x"), (1,"y"),
    (1,"z") when descending; the rows (1,"y"), (1,"z"), (3,"x"), (2,"w")
    come out descending as (3,"x"), (2,"w"), (1,"y"), (1,"z"). In general,
    for a node that execution can produce and a block with one data column
    per column, whose rows hold in each column a value of the column's
    type, and whose key has no builder yet, [Process] completes and the rows of the block it has built are a
    rearrangement of the rows of the incoming block in which every row is
    in order with every later row: on the values of the sort columns, taken
    in the order of the configured list, the two rows are equal or the
    earlier row is the lesser when ascending and the greater when
    descending, by the order of the values of each type, with the one
    direction for all columns; and the rows that are equal on all sort
    columns stand in the order in which they came. *)
Theorem Process_sorts_rows :
  (∀ desc, GoSlice.elems Ex.heap (cols (Ex.node Ex.cols_a desc))
           = ["a"%string])
  ∧ outcome (Process Ex.heap (Ex.node Ex.cols_a false) 0%N Ex.block_ab) = Done
  ∧ emittedRows []
      (final (Process Ex.heap (Ex.node Ex.cols_a false) 0%N Ex.block_ab))
    = Some [[VInt 1; VString "y"]; [VInt 1; VString "z"];
            [VInt 3; VString "x"]]
  ∧ outcome (Process Ex.heap (Ex.node Ex.cols_a true) 0%N Ex.block_ab) = Done
  ∧ emittedRows []
      (final (Process Ex.heap (Ex.node Ex.cols_a true) 0%N Ex.block_ab))
    = Some [[VInt 3; VString "x"]; [VInt 1; VString "y"];
            [VInt 1; VString "z"]]
  ∧ emittedRows []
      (final (Process Ex.heap (Ex.node Ex.cols_a true) 0%N Ex3.block_mixed))
    = Some [[VInt 3; VString "x"]; [VInt 2; VString "w"];
            [VInt 1; VString "y"]; [VInt 1; VString "z"]]
  ∧ (∀ DS (HD : Dataset DS) h (t : sortTransformation DS) id b key,
       let tcols := GoSlice.elems h (cols t) in
       reachable h t →
       rectangular b →
       typedBlock b →
       sortedKey tcols (Key b) = Some key →
       ¬ hasBuilder key (cache t) →
       ∃ out,
         outcome (Process h t id b) = Done
         ∧ emittedRows key (final (Process h t id b)) = Some out
         ∧ out ≡ₚ rowsOf (BlockData b)
         ∧ rowsInOrder tcols (desc t) (BlockCols b) out
         ∧ ∀ k, filter (λ r, rowSortKey tcols (BlockCols b) r = k) out
                = filter (λ r, rowSortKey tcols (BlockCols b) r = k)
                    (rowsOf (BlockData b))).
Proof.
  split_and!; [by intros []|reflexivity..|].
  intros DS HD h t id b key. apply Process_sorts_typed_rows.
Qed.

(** The rows (b:"p",a:2), (b:"q",a:1), (b:"p",a:1), (b:"q",a:2), sorted
    descending on the columns b, z, a: first on b, then on a; z is not a
    column of the block. *)
Lemma Process_sorts_rows_witness :
  let t := Ex2.node Ex.cols_bza true in
  let out := [[VString "q"; VInt 2]; [VString "q"; VInt 1];
              [VString "p"; VInt 2]; [VString "p"; VInt 1]] in
  reachable Ex.heap t
  ∧ rectangular Ex3.block_ba
  ∧ typedBlock Ex3.block_ba
  ∧ sortedKey (GoSlice.elems Ex.heap (cols t)) (Key Ex3.block_ba) = Some []
  ∧ ¬ hasBuilder [] (cache t)
  ∧ outcome (Process Ex.heap t 0%N Ex3.block_ba) = Done
  ∧ emittedRows [] (final (Process Ex.heap t 0%N Ex3.block_ba)) = Some out
  ∧ rowsInOrder ["b"; "z"; "a"]%string true [Ex.colB; Ex.colA] out.
Proof.
  intros t out.
  assert (Hreach : reachable Ex.heap t) by apply reach_New.
  assert (Hrect : rectangular Ex3.block_ba) by reflexivity.
  assert (Hty : typedBlock Ex3.block_ba).
  { unfold typedBlock. simpl. repeat constructor. }
  assert (Hnew : ¬ hasBuilder [] (cache t)).
  { intros [x Hx]. discriminate Hx. }
  split; [exact Hreach|]. split; [exact Hrect|]. split; [exact Hty|].
  split; [reflexivity|]. split; [exact Hnew|].
  destruct (proj2 (proj2 (proj2 (proj2 (proj2 (proj2 Process_sorts_rows)))))
              nat _ Ex.heap t 0%N Ex3.block_ba [] Hreach Hrect Hty eq_refl
              Hnew) as (out' & Hd & He & _ & Ho & _).
  assert (Hout : out' = out).
  { assert (Hc : emittedRows [] (final (Process Ex.heap t 0%N Ex3.block_ba))
                 = Some out) by reflexivity.
    rewrite Hc in He. by injection He. }
  rewrite Hout in Ho.
  split; [exact Hd|]. split; [reflexivity|exact Ho].
Defined.
